(** * argparser: command-line parsing engine and help-screen formatter

    A shallow embedding of [argparser.py].  Python strings are lists of
    characters, the mutable list objects ([argv] and its copy) live in a
    store indexed by locations, handlers are state transformers of the
    integrator's state that may raise [ParsingError], and the printing
    functions return the text they write. *)

From Stdlib Require Import ssreflect Ascii String ZArith Lia.
From stdpp Require Import gmap list strings.

Set Default Proof Using "Type".
Local Open Scope nat_scope.

(** ** Python strings *)

Abbreviation str := (list ascii).

(** A string literal. *)
Definition lit (s : string) : str := list_ascii_of_string s.

(** Truth value of an attribute that is [None] or a string. *)
Definition truthy (a : option str) : bool :=
  match a with
  | Some (_ :: _) => true
  | _ => false
  end.

(** [s.startswith(c)] for a one-character [c]. *)
Definition startswith (c : ascii) (s : str) : bool :=
  match s with
  | x :: _ => bool_decide (x = c)
  | [] => false
  end.

(** [s.find(c)] for a one-character [c]; [None] stands for [-1]. *)
Fixpoint find (c : ascii) (s : str) : option nat :=
  match s with
  | [] => None
  | x :: r => if bool_decide (x = c) then Some 0 else S <$> find c r
  end.

(** The line feed that [print] ends a line with. *)
Definition newline : str := ["010"%char].

(** [" " * n] *)
Definition spaces (n : nat) : str := replicate n " "%char.

(** ** The store of list objects *)

Abbreviation loc := nat.
Abbreviation heap := (gmap nat (list str)).

(** [h[l][i]] *)
Definition getitem (h : heap) (l : loc) (i : nat) : option str :=
  h !! l ≫= (.!! i).

(** [h[l][i] = v], for an index in range. *)
Definition setitem (h : heap) (l : loc) (i : nat) (v : str) : heap :=
  alter (<[i := v]>) l h.

(** ** Options and handlers *)

(** How a handler is called: [callback()] or [callback(oarg)]. *)
Inductive call :=
  | Call0
  | Call1 (oarg : option str).

Section Parser.

(** The state of the integrator, which the handlers read and change. *)
Context {St : Type}.

(** A handler changes the integrator's state and returns, or raises
    [ParsingError] with a message. *)
Definition handler := call → St → St * option str.

Record Option := {
  short_name : option str;
  long_name : option str;
  arg : option str;
  description : str;
  callback : option handler;
  hidden : bool
}.

Record Command := {
  name : str;
  usage : option str;
  manual : option str;
  options : list Option
}.

(** The attributes [parse] sets on the command, with the store and the
    integrator's state; [calls] records the handler invocations. *)
Record session := {
  operands : list str;
  argv : loc;
  argc : nat;
  argv_index : nat;
  store : heap;
  world : St;
  calls : list (Option * call)
}.

Inductive exn :=
  | ParsingError (msg : str)
  | IndexError.

Inductive outcome (A : Type) :=
  | Ok (a : A) (σ : session)
  | Raise (e : exn) (σ : session).
#[local] Arguments Ok {A} a σ.
#[local] Arguments Raise {A} e σ.

Definition bind {A B} (r : outcome A) (k : A → session → outcome B) : outcome B :=
  match r with
  | Ok a σ => k a σ
  | Raise e σ => Raise e σ
  end.

Definition state_of {A} (r : outcome A) : session :=
  match r with
  | Ok _ σ => σ
  | Raise _ σ => σ
  end.

(** [self.operands.append(x)] *)
Definition append_operand (x : str) (σ : session) : session :=
  {| operands := operands σ ++ [x]; argv := argv σ; argc := argc σ;
     argv_index := argv_index σ; store := store σ; world := world σ;
     calls := calls σ |}.

(** [self.argv_index += 1] *)
Definition advance (σ : session) : session :=
  {| operands := operands σ; argv := argv σ; argc := argc σ;
     argv_index := S (argv_index σ); store := store σ; world := world σ;
     calls := calls σ |}.

(** [self.argv[self.argv_index] = v] *)
Definition rewrite_current (v : str) (σ : session) : session :=
  {| operands := operands σ; argv := argv σ; argc := argc σ;
     argv_index := argv_index σ;
     store := setitem (store σ) (argv σ) (argv_index σ) v;
     world := world σ; calls := calls σ |}.

Definition called (o : Option) (c : call) (w : St) (σ : session) : session :=
  {| operands := operands σ; argv := argv σ; argc := argc σ;
     argv_index := argv_index σ; store := store σ; world := w;
     calls := calls σ ++ [(o, c)] |}.

(** [self.argv[self.argv_index]] *)
Definition current (σ : session) : option str :=
  getitem (store σ) (argv σ) (argv_index σ).

(** The lines
<<
    if option.callback:
        if option.arg:
            option.callback(oarg)
        else:
            option.callback()
>> *)
Definition run_callback (o : Option) (oarg : option str) (σ : session) : outcome unit :=
  match callback o with
  | Some f =>
      let c := if truthy (arg o) then Call1 oarg else Call0 in
      let r := f c (world σ) in
      match r.2 with
      | Some msg => Raise (ParsingError msg) (called o c r.1 σ)
      | None => Ok () (called o c r.1 σ)
      end
  | None => Ok () σ
  end.

(** [option.arg.startswith("[")], asked of a true [option.arg] only. *)
Definition bracketed (o : Option) : bool :=
  match arg o with
  | Some a => startswith "[" a
  | None => false
  end.

(** The option takes a mandatory argument: [option.arg] is true and does
    not start with a bracket. *)
Definition mandatory (o : Option) : bool := truthy (arg o) && negb (bracketed o).

(** The option takes an optional argument. *)
Definition optional (o : Option) : bool := truthy (arg o) && bracketed o.

(** The option a [for option in self.options] loop stops at. *)
Fixpoint lookup_long (long : str) (opts : list Option) : option Option :=
  match opts with
  | [] => None
  | o :: r => if bool_decide (long_name o = Some long) then Some o else lookup_long long r
  end.

Fixpoint lookup_short (short : ascii) (opts : list Option) : option Option :=
  match opts with
  | [] => None
  | o :: r => if bool_decide (short_name o = Some [short]) then Some o else lookup_short short r
  end.

(** The loop of the end-of-options branch: [n] is [argc - argv_index]. *)
Fixpoint drain (n : nat) (σ : session) : outcome bool :=
  match n with
  | 0 => Ok false σ
  | S n =>
      match current σ with
      | Some x => drain n (advance (append_operand x σ))
      | None => Raise IndexError σ
      end
  end.

(** The mandatory argument taken from the next element of [argv]. *)
Definition next_argument (what : str) (σ : session) : outcome str :=
  let σ := advance σ in
  if bool_decide (Z.of_nat (argv_index σ) > Z.of_nat (argc σ) - 1)%Z then
    Raise (ParsingError (lit "Option " ++ what ++ lit " requires an argument.")) σ
  else
    match current σ with
    | Some x => Ok x σ
    | None => Raise IndexError σ
    end.

(** The name of a long option and the argument attached to it:
<<
    oarg = None
    oarg_pos = long_name.find("=")
    if oarg_pos != -1:
        oarg = long_name[oarg_pos + 1 :]
        long_name = long_name[:oarg_pos]
>> *)
Definition split_long (long : str) : str * option str :=
  match find "=" long with
  | Some oarg_pos => (take oarg_pos long, Some (drop (oarg_pos + 1) long))
  | None => (long, None)
  end.

Definition long_option (cmd : Command) (arg_ : str) (σ : session) : outcome bool :=
  let '(long, oarg) := split_long (drop 2 arg_) in
  match lookup_long long (options cmd) with
  | Some o =>
      bind
        match oarg with
        | Some _ =>
            if negb (truthy (arg o)) then
              Raise (ParsingError (lit "Option --" ++ long ++ lit " does not allow an argument.")) σ
            else Ok oarg σ
        | None =>
            if truthy (arg o) && negb (bracketed o) then
              bind (next_argument (lit "--" ++ long) σ) (λ x σ, Ok (Some x) σ)
            else Ok None σ
        end
        (λ oarg σ, bind (run_callback o oarg σ) (λ _ σ, Ok true (advance σ)))
  | None => Raise (ParsingError (lit "Unknown option: --" ++ long)) σ
  end.

Definition short_option (cmd : Command) (arg_ : str) (short : ascii) (σ : session)
  : outcome bool :=
  let arg_len := length arg_ in
  match lookup_short short (options cmd) with
  | Some o =>
      bind
        (if truthy (arg o) then
           if bool_decide (2 < arg_len) then Ok (Some (drop 2 arg_)) σ
           else if negb (bracketed o) then
             bind (next_argument (lit "-" ++ [short]) σ) (λ x σ, Ok (Some x) σ)
           else Ok None σ
         else Ok None σ)
        (λ oarg σ,
           bind (run_callback o oarg σ) (λ _ σ,
             if negb (truthy oarg) && bool_decide (2 < length arg_) then
               Ok true (rewrite_current ("-"%char :: drop 2 arg_) σ)
             else Ok true (advance σ)))
  | None => Raise (ParsingError (lit "Unknown option: -" ++ [short])) σ
  end.

(** [Command._parse]: one scan step; [Ok true] asks for another one. *)
Definition _parse (cmd : Command) (σ : session) : outcome bool :=
  if bool_decide (Z.of_nat (argv_index σ) > Z.of_nat (argc σ) - 1)%Z then Ok false σ
  else
    match current σ with
    | None => Raise IndexError σ
    | Some arg_ =>
        let arg_len := length arg_ in
        if bool_decide (arg_len = 0) then Ok true (advance (append_operand arg_ σ))
        else if bool_decide (arg_ = lit "--") then
          drain (argc σ - S (argv_index σ)) (advance σ)
        else
          match arg_ with
          | c0 :: r =>
              if bool_decide (c0 = "-"%char) then
                match r with
                | [] => Ok true (advance (append_operand arg_ σ))
                | c1 :: _ =>
                    if bool_decide (c1 = "-"%char) then long_option cmd arg_ σ
                    else short_option cmd arg_ c1 σ
                end
              else Ok true (advance (append_operand arg_ σ))
          | [] => Ok true (advance (append_operand arg_ σ))
          end
    end.

(** [while self._parse(): pass], with a bound on the number of steps. *)
Fixpoint scan (fuel : nat) (cmd : Command) (σ : session) : option (outcome unit) :=
  match fuel with
  | 0 => None
  | S fuel =>
      match _parse cmd σ with
      | Ok true σ => scan fuel cmd σ
      | Ok false σ => Some (Ok () σ)
      | Raise e σ => Some (Raise e σ)
      end
  end.

(** The characters still to be scanned, one more for each element: every
    step that asks for another one makes this smaller. *)
Definition remaining (σ : session) : nat :=
  match store σ !! argv σ with
  | Some l => sum_list ((λ x, S (length x)) <$> drop (argv_index σ) l)
  | None => 0
  end.

(** What [parse] leaves behind: the value it returns ([None] when an
    exception other than [ParsingError] escapes), the text written to
    [sys.stderr], and the session with [self.operands]. *)
Record parsed := {
  returned : option bool;
  stderr : str;
  final : session
}.

Definition initial (h : heap) (w : St) (a : loc) (l : list str) : session :=
  {| operands := []; argv := a; argc := length l; argv_index := 1;
     store := <[a := l]> h; world := w; calls := [] |}.

(** The [try ... except ParsingError ... else] around the scan. *)
Definition report (r : outcome unit) : parsed :=
  match r with
  | Ok _ σ => {| returned := Some false; stderr := []; final := σ |}
  | Raise (ParsingError msg) σ =>
      {| returned := Some true; stderr := msg ++ newline; final := σ |}
  | Raise IndexError σ => {| returned := None; stderr := []; final := σ |}
  end.

(** [Command.parse]: [argv_] is the location of the caller's list, which
    is copied to a fresh location. *)
Definition parse (cmd : Command) (h : heap) (w : St) (argv_ : loc) : option parsed :=
  match h !! argv_ with
  | Some l =>
      let σ := initial h w (fresh (dom h)) l in
      report <$> scan (S (remaining σ)) cmd σ
  | None => None
  end.

(** ** Predicates on sessions *)

(** [argv] holds the list [l], of [argc] elements. *)
Definition wf (σ : session) (l : list str) : Prop :=
  store σ !! argv σ = Some l ∧ length l = argc σ.

(** What a scan step leaves alone: the location of [argv], [argc], every
    other list of the store, and the length of [argv]. *)
Definition frame (σ σ' : session) : Prop :=
  argv σ' = argv σ ∧ argc σ' = argc σ ∧
  (∀ a, a ≠ argv σ → store σ' !! a = store σ !! a) ∧
  (length <$> store σ' !! argv σ = length <$> store σ !! argv σ).

Definition frames {A} (σ : session) (r : outcome A) : Prop := frame σ (state_of r).

(** Sessions that differ in the integrator's state, the calls and the operands only. *)
Definition same_cursor (σ σ' : session) : Prop :=
  store σ' = store σ ∧ argv σ' = argv σ ∧ argc σ' = argc σ ∧
  argv_index σ' = argv_index σ.

(** [n] scan steps that each ask for another one. *)
Fixpoint steps (n : nat) (cmd : Command) (σ : session) : option session :=
  match n with
  | 0 => Some σ
  | S n =>
      match _parse cmd σ with
      | Ok true σ' => steps n cmd σ'
      | _ => None
      end
  end.

(** A scan step that calls the handler [f] of [o] as [c] records, and then
    goes on from [after] unless the handler raised. *)
Definition invoked (o : Option) (f : handler) (c : call) (σ : session) (after : session → session)
  : outcome bool :=
  let r := f c (world σ) in
  match r.2 with
  | Some msg => Raise (ParsingError msg) (called o c r.1 σ)
  | None => Ok true (after (called o c r.1 σ))
  end.

(** An element the scan takes as an operand. *)
Definition plain (x : str) : Prop :=
  x = [] ∨ x = lit "-" ∨ ∃ c r, x = c :: r ∧ c ≠ "-"%char.

(** The scan of [parse] from a session: [scan] with the bound [parse] uses. *)
Definition run (cmd : Command) (σ : session) : option (outcome unit) := scan (S (remaining σ)) cmd σ.

(** Two sessions with the same operands, integrator's state and calls. *)
Definition agree (σ τ : session) : Prop :=
  operands σ = operands τ ∧ world σ = world τ ∧ calls σ = calls τ.

(** Two sessions that agree and have the same elements left to scan. *)
Definition sim (σ τ : session) : Prop :=
  agree σ τ ∧
  ∃ l1 l2, wf σ l1 ∧ wf τ l2 ∧ drop (argv_index σ) l1 = drop (argv_index τ) l2.

(** Two outcomes with the same value or exception, in sessions related by [R]. *)
Definition related {A} (R : session → session → Prop) (r1 r2 : outcome A) : Prop :=
  match r1, r2 with
  | Ok a1 σ, Ok a2 τ => a1 = a2 ∧ R σ τ
  | Raise e1 σ, Raise e2 τ => e1 = e2 ∧ R σ τ
  | _, _ => False
  end.

(** The characters of a cluster [-c...]: none is a dash, and all but the
    last are registered short options that take no argument. *)
Fixpoint flags (cmd : Command) (c : ascii) (cs : list ascii) : Prop :=
  c ≠ "-"%char ∧
  match cs with
  | [] => True
  | c' :: cs' =>
      (∃ o, lookup_short c (options cmd) = Some o ∧ truthy (arg o) = false) ∧
      flags cmd c' cs'
  end.

(** The session after [pre] has been scanned as operands. *)
Definition skip (pre : list str) (σ : session) : session :=
  {| operands := operands σ ++ pre; argv := argv σ; argc := argc σ;
     argv_index := argv_index σ + length pre; store := store σ;
     world := world σ; calls := calls σ |}.

End Parser.

Arguments Ok {St A} a σ.
Arguments Raise {St A} e σ.

(** ** The command of [example.py], with handlers that record their calls *)

Definition recorder (nm : string) : @handler (list (string * call)) :=
  λ c w, (w ++ [(nm, c)], None).

Definition opt_verbose : @Option (list (string * call)) :=
  {| short_name := Some (lit "v"); long_name := Some (lit "verbose"); arg := None;
     description := lit "Enable verbose program output.";
     callback := Some (recorder "verbose"); hidden := false |}.

Definition opt_file : @Option (list (string * call)) :=
  {| short_name := Some (lit "f"); long_name := Some (lit "file");
     arg := Some (lit "FILENAME");
     description := lit "Write output to file FILENAME.";
     callback := Some (recorder "file"); hidden := false |}.

Definition opt_help : @Option (list (string * call)) :=
  {| short_name := Some (lit "h"); long_name := Some (lit "help"); arg := None;
     description := lit "Print help screen and quit.";
     callback := Some (recorder "help"); hidden := false |}.

Definition opt_log : @Option (list (string * call)) :=
  {| short_name := Some (lit "l"); long_name := Some (lit "log");
     arg := Some (lit "[LOG_FILE]");
     description := lit "Enable loggging (default log file: log.txt).";
     callback := Some (recorder "log"); hidden := false |}.

Definition opt_n : @Option (list (string * call)) :=
  {| short_name := Some (lit "n"); long_name := None; arg := Some (lit "NUMBER");
     description := lit "Set n to a NUMBER between 10 and 20.";
     callback := Some (recorder "n"); hidden := false |}.

Definition example_options : list (@Option (list (string * call))) :=
  [opt_verbose; opt_file; opt_help; opt_log; opt_n].

Definition example_cmd : @Command (list (string * call)) :=
  {| name := lit "main.py"; usage := Some (lit "[OPTION...] OPERAND...");
     manual := None; options := example_options |}.

(** [parse] of [example_cmd] on the arguments [args]: the value returned,
    the operands, and the calls the handlers recorded. *)
Definition example_parse (args : list string)
  : option (option bool * list str * list (string * call)) :=
  (λ p, (returned p, operands (final p), world (final p))) <$>
  parse example_cmd {[ 0 := lit <$> args ]} [] 0.

(** The session in which [parse] of [example_cmd] starts to scan [args]. *)
Definition example_session (args : list string) : @session (list (string * call)) :=
  initial ∅ [] 0 (lit <$> args).

Definition quiet : @handler unit := λ _ w, (w, None).
Definition no_options : @Command unit :=
  {| name := lit "prog"; usage := None; manual := None; options := [] |}.


(** * The help formatter *)

(** [str.casefold] on a character: the model folds the ASCII letters. *)
Definition casefold_char (c : ascii) : ascii :=
  let n := nat_of_ascii c in
  if bool_decide (65 ≤ n ∧ n ≤ 90) then ascii_of_nat (n + 32) else c.

Definition casefold (s : str) : str := casefold_char <$> s.

(** [a < b] on strings: the order of the first character that differs. *)
Fixpoint str_ltb (a b : str) : bool :=
  match a, b with
  | _, [] => false
  | [], _ :: _ => true
  | x :: a, y :: b =>
      if bool_decide (nat_of_ascii x < nat_of_ascii y) then true
      else if bool_decide (nat_of_ascii y < nat_of_ascii x) then false
      else str_ltb a b
  end.

(** [list.sort(key=...)] is stable: an element goes behind the elements
    with an equal key that precede it. *)
Fixpoint insert_by_key {A} (key : A → str) (x : A) (l : list A) : list A :=
  match l with
  | [] => [x]
  | y :: r => if str_ltb (key x) (key y) then x :: y :: r else y :: insert_by_key key x r
  end.

Definition sort_by_key {A} (key : A → str) (l : list A) : list A :=
  foldl (λ sorted x, insert_by_key key x sorted) [] l.

(** [max(l, key=...)]: the first of the elements with the largest key,
    [None] for the [ValueError] of an empty list. *)
Definition max_by_key {A} (key : A → nat) (l : list A) : option A :=
  match l with
  | [] => None
  | x :: r => Some (foldl (λ best y, if bool_decide (key best < key y) then y else best) x r)
  end.

(** Python's [s[:n]] and [s[n:]], also for a negative [n]. *)
Definition slice_to (n : Z) (s : str) : str :=
  if bool_decide (0 ≤ n)%Z then take (Z.to_nat n) s
  else take (length s - Z.to_nat (- n)) s.

Definition slice_from (n : Z) (s : str) : str :=
  if bool_decide (0 ≤ n)%Z then drop (Z.to_nat n) s
  else drop (length s - Z.to_nat (- n)) s.

(** [get_indent]: [bullet_point] is the flag of the loop, the result the
    number of characters the loop goes over. *)
Fixpoint get_indent_loop (bullet_point : bool) (s : str) : nat :=
  match s with
  | [] => 0
  | c :: r =>
      if negb bullet_point && bool_decide (c = "-"%char ∨ c = "*"%char) then
        S (get_indent_loop (if startswith " " r then true else bullet_point) r)
      else if bool_decide (c ≠ " "%char) then 0
      else S (get_indent_loop bullet_point r)
  end.

Definition get_indent (s : str) : nat := get_indent_loop false s.

(** [next_word_len]: [i] is the index the loop is at. *)
Fixpoint next_word_len_loop (ignore_spaces : bool) (i : nat) (s : str) : nat :=
  match s with
  | [] => i
  | c :: r =>
      if bool_decide (c = " "%char) then
        if ignore_spaces then i else next_word_len_loop ignore_spaces (S i) r
      else if bool_decide (c = "010"%char) then
        if bool_decide (i = 0) then 1 else i
      else next_word_len_loop true (S i) r
  end.

Definition next_word_len (s : str) : nat := next_word_len_loop false 0 s.

(** The variables of the loop of [print_block]. *)
Record cursor := {
  text : str;
  col : nat;
  linebreak_encountered : bool;
  indentation : nat
}.

(** What an iteration of the loop does. *)
Inductive event :=
  | LineBreak
  | DropSpace
  | HardSplit
  | Wrap
  | Word.

(** The lines of a text: what is between its line feeds. *)
Fixpoint lines_from (current : str) (s : str) : list str :=
  match s with
  | [] => [current]
  | x :: r =>
      if bool_decide (x = "010"%char) then current :: lines_from [] r
      else lines_from (current ++ [x]) r
  end.

Definition lines (s : str) : list str := lines_from [] s.

(** [within width col s]: written from the column [col] on, [s] has no
    line that ends beyond the column [width]. *)
Fixpoint within (width col : nat) (s : str) : Prop :=
  match s with
  | [] => col ≤ width
  | x :: r =>
      if bool_decide (x = "010"%char) then col ≤ width ∧ within width 0 r
      else within width (S col) r
  end.

(** [str.isspace] for a character below 256. *)
Definition is_space (c : ascii) : bool :=
  let n := nat_of_ascii c in
  bool_decide (9 ≤ n ≤ 13 ∨ 28 ≤ n ≤ 32 ∨ n = 133 ∨ n = 160).

(** [s.split()]: the words of [s], [w] being the word that is read. *)
Fixpoint words_from (w : str) (s : str) : list str :=
  match s with
  | [] => if bool_decide (w = []) then [] else [w]
  | x :: r =>
      if is_space x then
        if bool_decide (w = []) then words_from [] r else w :: words_from [] r
      else words_from (w ++ [x]) r
  end.

Definition words (s : str) : list str := words_from [] s.

(** [s] is empty or starts with white space: a word ends before it. *)
Definition boundary (s : str) : Prop :=
  match s with
  | [] => True
  | x :: _ => is_space x = true
  end.

(** The indentation that [print_block] finds for a line: [get_indent] of
    a line that starts with a space. *)
Definition line_indent (s : str) : nat :=
  if startswith " " s then get_indent s else 0.

(** What bounds the number of iterations left. *)
Definition block_measure (c : cursor) : nat :=
  2 * length (text c) + (if bool_decide (col c = 0) then 0 else 1).

(** The line feed flag is set at the start of a line only, before any
    indentation is found. *)
Definition flag_ok (c : cursor) : Prop :=
  linebreak_encountered c = true → indentation c = 0 ∧ col c = 0.

(** The cursor [c] with another text. *)
Definition with_text (s : str) (c : cursor) : cursor :=
  {| text := s; col := col c; linebreak_encountered := linebreak_encountered c;
     indentation := indentation c |}.

(** [s] is empty or starts with a line feed: a line ends before it. *)
Definition line_end (s : str) : Prop :=
  match s with
  | [] => True
  | x :: _ => x = "010"%char
  end.

(** Every line feed of [s] is followed by [k] spaces. *)
Fixpoint indented_after (k : nat) (s : str) : Prop :=
  match s with
  | [] => True
  | x :: r => (x = "010"%char → take k r = spaces k) ∧ indented_after k r
  end.

(** The variables after a line feed, with the line [L] to print. *)
Definition after_break (L : str) : cursor :=
  {| text := L; col := 0; linebreak_encountered := true; indentation := 0 |}.

(** The text that is left has no line feed, and [k] is the indentation
    it carries or is about to find. *)
Definition carries (k : nat) (c : cursor) : Prop :=
  ("010"%char ∉ text c) ∧
  (if linebreak_encountered c then line_indent (text c) else indentation c) = k.

Section Formatter.

Context {St : Type}.

(** [get_terminal_size()[0]], the width of the terminal. *)
Variable MAX_COLUMNS : nat.

Definition MAX_LINE_LENGTH : nat :=
  if bool_decide (80 < MAX_COLUMNS) then 80 else MAX_COLUMNS.

(** [int(MAX_LINE_LENGTH // 1.618)].  The divisor is 1618/1000; for the
    lengths 0 to 80 the quotient is no closer than 1/809 to a whole
    number, so that the floating-point floor is the exact one. *)
Definition MIN_DESCRIPTION_WIDTH : nat := MAX_LINE_LENGTH * 1000 / 1618.

(** [create_option_usage]: the usage of an option, without its description. *)
Definition create_option_usage (option : @Option St) : str :=
  let s := lit "  " in
  let s :=
    if truthy (short_name option) then
      let s := s ++ lit "-" ++ default [] (short_name option) in
      if negb (truthy (long_name option)) then
        if truthy (arg option) then
          if bracketed option then s ++ default [] (arg option)
          else s ++ lit " " ++ default [] (arg option)
        else s
      else s ++ lit ", "
    else s ++ lit "    " in
  let s :=
    if truthy (long_name option) then
      let s := s ++ lit "--" ++ default [] (long_name option) in
      if truthy (arg option) then
        if bracketed option then s ++ lit "[=" ++ drop 1 (default [] (arg option))
        else s ++ lit " " ++ default [] (arg option)
      else s
    else s in
  s ++ lit "  ".

(** [create_option_usages]: usage and description of the options that
    are not hidden, sorted by the usage without regard to case. *)
Definition create_option_usages (cmd : @Command St) : list (str * str) :=
  sort_by_key (λ usage, casefold usage.1)
    ((λ option, (create_option_usage option, description option)) <$>
       filter (λ option, hidden option = false) (options cmd)).

(** The body of [if col == 0:], which starts a line of output: what it
    prints, the variables after it, and whether it ends in [continue]. *)
Definition start_line (start_col : nat) (c : cursor) : str * cursor * bool :=
  let col := start_col in
  let out := spaces col in
  let '(out, col) :=
    if bool_decide (indentation c ≠ 0) then
      (out ++ spaces (indentation c), col + indentation c)
    else (out, col) in
  match text c with
  | x :: rest =>
      if bool_decide (x = " "%char) then
        if linebreak_encountered c then
          (out, {| text := text c; col := col; linebreak_encountered := false;
                   indentation := get_indent (text c) |}, false)
        else
          (out, {| text := rest; col := col;
                   linebreak_encountered := linebreak_encountered c;
                   indentation := indentation c |}, true)
      else
        (out, {| text := text c; col := col; linebreak_encountered := false;
                 indentation := indentation c |}, false)
  | [] =>
      (out, {| text := text c; col := col; linebreak_encountered := false;
               indentation := indentation c |}, false)
  end.

(** The end of the body of the loop, from [remaining_cols = ...] on. *)
Definition place_word (start_col word_len : nat) (c : cursor) : event * str * cursor :=
  let remaining_cols := (Z.of_nat MAX_LINE_LENGTH - Z.of_nat (col c))%Z in
  if bool_decide (Z.of_nat word_len > remaining_cols)%Z then
    if bool_decide (col c = start_col)
       || bool_decide (indentation c ≠ 0) && bool_decide (col c = start_col + indentation c)
    then
      (HardSplit, slice_to remaining_cols (text c) ++ newline,
       {| text := slice_from remaining_cols (text c); col := 0;
          linebreak_encountered := linebreak_encountered c;
          indentation := indentation c |})
    else
      (Wrap, newline,
       {| text := text c; col := 0;
          linebreak_encountered := linebreak_encountered c;
          indentation := indentation c |})
  else
    (Word, take word_len (text c),
     {| text := drop word_len (text c); col := col c + word_len;
        linebreak_encountered := linebreak_encountered c;
        indentation := indentation c |}).

(** One iteration of [while True:] in [print_block]: [None] for [break],
    else what the iteration prints and the variables after it. *)
Definition iteration (start_col : nat) (c : cursor) : option (event * str * cursor) :=
  let word_len := next_word_len (text c) in
  if bool_decide (word_len = 0) then None
  else
    match text c with
    | [] => None
    | c0 :: rest =>
        if bool_decide (c0 = "010"%char) then
          Some (LineBreak, newline,
                {| text := rest; col := 0; linebreak_encountered := true;
                   indentation := 0 |})
        else if bool_decide (col c = 0) then
          let '(out, c1, continue) := start_line start_col c in
          if continue then Some (DropSpace, out, c1)
          else
            let '(e, out2, c2) := place_word start_col word_len c1 in
            Some (e, out ++ out2, c2)
        else Some (place_word start_col word_len c)
    end.

(** The iterations of the loop, each with what it prints; [None] when the
    loop does not end within [fuel] iterations. *)
Fixpoint block_trace (fuel : nat) (start_col : nat) (c : cursor)
  : option (list (event * str)) :=
  match fuel with
  | 0 => None
  | S fuel =>
      match iteration start_col c with
      | None => Some []
      | Some (e, out, c') => ((e, out) ::.) <$> block_trace fuel start_col c'
      end
  end.

(** The variables when the loop ends. *)
Fixpoint block_end (fuel : nat) (start_col : nat) (c : cursor) : option cursor :=
  match fuel with
  | 0 => None
  | S fuel =>
      match iteration start_col c with
      | None => Some c
      | Some (_, _, c') => block_end fuel start_col c'
      end
  end.

Definition written (t : list (event * str)) : str := concat (snd <$> t).

(** [print_block]: the text written to [file]. *)
Definition print_block (fuel : nat) (string : str) (start_col indent : nat) : option str :=
  let col := start_col in
  let start_col := if bool_decide (indent < start_col) then indent else start_col in
  t ← block_trace fuel start_col
        {| text := string; col := col; linebreak_encountered := false;
           indentation := 0 |};
  Some (written t ++ newline).

(** The variables at [remaining_cols = ...], and what the iteration has
    printed so far, when the iteration gets there. *)
Definition line_start (start_col : nat) (c : cursor) : str * cursor :=
  if bool_decide (col c = 0) then
    (spaces start_col ++ spaces (indentation c),
     {| text := text c; col := start_col + indentation c;
        linebreak_encountered := false;
        indentation :=
          if linebreak_encountered c && startswith " " (text c)
          then get_indent (text c) else indentation c |})
  else ([], c).

(** The iterations of the loop as a relation: [step start_col c e out c']
    when an iteration from [c] is of the kind [e], prints [out] and
    leaves [c']. *)
Inductive step (start_col : nat) : cursor → event → str → cursor → Prop :=
  | step_break c rest :
      text c = "010"%char :: rest →
      step start_col c LineBreak newline
        {| text := rest; col := 0; linebreak_encountered := true; indentation := 0 |}
  | step_drop c rest :
      col c = 0 → linebreak_encountered c = false → text c = " "%char :: rest →
      step start_col c DropSpace (spaces start_col ++ spaces (indentation c))
        {| text := rest; col := start_col + indentation c;
           linebreak_encountered := false; indentation := indentation c |}
  | step_word c x rest n pre c1 :
      text c = x :: rest → x ≠ "010"%char →
      (col c = 0 → x = " "%char → linebreak_encountered c = true) →
      n = next_word_len (text c) → line_start start_col c = (pre, c1) →
      col c1 + n ≤ MAX_LINE_LENGTH →
      step start_col c Word (pre ++ take n (text c))
        {| text := drop n (text c); col := col c1 + n;
           linebreak_encountered := linebreak_encountered c1;
           indentation := indentation c1 |}
  | step_split c x rest n pre c1 :
      text c = x :: rest → x ≠ "010"%char →
      (col c = 0 → x = " "%char → linebreak_encountered c = true) →
      n = next_word_len (text c) → line_start start_col c = (pre, c1) →
      MAX_LINE_LENGTH < col c1 + n →
      col c1 = start_col ∨ indentation c1 ≠ 0 ∧ col c1 = start_col + indentation c1 →
      step start_col c HardSplit
        (pre ++ slice_to (Z.of_nat MAX_LINE_LENGTH - Z.of_nat (col c1)) (text c) ++ newline)
        {| text := slice_from (Z.of_nat MAX_LINE_LENGTH - Z.of_nat (col c1)) (text c);
           col := 0; linebreak_encountered := linebreak_encountered c1;
           indentation := indentation c1 |}
  | step_wrap c x rest n pre c1 :
      text c = x :: rest → x ≠ "010"%char →
      (col c = 0 → x = " "%char → linebreak_encountered c = true) →
      n = next_word_len (text c) → line_start start_col c = (pre, c1) →
      MAX_LINE_LENGTH < col c1 + n →
      ¬ (col c1 = start_col ∨ indentation c1 ≠ 0 ∧ col c1 = start_col + indentation c1) →
      step start_col c Wrap (pre ++ newline)
        {| text := text c; col := 0; linebreak_encountered := linebreak_encountered c1;
           indentation := indentation c1 |}.

(** Iterations of the loop one after another, with what they print. *)
Inductive runs (start_col : nat) : cursor → list (event * str) → cursor → Prop :=
  | runs_nil c : runs start_col c [] c
  | runs_cons c e out c1 t c' :
      step start_col c e out c1 → runs start_col c1 t c' →
      runs start_col c ((e, out) :: t) c'.

(** [roomy start_col s]: the indentation of every line of [s] that
    follows a line feed leaves at least one column of the line. *)
Fixpoint roomy (start_col : nat) (s : str) : bool :=
  match s with
  | [] => true
  | x :: r =>
      (if bool_decide (x = "010"%char)
       then bool_decide (start_col + line_indent r < MAX_LINE_LENGTH) else true)
      && roomy start_col r
  end.

(** [fits start_col ind s]: every word of [s], with the spaces before
    it, fits into a line behind the indentation of its line, which is
    [ind] up to the first line feed of [s]. *)
Fixpoint fits (start_col ind : nat) (s : str) : bool :=
  match s with
  | [] => true
  | x :: r =>
      if bool_decide (x = "010"%char) then fits start_col (line_indent r) r
      else bool_decide (start_col + ind + next_word_len (x :: r) ≤ MAX_LINE_LENGTH)
           && fits start_col ind r
  end.

(** What [print_block] needs of its text and its columns to keep within
    the width. *)
Definition room (sc : nat) (c : cursor) : Prop :=
  flag_ok c ∧ sc + indentation c < MAX_LINE_LENGTH ∧ col c ≤ MAX_LINE_LENGTH ∧ roomy sc (text c) = true ∧
  (linebreak_encountered c = true → sc + line_indent (text c) < MAX_LINE_LENGTH).

(** The words of the text that is left fit behind the indentation of
    their lines. *)
Definition fitting (sc : nat) (c : cursor) : Prop :=
  flag_ok c ∧
  fits sc
    (if linebreak_encountered c then line_indent (text c) else indentation c)
    (text c) = true.

(** The value of [longest] after the [if]: the column of the
    descriptions; [None] for the [ValueError] of [max]. *)
Definition description_column (option_usages : list (str * str)) : option nat :=
  o ← max_by_key (λ o : str * str, length o.1) option_usages;
  let longest := length o.1 in
  Some (if bool_decide (Z.of_nat MAX_LINE_LENGTH - Z.of_nat longest
                        < Z.of_nat MIN_DESCRIPTION_WIDTH)%Z
        then MAX_LINE_LENGTH - MIN_DESCRIPTION_WIDTH else longest).

(** The body of [for option in option_usages:]. *)
Definition print_option (fuel : nat) (longest : nat) (option_ : str * str) : option str :=
  let usage_string := option_.1 ++ spaces (longest - length option_.1) in
  block ← print_block fuel option_.2 (length usage_string) longest;
  Some (usage_string ++ block).

Fixpoint print_options (fuel : nat) (longest : nat) (option_usages : list (str * str))
  : option str :=
  match option_usages with
  | [] => Some []
  | option_ :: rest =>
      out ← print_option fuel longest option_;
      out' ← print_options fuel longest rest;
      Some (out ++ out')
  end.

(** How [print_help] ends. *)
Inductive ending :=
  | Returns
  | ValueError.

(** [print(f"Usage: {cmd.name} {cmd.usage}")] *)
Definition usage_line (cmd : @Command St) : str :=
  lit "Usage: " ++ name cmd ++ lit " " ++ default (lit "None") (usage cmd) ++ newline.

(** [print("\nOptions:")] *)
Definition options_header : str := newline ++ lit "Options:" ++ newline.

(** [print_block(f"\n{cmd.manual}", 0, 0, file)] under [if cmd.manual:] *)
Definition print_manual (fuel : nat) (cmd : @Command St) : option str :=
  if truthy (manual cmd)
  then print_block fuel (newline ++ default [] (manual cmd)) 0 0
  else Some [].

(** [print_help]: the text written to [file] and how the call ends;
    [None] when a loop of [print_block] does not end within [fuel]
    iterations. *)
Definition print_help (fuel : nat) (cmd : @Command St) : option (str * ending) :=
  block ← print_manual fuel cmd;
  let out := usage_line cmd ++ block in
  if bool_decide (options cmd ≠ []) then
    let out := out ++ options_header in
    let option_usages := create_option_usages cmd in
    match description_column option_usages with
    | None => Some (out, ValueError)
    | Some longest =>
        entries ← print_options fuel longest option_usages;
        Some (out ++ entries, Returns)
    end
  else Some (out, Returns).

(** The usage of an entry has no line feed and is within the width, and
    the lines of its description leave room behind the column [longest]. *)
Definition entry_ok (longest : nat) (o : str * str) : bool :=
  bool_decide ("010"%char ∉ o.1) && bool_decide (length o.1 ≤ MAX_LINE_LENGTH)
  && roomy longest o.2.

(** What [print_help] needs of a command to keep the lines after the
    first one within the width. *)
Definition well_sized (cmd : @Command St) : bool :=
  (if truthy (manual cmd) then roomy 0 (newline ++ default [] (manual cmd)) else true)
  && match options cmd with
     | [] => true
     | _ :: _ =>
         bool_decide (8 ≤ MAX_LINE_LENGTH)
         && match description_column (create_option_usages cmd) with
            | Some longest => forallb (entry_ok longest) (create_option_usages cmd)
            | None => false
            end
     end.

(** Iterations that are enough for every block of the help of [cmd]. *)
Definition help_fuel (cmd : @Command St) : nat :=
  2 * max_list (S (length (default [] (manual cmd)))
                :: ((λ o : str * str, length o.2) <$> create_option_usages cmd)) + 2.

End Formatter.

(** A command whose only option is hidden. *)
Definition hidden_cmd : @Command unit :=
  {| name := lit "prog"; usage := Some (lit "[OPTION...]"); manual := None;
     options := [ {| short_name := Some (lit "d"); long_name := Some (lit "debug");
                     arg := None; description := lit "Enable debugging.";
                     callback := None; hidden := true |} ] |}.


(** A command with a manual, and an option whose description has an
    indented list in it. *)
Definition opt_mode : @Option unit :=
  {| short_name := Some (lit "m"); long_name := Some (lit "mode"); arg := Some (lit "MODE");
     description := lit "Set the MODE:" ++ newline ++
                    lit "  - fast, which skips the checks of the input" ++ newline ++
                    lit "  - safe";
     callback := None; hidden := false |}.

Definition modes_cmd : @Command unit :=
  {| name := lit "prog"; usage := Some (lit "[OPTION...] FILE...");
     manual := Some (lit "Converts each FILE. See https://example.org/prog/manual for the details.");
     options := [opt_mode] |}.

(** The same option with the list at the start of its lines. *)
Definition opt_bullets : @Option unit :=
  {| short_name := Some (lit "m"); long_name := Some (lit "mode"); arg := Some (lit "MODE");
     description := lit "Set the MODE:" ++ newline ++
                    lit "- fast, which skips the checks of the input" ++ newline ++
                    lit "- safe";
     callback := None; hidden := false |}.

Definition bullets_cmd : @Command unit :=
  {| name := lit "prog"; usage := Some (lit "[OPTION...] FILE...");
     manual := None; options := [opt_bullets] |}.
(** * More on the parsing engine: what its invariants are stated with *)

Section ParserInvariants.
Context {St : Type}.

(** The session has scanned the list [l0] up to its cursor: the operands
    are among the elements between the first one and the cursor, the
    elements behind the cursor are those of [l0], and the one at the
    cursor is that of [l0] or what is left of a cluster. *)
Definition tracks (l0 : list str) (σ : @session St) : Prop :=
  1 ≤ argv_index σ ∧
  operands σ `sublist_of` drop 1 (take (argv_index σ) l0) ∧
  ∃ l, wf σ l ∧ length l = length l0 ∧
       drop (S (argv_index σ)) l = drop (S (argv_index σ)) l0 ∧
       (l !! argv_index σ = l0 !! argv_index σ ∨
        ∃ r, r ≠ [] ∧ l !! argv_index σ = Some ("-"%char :: r)).

(** A call that the scan may make of the handler of an option of [cmd]:
    without argument when the option takes none, else with the argument
    or, for an optional argument only, with [None]. *)
Definition proper_call (cmd : @Command St) (oc : @Option St * call) : Prop :=
  oc.1 ∈ options cmd ∧ is_Some (callback oc.1) ∧
  match oc.2 with
  | Call0 => truthy (arg oc.1) = false
  | Call1 oarg => truthy (arg oc.1) = true ∧ (oarg = None → bracketed oc.1 = true)
  end.
End ParserInvariants.

(** A handler that raises [ParsingError]. *)
Definition refuse (msg : string) : @handler unit := λ _ w, (w, Some (lit msg)).

(** A command with an option that its handler refuses. *)
Definition opt_exclusive : @Option unit :=
  {| short_name := Some (lit "x"); long_name := Some (lit "exclusive"); arg := None;
     description := lit "Run alone.";
     callback := Some (refuse "Another instance is running."); hidden := false |}.

Definition strict_cmd : @Command unit :=
  {| name := lit "prog"; usage := None; manual := None; options := [opt_exclusive] |}.

(** ** The order of a sorted list *)

(** No element of the list has a key less than the key of an element
    before it. *)
Fixpoint ordered {A} (key : A → str) (l : list A) : Prop :=
  match l with
  | [] => True
  | x :: r => Forall (λ y, str_ltb (key y) (key x) = false) r ∧ ordered key r
  end.

(** ** Text that needs no wrapping *)

(** A text with [k] spaces put before every line that follows a line
    feed and is not empty. *)
Fixpoint indent_lines (k : nat) (s : str) : str :=
  match s with
  | [] => []
  | x :: r =>
      if bool_decide (x = "010"%char) then
        x :: match r with
             | [] => []
             | y :: _ => if bool_decide (y = "010"%char) then [] else spaces k
             end ++ indent_lines k r
      else x :: indent_lines k r
  end.

(** The spaces that an iteration prints before a word at the start of a
    line, when no indentation is carried. *)
Definition line_head (sc : nat) (c : cursor) : str :=
  if bool_decide (col c = 0)
     && match text c with
        | [] => false
        | x :: _ => negb (bool_decide (x = "010"%char))
        end
  then spaces sc else [].

(** ** Characters and words *)

(** The characters of a text that are neither spaces nor line feeds. *)
Definition nonblank (s : str) : str :=
  filter (λ x, x ≠ " "%char ∧ x ≠ "010"%char) s.

(** What is left of a text behind a word: nothing, or a text that starts
    with a space or a line feed. *)
Definition word_end (s : str) : Prop :=
  match s with
  | [] => True
  | x :: _ => x = " "%char ∨ x = "010"%char
  end.
(** * Facts about the parsing engine *)

Section ParserFacts.
Context {St : Type}.
Implicit Types (σ τ : @session St) (cmd : @Command St) (o : @Option St).

Lemma frame_refl σ : frame σ σ.
Proof. by rw /frame. Qed.

Lemma frame_trans σ1 σ2 σ3 : frame σ1 σ2 → frame σ2 σ3 → frame σ1 σ3.
Proof.
  intros (Ha & Hc & Ho & Hl) (Ha' & Hc' & Ho' & Hl'). rw Ha in Ha', Ho', Hl'.
  repeat split; [congruence..| |congruence].
  intros a Hne. rw Ho' // Ho //.
Qed.

Lemma frame_advance σ0 σ : frame σ0 σ → frame σ0 (advance σ).
Proof. intros H. eapply frame_trans; [done|]. by rw /frame. Qed.
Lemma frame_append x σ0 σ : frame σ0 σ → frame σ0 (append_operand x σ).
Proof. intros H. eapply frame_trans; [done|]. by rw /frame. Qed.
Lemma frame_called o c w σ0 σ : frame σ0 σ → frame σ0 (called o c w σ).
Proof. intros H. eapply frame_trans; [done|]. by rw /frame. Qed.
Lemma frame_rewrite v σ0 σ : frame σ0 σ → frame σ0 (rewrite_current v σ).
Proof.
  intros H. eapply frame_trans; [done|].
  rw /frame /= /setitem. repeat split.
  - intros a Hne. by rw lookup_alter_ne.
  - rw lookup_alter_eq. destruct (store σ !! argv σ); simpl; [|done].
    by rw length_insert.
Qed.

Lemma frames_bind {A B} σ (r : outcome A) (k : A → session → outcome B) :
  frames σ r → (∀ a σ', frame σ σ' → frames σ (k a σ')) → frames σ (bind r k).
Proof. destruct r; simpl; auto. Qed.

Lemma frames_ok {A} σ0 σ (a : A) : frame σ0 σ → frames σ0 (Ok a σ).
Proof. done. Qed.
Lemma frames_raise {A} σ0 σ e : frame σ0 σ → frames σ0 (@Raise _ A e σ).
Proof. done. Qed.

Ltac frames :=
  repeat first
    [ progress cbv zeta
    | match goal with
      | |- frames _ (if ?b then _ else _) => destruct b
      | |- frames _ (match ?x with _ => _ end) => destruct x
      | |- frames _ (Ok _ _) => apply frames_ok
      | |- frames _ (Raise _ _) => apply frames_raise
      | |- frames _ (bind _ _) => apply frames_bind; [|intros ???]
      | |- frame _ (advance _) => apply frame_advance
      | |- frame _ (append_operand _ _) => apply frame_append
      | |- frame _ (rewrite_current _ _) => apply frame_rewrite
      | |- frame _ (called _ _ _ _) => apply frame_called
      | |- frame ?s ?s => apply frame_refl
      end
    | assumption ].

Lemma frames_run_callback o oarg σ0 σ : frame σ0 σ → frames σ0 (run_callback o oarg σ).
Proof. intros H. rw /run_callback. frames. Qed.

Lemma frames_next_argument what σ0 σ : frame σ0 σ → frames σ0 (next_argument what σ).
Proof. intros H. rw /next_argument /=. frames. Qed.

Lemma frames_drain n σ0 σ : frame σ0 σ → frames σ0 (drain n σ).
Proof.
  revert σ. induction n as [|n IH]; intros σ H; simpl; [done|].
  case_match; [|done]. apply IH. frames.
Qed.

Lemma frames_long_option cmd a σ : frames σ (long_option cmd a σ).
Proof.
  rw /long_option. destruct (split_long _); destruct (lookup_long _ _);
    frames; (apply frames_run_callback || apply frames_next_argument); frames.
Qed.

Lemma frames_short_option cmd a c σ : frames σ (short_option cmd a c σ).
Proof.
  rw /short_option. destruct (lookup_short _ _);
    frames; (apply frames_run_callback || apply frames_next_argument); frames.
Qed.

Lemma frames_parse cmd σ : frames σ (_parse cmd σ).
Proof.
  rw /_parse. case_bool_decide; [frames|]. destruct (current σ) as [a|]; [|frames].
  case_bool_decide; [frames|]. case_bool_decide; [apply frames_drain; frames|].
  destruct a as [|c0 r]; [frames|]. case_bool_decide; [|frames].
  destruct r as [|c1 r]; [frames|]. case_bool_decide.
  - apply frames_long_option.
  - apply frames_short_option.
Qed.

Lemma remaining_same σ σ' : same_cursor σ σ' → remaining σ' = remaining σ.
Proof. intros (Hs & Ha & _ & Hi). by rw /remaining Hs Ha Hi. Qed.

Lemma current_same σ σ' : same_cursor σ σ' → current σ' = current σ.
Proof. intros (Hs & Ha & _ & Hi). by rw /current Hs Ha Hi. Qed.

Lemma wf_current σ l : wf σ l → current σ = l !! argv_index σ.
Proof. intros [H _]. by rw /current /getitem H. Qed.

Lemma wf_advance σ l : wf σ l → wf (advance σ) l.
Proof. done. Qed.

Lemma remaining_wf σ l :
  wf σ l → remaining σ = sum_list ((λ x : str, S (length x)) <$> drop (argv_index σ) l).
Proof. intros [H _]. by rw /remaining H. Qed.

Lemma remaining_advance σ l x :
  wf σ l → current σ = Some x → remaining σ = S (length x) + remaining (advance σ).
Proof.
  intros Hwf Hc. rw (remaining_wf _ l) // (remaining_wf (advance σ) l) //.
  rw (wf_current _ l) // in Hc. by rw (drop_S _ _ _ Hc).
Qed.

Lemma remaining_rewrite σ l x v :
  wf σ l → current σ = Some x →
  remaining (rewrite_current v σ) + length x = remaining σ + length v.
Proof.
  intros Hwf Hc. rw (remaining_wf σ l) //. rw (wf_current _ l) // in Hc.
  destruct Hwf as [Hl _]. rw /remaining /rewrite_current /setitem /=.
  rw lookup_alter_eq Hl /=.
  rw (drop_S _ _ _ Hc) /=.
  rw drop_insert_ge // Nat.sub_diag (drop_S _ _ _ Hc) /=. lia.
Qed.

Lemma bind_Ok {A B} (r : outcome A) (k : A → session → outcome B) b σ' :
  bind r k = Ok b σ' → ∃ a σ1, r = Ok a σ1 ∧ k a σ1 = Ok b σ'.
Proof. destruct r; simpl; [eauto|done]. Qed.

Lemma bind_Raise {A B} (r : outcome A) (k : A → session → outcome B) e σ' :
  bind r k = Raise e σ' →
  r = Raise e σ' ∨ ∃ a σ1, r = Ok a σ1 ∧ k a σ1 = Raise e σ'.
Proof. destruct r; simpl; [eauto|]. intros [= -> ->]. by left. Qed.

Lemma run_callback_Ok o oarg σ u σ' :
  run_callback o oarg σ = Ok u σ' → same_cursor σ σ'.
Proof.
  rw /run_callback. destruct (callback o); cbv zeta; [destruct (_.2)|];
    intros ?; by simplify_eq.
Qed.

Lemma run_callback_Raise o oarg σ e σ' :
  run_callback o oarg σ = Raise e σ' → ∃ msg, e = ParsingError msg.
Proof.
  rw /run_callback. destruct (callback o); cbv zeta; [destruct (_.2)|];
    intros ?; simplify_eq; eauto.
Qed.

Lemma next_argument_Ok what σ x σ' :
  next_argument what σ = Ok x σ' → σ' = advance σ ∧ current (advance σ) = Some x.
Proof.
  rw /next_argument. case_bool_decide; [done|]. case_match; [|done].
  by intros [= <- <-].
Qed.

Lemma next_argument_Raise what σ l e σ' :
  wf σ l → next_argument what σ = Raise e σ' → ∃ msg, e = ParsingError msg.
Proof.
  intros Hwf. rw /next_argument. case_bool_decide as Hi; [intros [= <- <-]; eauto|].
  rw (wf_current _ l) //=. destruct Hwf as [_ Hlen].
  destruct (l !! S (argv_index σ)) eqn:E; [done|].
  apply lookup_ge_None in E. simpl in Hi. lia.
Qed.

Lemma drain_no_IndexError n σ l σ' :
  wf σ l → n + argv_index σ ≤ argc σ → drain n σ ≠ Raise IndexError σ'.
Proof.
  revert σ. induction n as [|n IH]; intros σ Hwf Hn; simpl; [done|].
  rw (wf_current _ l) //. destruct (l !! argv_index σ) eqn:E.
  - apply IH; [done|simpl; lia].
  - apply lookup_ge_None in E. destruct Hwf as [_ Hlen]. lia.
Qed.

Ltac raise_cases H :=
  repeat match type of H with
  | bind _ _ = Raise _ _ => apply bind_Raise in H as [H|(?&?&?&H)]
  | run_callback _ _ _ = Raise _ _ => apply run_callback_Raise in H as [? ?]
  | next_argument _ _ = Raise _ _ => eapply next_argument_Raise in H as [? ?]; [|eassumption]
  | (if ?b then _ else _) = _ => destruct b eqn:?
  | match ?x with Some _ => _ | None => _ end = _ => destruct x eqn:?
  end; simplify_eq.

Lemma long_option_no_IndexError cmd a σ l σ' :
  wf σ l → long_option cmd a σ ≠ Raise IndexError σ'.
Proof.
  intros Hwf H. rw /long_option in H.
  destruct (split_long (drop 2 a)); destruct (lookup_long _ _); raise_cases H.
Qed.

Lemma short_option_no_IndexError cmd a c σ l σ' :
  wf σ l → short_option cmd a c σ ≠ Raise IndexError σ'.
Proof.
  intros Hwf H. rw /short_option in H.
  destruct (lookup_short _ _); raise_cases H.
Qed.

Lemma _parse_no_IndexError cmd σ l σ' : wf σ l → _parse cmd σ ≠ Raise IndexError σ'.
Proof.
  intros Hwf H. rw /_parse in H. case_bool_decide as Hi; [done|].
  rw (wf_current _ l) // in H. destruct (l !! argv_index σ) as [a|] eqn:E.
  2:{ apply lookup_ge_None in E. destruct Hwf as [_ Hlen]. lia. }
  case_bool_decide; [done|]. case_bool_decide.
  { eapply drain_no_IndexError in H; [done| |simpl; lia]. done. }
  destruct a as [|c0 r]; [done|]. case_bool_decide; [|done].
  destruct r as [|c1 r]; [done|]. case_bool_decide.
  - by eapply long_option_no_IndexError in H.
  - by eapply short_option_no_IndexError in H.
Qed.

Lemma frame_wf σ σ' l : wf σ l → frame σ σ' → ∃ l', wf σ' l'.
Proof.
  intros [Hl Hlen] (Ha & Hc & _ & Hlen'). rw Hl /= in Hlen'.
  destruct (store σ' !! argv σ) as [l'|] eqn:E; [|done].
  exists l'. rw /wf Ha Hc. split; [done|]. simpl in Hlen'. congruence.
Qed.

Lemma same_cursor_wf σ σ' l : same_cursor σ σ' → wf σ l → wf σ' l.
Proof. intros (Hs & Ha & Hc & _) [Hl Hlen]. by rw /wf Hs Ha Hc. Qed.

Lemma same_cursor_advance σ σ' : same_cursor σ σ' → same_cursor (advance σ) (advance σ').
Proof. intros (Hs & Ha & Hc & Hi). by rw /same_cursor /= Hi. Qed.

Lemma remaining_advance_lt σ l x :
  wf σ l → current σ = Some x → remaining (advance σ) < remaining σ.
Proof. intros Hwf Hc. rw (remaining_advance σ l x) //. lia. Qed.

Ltac ok_cases :=
  repeat match goal with
  | H : bind _ _ = Ok _ _ |- _ => apply bind_Ok in H as (?&?&?&H)
  | H : next_argument _ _ = Ok _ _ |- _ => apply next_argument_Ok in H as [-> ?]
  | H : run_callback _ _ _ = Ok _ _ |- _ => apply run_callback_Ok in H
  | H : (if ?b then _ else _) = Ok _ _ |- _ => destruct b eqn:?
  | H : match ?x with Some _ => _ | None => _ end = Ok _ _ |- _ => destruct x eqn:?
  | H : Ok _ _ = Ok _ _ |- _ => inversion H; subst; clear H
  | H : Raise _ _ = Ok _ _ |- _ => discriminate H
  end.

Lemma advance_after σ σ1 σ2 l x :
  wf σ1 l → current σ1 = Some x → remaining σ1 ≤ remaining σ → same_cursor σ1 σ2 →
  remaining (advance σ2) < remaining σ.
Proof.
  intros Hwf Hc Hle Hs.
  rw (remaining_same (advance σ1) (advance σ2)); [by apply same_cursor_advance|].
  pose proof (remaining_advance_lt _ _ _ Hwf Hc). lia.
Qed.

Lemma long_option_decreases cmd a σ l σ' :
  wf σ l → current σ = Some a → long_option cmd a σ = Ok true σ' →
  remaining σ' < remaining σ.
Proof.
  intros Hwf Hc H. rw /long_option in H.
  destruct (split_long (drop 2 a)); destruct (lookup_long _ _); try done; ok_cases.
  all: try (eapply advance_after; [exact Hwf|exact Hc|lia|done]).
  eapply advance_after; [apply wf_advance, Hwf|eassumption| |done].
  pose proof (remaining_advance_lt _ _ _ Hwf Hc). lia.
Qed.

Lemma short_option_decreases cmd a c σ l σ' :
  wf σ l → current σ = Some a → short_option cmd a c σ = Ok true σ' →
  remaining σ' < remaining σ.
Proof.
  intros Hwf Hc H. rw /short_option in H.
  destruct (lookup_short _ _); [|done].
  destruct (decide (2 < length a)) as [Hlt|Hlt];
    [rw !bool_decide_true // in H|rw !bool_decide_false // in H];
    rw ?andb_false_r ?andb_true_r in H; ok_cases.
  all: try (eapply advance_after; [exact Hwf|exact Hc|lia|done]).
  all: try (eapply advance_after; [apply wf_advance, Hwf|eassumption| |done];
            pose proof (remaining_advance_lt _ _ _ Hwf Hc); lia).
  all: try (destruct (drop 2 a) eqn:E; [|done];
            apply (f_equal length) in E; rw length_drop /= in E; lia).
  all: try match goal with
       | H : _ && false = true |- _ => by rw andb_false_r in H
       end.
  all: match goal with
       | Hs : same_cursor ?s1 ?s2 |- remaining (rewrite_current ?v ?s2) < _ =>
           pose proof (remaining_rewrite s2 l a v (same_cursor_wf _ _ _ Hs Hwf)) as Hr;
           rw (current_same _ _ Hs) in Hr; rw (remaining_same _ _ Hs) in Hr;
           specialize (Hr Hc); rw /= length_drop in Hr; lia
       end.
Qed.

Lemma _parse_decreases cmd σ l σ' :
  wf σ l → _parse cmd σ = Ok true σ' → remaining σ' < remaining σ.
Proof.
  intros Hwf H. rw /_parse in H. case_bool_decide as Hi; [done|].
  destruct (current σ) as [a|] eqn:Hc; [|done].
  assert (∀ τ, same_cursor σ τ → remaining (advance τ) < remaining σ) as Hop.
  { intros τ Hs. eapply advance_after; [exact Hwf|exact Hc|lia|done]. }
  case_bool_decide; [simplify_eq; by apply Hop|]. case_bool_decide.
  { revert H. generalize (advance σ). generalize (argc σ - S (argv_index σ)).
    intros n. induction n as [|n IH]; intros τ; simpl; [done|].
    destruct (current τ); [apply IH|done]. }
  destruct a as [|c0 r]; [simplify_eq; by apply Hop|].
  case_bool_decide; [|simplify_eq; by apply Hop].
  destruct r as [|c1 r]; [simplify_eq; by apply Hop|]. case_bool_decide.
  - by eapply long_option_decreases.
  - by eapply short_option_decreases.
Qed.

Lemma _parse_wf cmd σ l r :
  wf σ l → _parse cmd σ = r → ∃ l', wf (state_of r) l'.
Proof. intros Hwf <-. eapply frame_wf; [done|apply frames_parse]. Qed.

Lemma scan_total cmd fuel σ l :
  wf σ l → remaining σ < fuel →
  ∃ r, scan fuel cmd σ = Some r ∧ ∀ σ', r ≠ Raise IndexError σ'.
Proof.
  revert σ l. induction fuel as [|fuel IH]; intros σ l Hwf Hlt; [lia|]. simpl.
  destruct (_parse cmd σ) as [[] σ'|e σ'] eqn:E.
  - destruct (_parse_wf _ _ _ _ Hwf E) as [l' Hwf']. simpl in Hwf'.
    apply (_parse_decreases _ _ _ _ Hwf) in E. eapply IH; [done|lia].
  - eexists. split; [done|]. done.
  - eexists. split; [done|]. intros σ'' [= -> ->].
    by eapply _parse_no_IndexError in E.
Qed.

Lemma scan_fuel cmd f f' σ r : scan f cmd σ = Some r → f ≤ f' → scan f' cmd σ = Some r.
Proof.
  revert f' σ. induction f as [|f IH]; intros f' σ H Hle; [done|].
  destruct f' as [|f']; [lia|]. simpl in *.
  destruct (_parse cmd σ) as [[] σ'|e σ']; [|done..]. apply IH; [done|lia].
Qed.

Lemma steps_scan cmd n f σ σ' :
  steps n cmd σ = Some σ' → scan (n + f) cmd σ = scan f cmd σ'.
Proof.
  revert σ. induction n as [|n IH]; intros σ H; simpl in *; [by simplify_eq|].
  destruct (_parse cmd σ) as [[] τ|e τ]; [|done..]. by apply IH.
Qed.

Lemma steps_wf cmd n σ σ' l :
  wf σ l → steps n cmd σ = Some σ' →
  (∃ l', wf σ' l') ∧ n + remaining σ' ≤ remaining σ ∧ frame σ σ'.
Proof.
  revert σ l. induction n as [|n IH]; intros σ l Hwf H; simpl in *.
  { simplify_eq. split; [eauto|]. split; [lia|apply frame_refl]. }
  destruct (_parse cmd σ) as [[] τ|e τ] eqn:E; [|done..].
  destruct (_parse_wf _ _ _ _ Hwf E) as [l' Hwf']. simpl in Hwf'.
  pose proof (_parse_decreases _ _ _ _ Hwf E).
  pose proof (frames_parse cmd σ) as Hf. rw E in Hf.
  destruct (IH _ _ Hwf' H) as (? & ? & ?).
  split; [done|]. split; [lia|]. by eapply frame_trans.
Qed.

Lemma wf_initial (h : heap) (w : St) l : wf (initial h w (fresh (dom h)) l) l.
Proof. split; [|done]. simpl. by rw lookup_insert_eq. Qed.

(** [parse] returns: the scan ends within its bound, and no exception but
    [ParsingError] is raised. *)
Lemma parse_total cmd (h : heap) (w : St) a l :
  h !! a = Some l → ∃ p b, parse cmd h w a = Some p ∧ returned p = Some b.
Proof.
  intros Hl. rw /parse Hl. cbv zeta.
  destruct (scan_total cmd (S (remaining (initial h w (fresh (dom h)) l)))
              _ _ (wf_initial h w l)) as (r & -> & Hr); [lia|].
  simpl. destruct r as [u τ|[msg|] τ];
    [by eexists _, false|by eexists _, true|]. by destruct (Hr τ).
Qed.

(** The scan of [parse], from a session that the scan reaches. *)
Lemma parse_from cmd (h : heap) (w : St) a l n σ :
  h !! a = Some l →
  steps n cmd (initial h w (fresh (dom h)) l) = Some σ →
  parse cmd h w a = report <$> scan (S (remaining σ)) cmd σ.
Proof.
  intros Hl Hn. rw /parse Hl. cbv zeta.
  destruct (steps_wf _ _ _ _ _ (wf_initial h w l) Hn) as ([l' Hwf] & Hle & _).
  destruct (scan_total cmd (S (remaining σ)) _ _ Hwf) as (r & Hr & _); [lia|].
  rw Hr. erewrite scan_fuel; [done| |reflexivity].
  erewrite <-steps_scan in Hr; [|done].
  eapply scan_fuel; [done|lia].
Qed.

Lemma wf_in_range σ l x :
  wf σ l → current σ = Some x →
  bool_decide (Z.of_nat (argv_index σ) > Z.of_nat (argc σ) - 1)%Z = false.
Proof.
  intros Hwf Hc. rw (wf_current _ _ Hwf) in Hc. apply lookup_lt_Some in Hc.
  destruct Hwf as [_ <-]. apply bool_decide_eq_false. lia.
Qed.

Lemma _parse_operand cmd σ l x :
  wf σ l → current σ = Some x → plain x →
  _parse cmd σ = Ok true (advance (append_operand x σ)).
Proof.
  intros Hwf Hc Hx. rw /_parse (wf_in_range _ _ _ Hwf Hc) Hc.
  destruct Hx as [->| [->|(c & r & -> & Hne)]]; [done..|].
  rw bool_decide_false //. rw bool_decide_false; [intros [= -> _]; done|].
  by rw bool_decide_false.
Qed.

Lemma _parse_long cmd σ l body :
  wf σ l → current σ = Some (lit "--" ++ body) → body ≠ [] →
  _parse cmd σ = long_option cmd (lit "--" ++ body) σ.
Proof.
  intros Hwf Hc Hne. rw /_parse (wf_in_range _ _ _ Hwf Hc) Hc.
  rw bool_decide_false //. rw bool_decide_false; [|done].
  destruct body; [done|]. by intros [=].
Qed.

Lemma _parse_short cmd σ l c r :
  wf σ l → current σ = Some ("-"%char :: c :: r) → c ≠ "-"%char →
  _parse cmd σ = short_option cmd ("-"%char :: c :: r) c σ.
Proof.
  intros Hwf Hc Hne. rw /_parse (wf_in_range _ _ _ Hwf Hc) Hc.
  rw bool_decide_false //. rw bool_decide_false; [by intros [= -> _]|].
  rw bool_decide_true //. by rw bool_decide_false.
Qed.

Lemma drain_all n σ l :
  wf σ l → n + argv_index σ = argc σ →
  drain n σ = Ok false
    {| operands := operands σ ++ drop (argv_index σ) l; argv := argv σ;
       argc := argc σ; argv_index := argc σ; store := store σ;
       world := world σ; calls := calls σ |}.
Proof.
  revert σ. induction n as [|n IH]; intros σ Hwf Hn; simpl.
  - simpl in Hn. rw drop_ge; [destruct Hwf; lia|]. rw app_nil_r. destruct σ; simpl in *. by subst.
  - rw (wf_current _ _ Hwf). destruct (l !! argv_index σ) as [x|] eqn:E.
    + rw IH //=; [lia|]. by rw (drop_S _ _ _ E) -assoc.
    + apply lookup_ge_None in E. destruct Hwf. lia.
Qed.

Lemma _parse_end cmd σ l :
  wf σ l → current σ = Some (lit "--") →
  _parse cmd σ = Ok false
    {| operands := operands σ ++ drop (S (argv_index σ)) l; argv := argv σ;
       argc := argc σ; argv_index := argc σ; store := store σ;
       world := world σ; calls := calls σ |}.
Proof.
  intros Hwf Hc. rw /_parse (wf_in_range _ _ _ Hwf Hc) Hc.
  rw bool_decide_false // bool_decide_true //.
  rw (drain_all _ _ l) //=. rw (wf_current _ _ Hwf) in Hc.
  apply lookup_lt_Some in Hc. destruct Hwf. lia.
Qed.

Lemma find_None c (s : str) : find c s = None ↔ c ∉ s.
Proof.
  induction s as [|x s IH]; simpl.
  { split; [intros _; apply not_elem_of_nil|done]. }
  rw not_elem_of_cons. case_bool_decide as E.
  { split; [done|]. by intros [? _]. }
  destruct (find c s); simpl.
  - split; [done|]. by intros [_ ?%IH].
  - split; [|done]. intros _. split; [congruence|by apply IH].
Qed.

Lemma find_app c (s v : str) : c ∉ s → find c (s ++ c :: v) = Some (length s).
Proof.
  induction s as [|x s IH]; simpl; intros Hn.
  - by rw bool_decide_true.
  - apply not_elem_of_cons in Hn as [? ?]. rw bool_decide_false // IH //.
Qed.

Lemma split_long_plain (long : str) : "="%char ∉ long → split_long long = (long, None).
Proof. intros H%find_None. by rw /split_long H. Qed.

Lemma split_long_attached (long v : str) :
  "="%char ∉ long → split_long (long ++ lit "=" ++ v) = (long, Some v).
Proof.
  intros H. rw /split_long. change (lit "=" ++ v) with ("="%char :: v).
  rw find_app // take_app_length Nat.add_1_r. do 2 f_equal.
  rw (cons_middle _ long v) assoc. apply drop_app_length'.
  rw length_app /=. lia.
Qed.

Lemma run_callback_invoked o f oarg σ after :
  callback o = Some f →
  bind (run_callback o oarg σ) (λ _ σ, Ok true (after σ)) =
  invoked o f (if truthy (arg o) then Call1 oarg else Call0) σ after.
Proof. intros Hf. rw /run_callback /invoked Hf /=. by destruct (_.2). Qed.

Lemma next_argument_next what σ l x :
  wf σ l → l !! S (argv_index σ) = Some x → next_argument what σ = Ok x (advance σ).
Proof.
  intros Hwf Hx. rw /next_argument /=. rw bool_decide_false.
  { apply lookup_lt_Some in Hx. destruct Hwf as [_ <-]. lia. }
  by rw (wf_current (advance σ) l Hwf) /= Hx.
Qed.

Lemma optional_truthy o : optional o = true → truthy (arg o) = true ∧ bracketed o = true.
Proof. by intros ?%andb_prop. Qed.

Lemma mandatory_truthy o : mandatory o = true → truthy (arg o) = true ∧ bracketed o = false.
Proof. intros [? ?%negb_true_iff]%andb_prop. done. Qed.

Lemma report_related (r1 r2 : @outcome St unit) :
  related agree r1 r2 →
  returned (report r1) = returned (report r2) ∧
  stderr (report r1) = stderr (report r2) ∧
  agree (final (report r1)) (final (report r2)).
Proof.
  destruct r1 as [[] σ|[m|] σ], r2 as [[] τ|[m'|] τ]; simpl; try done;
    intros [? ?]; by simplify_eq.
Qed.

Lemma scan_frame cmd fuel σ r : scan fuel cmd σ = Some r → frame σ (state_of r).
Proof.
  revert σ. induction fuel as [|fuel IH]; intros σ H; simpl in H; [done|].
  pose proof (frames_parse cmd σ) as Hf. rw /frames in Hf.
  destruct (_parse cmd σ) as [[] σ'|e σ']; simplify_eq; [|done..].
  eapply frame_trans; [exact Hf|]. by apply IH.
Qed.

Lemma wf_length_drop σ l : wf σ l → length (drop (argv_index σ) l) = argc σ - argv_index σ.
Proof. intros [_ <-]. by rw length_drop. Qed.

Lemma sim_current σ τ : sim σ τ → current σ = current τ.
Proof.
  intros (_ & l1 & l2 & H1 & H2 & Hd).
  rw (wf_current _ _ H1) (wf_current _ _ H2).
  rw -(Nat.add_0_r (argv_index σ)) -(Nat.add_0_r (argv_index τ)) -!lookup_drop.
  by rw Hd.
Qed.

Lemma sim_range σ τ :
  sim σ τ →
  bool_decide (Z.of_nat (argv_index σ) > Z.of_nat (argc σ) - 1)%Z =
  bool_decide (Z.of_nat (argv_index τ) > Z.of_nat (argc τ) - 1)%Z.
Proof.
  intros (_ & l1 & l2 & H1 & H2 & Hd). apply (f_equal length) in Hd.
  rw (wf_length_drop _ _ H1) (wf_length_drop _ _ H2) in Hd.
  apply bool_decide_ext. lia.
Qed.

Lemma sim_agree σ τ : sim σ τ → agree σ τ.
Proof. by intros [? _]. Qed.

Lemma sim_advance σ τ : sim σ τ → sim (advance σ) (advance τ).
Proof.
  intros (Ha & l1 & l2 & H1 & H2 & Hd). split; [done|].
  exists l1, l2. split; [done|]. split; [done|]. simpl.
  by rw -(Nat.add_1_r (argv_index σ)) -(Nat.add_1_r (argv_index τ)) -!drop_drop Hd.
Qed.

Lemma sim_append x σ τ : sim σ τ → sim (append_operand x σ) (append_operand x τ).
Proof.
  intros ((Ho & Hw & Hc) & l1 & l2 & H1 & H2 & Hd). split.
  - rw /agree /= Ho. done.
  - by exists l1, l2.
Qed.

Lemma sim_called o c w σ τ : sim σ τ → sim (called o c w σ) (called o c w τ).
Proof.
  intros ((Ho & Hw & Hc) & l1 & l2 & H1 & H2 & Hd). split.
  - rw /agree /= Hc. done.
  - by exists l1, l2.
Qed.

Lemma wf_rewrite v σ l :
  wf σ l → wf (rewrite_current v σ) (<[argv_index σ := v]> l).
Proof.
  intros [Hl Hlen]. split; simpl.
  - by rw /setitem lookup_alter_eq Hl.
  - by rw length_insert.
Qed.

Lemma sim_rewrite v σ τ : sim σ τ → sim (rewrite_current v σ) (rewrite_current v τ).
Proof.
  intros (Ha & l1 & l2 & H1 & H2 & Hd). split; [done|].
  exists (<[argv_index σ := v]> l1), (<[argv_index τ := v]> l2).
  split; [by apply wf_rewrite|]. split; [by apply wf_rewrite|]. simpl.
  by rw !drop_insert_ge // !Nat.sub_diag Hd.
Qed.

Lemma related_bind {A B} (r1 r2 : outcome A) (k1 k2 : A → session → outcome B) :
  related sim r1 r2 →
  (∀ a σ τ, sim σ τ → related sim (k1 a σ) (k2 a τ)) →
  related sim (bind r1 k1) (bind r2 k2).
Proof. destruct r1, r2; simpl; try done. intros [-> ?] Hk. by apply Hk. Qed.

Lemma related_Ok {A} (a : A) σ τ : sim σ τ → related sim (Ok a σ) (Ok a τ).
Proof. done. Qed.

Lemma related_Raise {A} e σ τ : sim σ τ → related sim (@Raise _ A e σ) (Raise e τ).
Proof. done. Qed.

Ltac related :=
  repeat first
    [ assumption
    | progress cbv zeta
    | match goal with
      | |- related _ (if ?b then _ else _) (if ?b then _ else _) => destruct b
      | |- related _ (match ?x with _ => _ end) (match ?x with _ => _ end) => destruct x
      | |- related _ (Ok _ _) (Ok _ _) => apply related_Ok
      | |- related _ (Raise _ _) (Raise _ _) => apply related_Raise
      | |- related _ (bind _ _) (bind _ _) => apply related_bind; [|intros ????]
      | |- sim (advance _) (advance _) => apply sim_advance
      | |- sim (append_operand _ _) (append_operand _ _) => apply sim_append
      | |- sim (rewrite_current _ _) (rewrite_current _ _) => apply sim_rewrite
      | |- sim (called _ _ _ _) (called _ _ _ _) => apply sim_called
      end ].

Lemma related_run_callback o oarg σ τ :
  sim σ τ → related sim (run_callback o oarg σ) (run_callback o oarg τ).
Proof.
  intros H. rw /run_callback. destruct (sim_agree _ _ H) as (_ & -> & _). related.
Qed.

Lemma related_next_argument what σ τ :
  sim σ τ → related sim (next_argument what σ) (next_argument what τ).
Proof.
  intros H%sim_advance. rw /next_argument. cbv zeta.
  rw (sim_range _ _ H) (sim_current _ _ H). related.
Qed.

Lemma related_drain n σ τ : sim σ τ → related sim (drain n σ) (drain n τ).
Proof.
  revert σ τ. induction n as [|n IH]; intros σ τ H; simpl; [done|].
  rw (sim_current _ _ H). destruct (current τ); [|done]. apply IH. related.
Qed.

Lemma related_long_option cmd a σ τ :
  sim σ τ → related sim (long_option cmd a σ) (long_option cmd a τ).
Proof.
  intros H. rw /long_option. destruct (split_long _); destruct (lookup_long _ _);
    related; (apply related_run_callback || apply related_next_argument); related.
Qed.

Lemma related_short_option cmd a c σ τ :
  sim σ τ → related sim (short_option cmd a c σ) (short_option cmd a c τ).
Proof.
  intros H. rw /short_option. destruct (lookup_short _ _);
    related; (apply related_run_callback || apply related_next_argument); related.
Qed.

Lemma sim_argc σ τ : sim σ τ → argc σ - argv_index σ = argc τ - argv_index τ.
Proof.
  intros (_ & l1 & l2 & H1 & H2 & Hd). apply (f_equal length) in Hd.
  by rw (wf_length_drop _ _ H1) (wf_length_drop _ _ H2) in Hd.
Qed.

(** A scan step reads the elements from the cursor on, and nothing else of [argv]. *)
Lemma related_parse cmd σ τ : sim σ τ → related sim (_parse cmd σ) (_parse cmd τ).
Proof.
  intros H. rw /_parse (sim_range _ _ H) (sim_current _ _ H).
  case_bool_decide; [related|]. destruct (current τ) as [a|]; [|related].
  case_bool_decide; [related|]. case_bool_decide.
  { replace (argc σ - S (argv_index σ)) with (argc τ - S (argv_index τ));
      [|pose proof (sim_argc _ _ H); lia]. apply related_drain. related. }
  destruct a as [|c0 r]; [related|]. case_bool_decide; [|related].
  destruct r as [|c1 r]; [related|]. case_bool_decide.
  - by apply related_long_option.
  - by apply related_short_option.
Qed.

Lemma sim_remaining σ τ : sim σ τ → remaining σ = remaining τ.
Proof.
  intros (_ & l1 & l2 & H1 & H2 & Hd).
  by rw (remaining_wf _ _ H1) (remaining_wf _ _ H2) Hd.
Qed.

Lemma related_scan cmd fuel σ τ :
  sim σ τ → option_Forall2 (related agree) (scan fuel cmd σ) (scan fuel cmd τ).
Proof.
  revert σ τ. induction fuel as [|fuel IH]; intros σ τ H; simpl; [constructor|].
  pose proof (related_parse cmd _ _ H) as Hp.
  destruct (_parse cmd σ) as [[] σ'|e σ'], (_parse cmd τ) as [[] τ'|e' τ'];
    simpl in Hp; try done; destruct Hp as [? Hs]; simplify_eq.
  - by apply IH.
  - constructor. split; [done|by apply sim_agree].
  - constructor. split; [done|by apply sim_agree].
Qed.

Lemma related_run cmd σ τ :
  sim σ τ → option_Forall2 (related agree) (run cmd σ) (run cmd τ).
Proof. intros H. rw /run (sim_remaining _ _ H). by apply related_scan. Qed.

Lemma run_continue cmd σ l σ' :
  wf σ l → _parse cmd σ = Ok true σ' → run cmd σ = run cmd σ'.
Proof.
  intros Hwf Hp. destruct (_parse_wf _ _ _ _ Hwf Hp) as [l' Hwf']. simpl in Hwf'.
  pose proof (_parse_decreases _ _ _ _ Hwf Hp) as Hlt.
  destruct (scan_total cmd (S (remaining σ')) _ _ Hwf') as (r & Hr & _); [lia|].
  rw /run Hr /= Hp. eapply scan_fuel; [done|lia].
Qed.

Lemma run_stop cmd σ σ' : _parse cmd σ = Ok false σ' → run cmd σ = Some (Ok () σ').
Proof. intros Hp. by rw /run /= Hp. Qed.

Lemma run_raise cmd σ e σ' : _parse cmd σ = Raise e σ' → run cmd σ = Some (Raise e σ').
Proof. intros Hp. by rw /run /= Hp. Qed.

Lemma parse_run cmd (h : heap) (w : St) a l n σ :
  h !! a = Some l →
  steps n cmd (initial h w (fresh (dom h)) l) = Some σ →
  parse cmd h w a = report <$> run cmd σ.
Proof. apply parse_from. Qed.

Lemma steps_plain cmd pre σ l rest :
  wf σ l → drop (argv_index σ) l = pre ++ rest → Forall plain pre →
  steps (length pre) cmd σ = Some (skip pre σ).
Proof.
  revert σ. induction pre as [|x pre IH]; intros σ Hwf Hd Hpre; simpl.
  { rw /skip app_nil_r Nat.add_0_r. by destruct σ. }
  apply Forall_cons in Hpre as [Hx Hpre].
  assert (l !! argv_index σ = Some x) as Hc.
  { by rw -(Nat.add_0_r (argv_index σ)) -lookup_drop Hd. }
  rw (_parse_operand _ _ l x) //; [by rw (wf_current _ _ Hwf)|].
  rw (drop_S _ _ _ Hc) /= in Hd. injection Hd as Hd.
  rw (IH (advance (append_operand x σ))) //.
  rw /skip /= -assoc /=. do 2 f_equal. lia.
Qed.

Lemma run_callback_agree o oarg σ τ :
  agree σ τ →
  related (λ σ' τ', agree σ' τ' ∧ same_cursor σ σ' ∧ same_cursor τ τ')
    (run_callback o oarg σ) (run_callback o oarg τ).
Proof.
  intros (Ho & Hw & Hc). rw /run_callback Hw.
  destruct (callback o); cbv zeta; [destruct (_.2)|]; simpl;
    rw /agree /same_cursor /= ?Hc ?Ho //.
Qed.

(** A cluster is scanned like its options given one by one. *)
Lemma cluster_run cmd cs c σ τ l1 l2 R :
  agree σ τ → wf σ l1 → wf τ l2 →
  drop (argv_index σ) l1 = ("-"%char :: c :: cs) :: R →
  drop (argv_index τ) l2 = ((λ c, ["-"%char; c]) <$> c :: cs) ++ R →
  flags cmd c cs →
  option_Forall2 (related agree) (run cmd σ) (run cmd τ).
Proof.
  revert c σ τ l1 l2. induction cs as [|c' cs IH]; intros c σ τ l1 l2 Ha H1 H2 Hd1 Hd2 Hf.
  { apply related_run. split; [done|]. exists l1, l2. by rw Hd1 Hd2. }
  destruct Hf as (Hne & (o & Hlook & Harg) & Hf).
  assert (current σ = Some ("-"%char :: c :: c' :: cs)) as Hc1.
  { by rw (wf_current _ _ H1) -(Nat.add_0_r (argv_index σ)) -lookup_drop Hd1. }
  assert (current τ = Some ["-"%char; c]) as Hc2.
  { by rw (wf_current _ _ H2) -(Nat.add_0_r (argv_index τ)) -lookup_drop Hd2. }
  pose proof (_parse_short cmd _ _ _ _ H1 Hc1 Hne) as Hp1.
  pose proof (_parse_short cmd _ _ _ _ H2 Hc2 Hne) as Hp2.
  rw /short_option Hlook Harg /= in Hp1. rw /short_option Hlook Harg /= in Hp2.
  pose proof (run_callback_agree o None _ _ Ha) as Hcb.
  destruct (run_callback o None σ) as [[] σ'|e σ'],
    (run_callback o None τ) as [[] τ'|e' τ']; simpl in Hcb; try done.
  - destruct Hcb as (_ & Ha' & Hs1 & Hs2). simpl in Hp1, Hp2.
    rw (run_continue _ _ _ _ H1 Hp1) (run_continue _ _ _ _ H2 Hp2).
    pose proof (same_cursor_wf _ _ _ Hs1 H1) as H1'.
    pose proof (same_cursor_wf _ _ _ Hs2 H2) as H2'.
    destruct Hs1 as (_ & _ & _ & Hi1). destruct Hs2 as (_ & _ & _ & Hi2).
    eapply (IH c'); [done|by apply wf_rewrite|exact H2'| | |done].
    + rw /= Hi1 drop_insert_ge // Nat.sub_diag Hd1 //.
    + rw /= Hi2. rw -(Nat.add_1_r (argv_index τ)) -drop_drop Hd2 //.
  - destruct Hcb as (-> & Ha' & _). simpl in Hp1, Hp2.
    rw (run_raise _ _ _ _ Hp1) (run_raise _ _ _ _ Hp2). by constructor.
Qed.

End ParserFacts.

(** * Facts about the help formatter *)

Section FormatterFacts.
Context {St : Type} (MAX_COLUMNS : nat).
Implicit Types (cmd : @Command St) (c : cursor) (s : str).

Local Abbreviation W := (MAX_LINE_LENGTH MAX_COLUMNS).
Local Abbreviation M := (MIN_DESCRIPTION_WIDTH MAX_COLUMNS).

Lemma MIN_DESCRIPTION_WIDTH_le : M ≤ W.
Proof.
  rw /MIN_DESCRIPTION_WIDTH. apply Nat.Div0.div_le_upper_bound. lia.
Qed.

Lemma max_by_key_max {A} (key : A → nat) (l : list A) x :
  max_by_key key l = Some x → key x = max_list (key <$> l) ∧ x ∈ l.
Proof.
  destruct l as [|y l]; [done|]. simpl. intros [= <-].
  assert (∀ b, key (foldl (λ best y, if bool_decide (key best < key y) then y else best) b l)
               = key b `max` max_list (key <$> l) ∧
               foldl (λ best y, if bool_decide (key best < key y) then y else best) b l ∈ b :: l)
    as H.
  { induction l as [|z l IH]; intros b; rw ?fmap_cons; cbn [foldl max_list id].
    { split; [simpl; lia|]. apply list_elem_of_here. }
    destruct (IH (if bool_decide (key b < key z) then z else b)) as [-> Hin].
    split.
    - unfold id. case_bool_decide; lia.
    - apply elem_of_cons in Hin as [->|Hin].
      + case_bool_decide; [apply list_elem_of_further|]; apply list_elem_of_here.
      + by do 2 apply list_elem_of_further. }
  destruct (H y) as [-> ?]. done.
Qed.

Lemma description_column_value (us : list (str * str)) :
  us ≠ [] →
  description_column MAX_COLUMNS us =
    Some (max_list ((λ o, length o.1) <$> us) `min` (W - M)).
Proof.
  intros Hne. rw /description_column.
  destruct (max_by_key _ us) as [o|] eqn:E; [|by destruct us].
  apply max_by_key_max in E as [E _]. simpl in *. rw E. f_equal.
  pose proof MIN_DESCRIPTION_WIDTH_le. case_bool_decide; lia.
Qed.
Lemma filter_hidden (l : list (@Option St)) :
  Forall (λ o, hidden o = true) l → filter (λ o, hidden o = false) l = [].
Proof.
  induction 1 as [|o l Ho _ IH]; [done|]. rw filter_cons_False; [by rw Ho|done].
Qed.
End FormatterFacts.

Section Iterations.
Context (MAX_COLUMNS : nat).
Implicit Types (c : cursor) (s : str).

Local Abbreviation W := (MAX_LINE_LENGTH MAX_COLUMNS).

Lemma next_word_len_loop_bounds ig i s :
  i ≤ next_word_len_loop ig i s ≤ i + length s.
Proof.
  revert ig i. induction s as [|x s IH]; intros ig i; simpl; [lia|].
  repeat case_bool_decide; try destruct ig; try lia;
    destruct (IH false (S i)); destruct (IH true (S i)); lia.
Qed.

Lemma next_word_len_le s : next_word_len s ≤ length s.
Proof. apply (next_word_len_loop_bounds false 0 s). Qed.

Lemma next_word_len_pos s : s ≠ [] → 0 < next_word_len s.
Proof.
  rw /next_word_len. destruct s as [|x s]; simpl; [done|]. intros _.
  repeat case_bool_decide; try lia;
    destruct (next_word_len_loop_bounds false 1 s);
    destruct (next_word_len_loop_bounds true 1 s); lia.
Qed.

Lemma next_word_len_nil s : next_word_len s = 0 ↔ s = [].
Proof.
  split; [|by intros ->]. intros H. destruct s; [done|].
  pose proof (next_word_len_pos (a :: s) ltac:(done)). lia.
Qed.

Lemma spaces_0 : spaces 0 = [].
Proof. done. Qed.

Lemma iteration_None sc c : iteration MAX_COLUMNS sc c = None ↔ text c = [].
Proof.
  rw /iteration. split.
  - case_bool_decide as Hn; [by apply next_word_len_nil in Hn|].
    destruct (text c) as [|x r]; [done|]. case_bool_decide; [done|].
    case_bool_decide; [|by destruct (place_word _ _ _ _) as [[] ?]].
    destruct (start_line _ _) as [[out c1] []]; [done|].
    by destruct (place_word _ _ _ _) as [[] ?].
  - intros ->. done.
Qed.

Lemma place_word_step sc c x rest pre c1 e out c' :
  text c = x :: rest → x ≠ "010"%char →
  (col c = 0 → x = " "%char → linebreak_encountered c = true) →
  line_start sc c = (pre, c1) → text c1 = text c →
  place_word MAX_COLUMNS sc (next_word_len (text c)) c1 = (e, out, c') →
  step MAX_COLUMNS sc c e (pre ++ out) c'.
Proof.
  intros Ht Hx Hlb Hls Ht1. rw /place_word. case_bool_decide as Hfit.
  - destruct (_ || _) eqn:Hat; intros [= <- <- <-]; rw Ht1.
    + eapply step_split; [done..|lia|].
      apply orb_prop in Hat as [Hat|[H1 H2]%andb_prop].
      * left. by apply bool_decide_eq_true in Hat.
      * right. apply bool_decide_eq_true in H1. by apply bool_decide_eq_true in H2.
    + eapply step_wrap; [done..|lia|].
      apply orb_false_elim in Hat as [H1 H2]. apply bool_decide_eq_false in H1.
      intros [?|[? ?]]; [done|]. rw !bool_decide_true // in H2.
  - intros [= <- <- <-]. rw Ht1. eapply step_word; [done..|lia].
Qed.

Lemma iteration_step sc c e out c' :
  iteration MAX_COLUMNS sc c = Some (e, out, c') → step MAX_COLUMNS sc c e out c'.
Proof.
  rw /iteration. case_bool_decide as Hn; [done|].
  destruct (text c) as [|x rest] eqn:Ht; [done|].
  case_bool_decide as Hx; [intros [= <- <- <-]; subst x; by apply step_break|].
  case_bool_decide as Hcol.
  - rw /start_line Ht.
    assert (∀ k, (if bool_decide (k ≠ 0) then (spaces sc ++ spaces k, sc + k)
                  else (spaces sc, sc)) = (spaces sc ++ spaces k, sc + k)) as ->.
    { intros [|k]; simpl; [|done]. by rw app_nil_r Nat.add_0_r. }
    case_bool_decide as Hsp; [destruct (linebreak_encountered c) eqn:Hlb|].
    + destruct (place_word _ _ _ _) as [[e' out'] c''] eqn:Hp.
      intros [= <- <- <-]. rw -Ht in Hp.
      eapply place_word_step; [done..| | |exact Hp]; [|done].
      rw /line_start bool_decide_true // Hlb Ht /=. by rw bool_decide_true.
    + intros [= <- <- <-]. subst x. by apply step_drop.
    + destruct (place_word _ _ _ _) as [[e' out'] c''] eqn:Hp.
      intros [= <- <- <-]. rw -Ht in Hp.
      eapply place_word_step; [done..| | |exact Hp]; [|done].
      rw /line_start bool_decide_true // Ht /= bool_decide_false //.
      by rw andb_false_r.
  - intros [= Hp]. rw -Ht in Hp. rw -(app_nil_l out).
    eapply place_word_step; [done..| |done|exact Hp].
    by rw /line_start bool_decide_false.
Qed.
End Iterations.

Section Loop.
Context (MAX_COLUMNS : nat).
Implicit Types (c : cursor) (s : str) (t : list (event * str)).

Local Abbreviation W := (MAX_LINE_LENGTH MAX_COLUMNS).

Lemma iteration_is_Some sc c :
  text c ≠ [] → ∃ e out c', iteration MAX_COLUMNS sc c = Some (e, out, c').
Proof.
  intros Hne. destruct (iteration MAX_COLUMNS sc c) as [[[e out] c']|] eqn:E; [eauto|].
  by apply iteration_None in E.
Qed.

(** Induction on the iterations of a loop that ends. *)
Lemma block_trace_ind sc (P : cursor → list (event * str) → Prop) :
  (∀ c, text c = [] → P c []) →
  (∀ c e out c' t, step MAX_COLUMNS sc c e out c' → P c' t → P c ((e, out) :: t)) →
  ∀ fuel c t, block_trace MAX_COLUMNS fuel sc c = Some t → P c t.
Proof.
  intros Hend Hstep fuel. induction fuel as [|fuel IH]; intros c t; simpl; [done|].
  destruct (iteration MAX_COLUMNS sc c) as [[[e out] c']|] eqn:E.
  - destruct (block_trace _ fuel sc c') as [t'|] eqn:Et; [|done]. intros [= <-].
    apply (Hstep _ _ _ c'); [by apply iteration_step|by apply IH].
  - intros [= <-]. apply Hend. by apply iteration_None in E.
Qed.

(** The loop ends when an invariant makes every iteration lower the measure. *)
Lemma block_trace_total sc (Inv : cursor → Prop) :
  (∀ c e out c', Inv c → step MAX_COLUMNS sc c e out c' →
     Inv c' ∧ block_measure c' < block_measure c) →
  ∀ fuel c, Inv c → block_measure c < fuel →
    ∃ t, block_trace MAX_COLUMNS fuel sc c = Some t.
Proof.
  intros Hstep fuel. induction fuel as [|fuel IH]; intros c Hinv Hlt; [lia|]. simpl.
  destruct (iteration MAX_COLUMNS sc c) as [[[e out] c']|] eqn:E; [|eauto].
  apply iteration_step in E. destruct (Hstep _ _ _ _ Hinv E) as [Hinv' Hm].
  destruct (IH c' Hinv') as [t ->]; [lia|]. eauto.
Qed.

Lemma block_trace_fuel sc fuel fuel' c t :
  block_trace MAX_COLUMNS fuel sc c = Some t → fuel ≤ fuel' →
  block_trace MAX_COLUMNS fuel' sc c = Some t.
Proof.
  revert fuel' c t. induction fuel as [|fuel IH]; intros fuel' c t; simpl; [done|].
  intros H Hle. destruct fuel' as [|fuel']; [lia|]. simpl.
  destruct (iteration MAX_COLUMNS sc c) as [[[e out] c']|]; [|done].
  destruct (block_trace _ fuel sc c') as [t'|] eqn:Et; [|done].
  by rw (IH fuel' c' t' Et); [lia|].
Qed.

(** ** The cursor where a word is placed *)

Lemma line_start_text sc c pre c1 : line_start sc c = (pre, c1) → text c1 = text c.
Proof. rw /line_start. case_bool_decide; by intros [= <- <-]. Qed.

Lemma line_start_pre sc c pre c1 :
  line_start sc c = (pre, c1) → ∃ k, pre = spaces k ∧ col c + k = col c1.
Proof.
  rw /line_start. case_bool_decide as Hc; intros [= <- <-].
  - exists (sc + indentation c). split; [by rw /spaces replicate_add|simpl; lia].
  - exists 0. split; [done|lia].
Qed.

Lemma line_start_flag sc c pre c1 :
  flag_ok c → line_start sc c = (pre, c1) → linebreak_encountered c1 = false.
Proof.
  intros Hf. rw /line_start. case_bool_decide as Hc; intros [= <- <-]; [done|].
  destruct (linebreak_encountered c) eqn:Hlb; [|done]. by destruct (Hf Hlb).
Qed.

Lemma line_start_indentation sc c pre c1 :
  flag_ok c → line_start sc c = (pre, c1) →
  indentation c1 =
    if linebreak_encountered c then line_indent (text c) else indentation c.
Proof.
  intros Hf. rw /line_start. case_bool_decide as Hc; intros [= <- <-]; simpl.
  - rw /line_indent. destruct (linebreak_encountered c) eqn:Hlb; simpl; [|done].
    destruct (startswith _ _); [done|]. by destruct (Hf Hlb).
  - destruct (linebreak_encountered c) eqn:Hlb; [|done]. by destruct (Hf Hlb).
Qed.

(** At the start of a line the column is one at which a long word is split. *)
Lemma line_start_col sc c pre c1 :
  flag_ok c → line_start sc c = (pre, c1) → col c = 0 →
  col c1 = sc ∨ indentation c1 ≠ 0 ∧ col c1 = sc + indentation c1.
Proof.
  intros Hf. rw /line_start. intros H Hc. rw bool_decide_true // in H.
  injection H as <- <-. simpl.
  destruct (linebreak_encountered c) eqn:Hlb.
  - left. destruct (Hf Hlb) as [-> _]. lia.
  - simpl. destruct (indentation c); [left; lia|right; done].
Qed.

Lemma step_flag sc c e out c' : flag_ok c → step MAX_COLUMNS sc c e out c' → flag_ok c'.
Proof.
  intros Hf. destruct 1; rw /flag_ok /=; try done;
    by erewrite line_start_flag.
Qed.

Lemma step_wrap_col sc c out c' :
  flag_ok c → step MAX_COLUMNS sc c Wrap out c' → col c ≠ 0.
Proof.
  intros Hf Hs Hc. inversion Hs; subst.
  match goal with H : ¬ _ |- _ => apply H end. by eapply line_start_col.
Qed.
End Loop.

Section Room.
Context (MAX_COLUMNS : nat).
Implicit Types (c : cursor) (s : str) (t : list (event * str)).

Local Abbreviation W := (MAX_LINE_LENGTH MAX_COLUMNS).
Local Abbreviation LF := ("010"%char).

Lemma next_word_len_loop_no_newline ig i s :
  (i = 0 → ∀ r, s ≠ LF :: r) → LF ∉ take (next_word_len_loop ig i s - i) s.
Proof.
  revert ig i. induction s as [|x s IH]; intros ig i Hi; simpl.
  { rw take_nil. apply not_elem_of_nil. }
  case_bool_decide as Hsp.
  - destruct ig.
    + rw Nat.sub_diag /=. apply not_elem_of_nil.
    + pose proof (next_word_len_loop_bounds false (S i) s) as [Hb _].
      replace (next_word_len_loop false (S i) s - i)
        with (S (next_word_len_loop false (S i) s - S i)) by lia.
      simpl. apply not_elem_of_cons. split; [by subst x|]. by apply IH.
  - case_bool_decide as Hnl.
    + subst x. case_bool_decide as Hi0; [by destruct (Hi Hi0 s)|].
      rw Nat.sub_diag /=. apply not_elem_of_nil.
    + pose proof (next_word_len_loop_bounds true (S i) s) as [Hb _].
      replace (next_word_len_loop true (S i) s - i)
        with (S (next_word_len_loop true (S i) s - S i)) by lia.
      simpl. apply not_elem_of_cons. split; [done|]. by apply IH.
Qed.

(** A word does not go over a line feed. *)
Lemma next_word_no_newline x r :
  x ≠ LF → LF ∉ take (next_word_len (x :: r)) (x :: r).
Proof.
  intros Hx. pose proof (next_word_len_loop_no_newline false 0 (x :: r)) as H.
  rw Nat.sub_0_r in H. apply H. by intros _ r' [= ? _].
Qed.

Lemma not_elem_of_take (y : ascii) k k' s : k ≤ k' → y ∉ take k' s → y ∉ take k s.
Proof.
  intros Hle Hn Hin. apply Hn. rw -(take_drop k (take k' s)) take_take.
  apply elem_of_app. left. by rw Nat.min_l.
Qed.

Lemma not_elem_of_spaces k : LF ∉ spaces k.
Proof. by intros [? _]%elem_of_replicate. Qed.

(** ** Lines within the width *)

Lemma within_le width col s : within width col s → col ≤ width.
Proof.
  revert col. induction s as [|x s IH]; intros col; simpl; [done|].
  case_bool_decide as Hx; [by intros [? _]|]. intros H%IH. lia.
Qed.

Lemma within_app width col a b :
  LF ∉ a → within width col (a ++ b) ↔ within width (col + length a) b.
Proof.
  revert col. induction a as [|x a IH]; intros col Hn; simpl.
  { by rw Nat.add_0_r. }
  apply not_elem_of_cons in Hn as [Hx Hn]. rw bool_decide_false // IH //.
  by rw Nat.add_succ_r.
Qed.

Lemma within_newline width col b :
  within width col (newline ++ b) ↔ col ≤ width ∧ within width 0 b.
Proof. done. Qed.

Lemma within_lines_from width cur s :
  LF ∉ cur →
  within width (length cur) s ↔ Forall (λ l, length l ≤ width) (lines_from cur s).
Proof.
  revert cur. induction s as [|x s IH]; intros cur Hcur; simpl.
  { rw Forall_singleton //. }
  case_bool_decide as Hx.
  - rw Forall_cons -(IH []) //. apply not_elem_of_nil.
  - rw -IH ?length_app /= ?Nat.add_1_r //.
    rw not_elem_of_app not_elem_of_cons. split; [done|]. split; [done|].
    apply not_elem_of_nil.
Qed.

(** ** The loop ends, with lines within the width *)

Lemma roomy_cons sc x s : roomy MAX_COLUMNS sc (x :: s) = true → roomy MAX_COLUMNS sc s = true.
Proof. simpl. by intros [_ ?]%andb_prop. Qed.

Lemma roomy_drop sc k s : roomy MAX_COLUMNS sc s = true → roomy MAX_COLUMNS sc (drop k s) = true.
Proof.
  revert s. induction k as [|k IH]; intros s; [by rw drop_0|].
  destruct s as [|x s]; [done|]. intros H%roomy_cons. by apply IH.
Qed.

Lemma line_start_room sc c pre c1 :
  room MAX_COLUMNS sc c → line_start sc c = (pre, c1) → sc + indentation c1 < W ∧ col c1 ≤ W.
Proof.
  intros (Hf & Hi & Hc & Hr & Hl) Hls.
  rw (line_start_indentation _ _ _ _ Hf Hls). split.
  - destruct (linebreak_encountered c); [by apply Hl|done].
  - revert Hls. rw /line_start. case_bool_decide; intros [= <- <-]; simpl; lia.
Qed.

Lemma step_room sc c e out c' :
  room MAX_COLUMNS sc c → step MAX_COLUMNS sc c e out c' →
  room MAX_COLUMNS sc c' ∧ block_measure c' < block_measure c.
Proof.
  intros Hroom Hs. pose proof Hroom as (Hf & Hi & Hc & Hr & Hl).
  pose proof (step_flag _ _ _ _ _ _ Hf Hs) as Hf'.
  assert (e = Wrap → col c ≠ 0) as Hwrap.
  { intros ->. by eapply step_wrap_col. }
  destruct Hs as [c rest Ht|c rest Hc0 Hlb Ht|c x rest n pre c1 Ht Hx Hxs -> Hls Hfit
                 |c x rest n pre c1 Ht Hx Hxs -> Hls Hfit Hat
                 |c x rest n pre c1 Ht Hx Hxs -> Hls Hfit Hat];
    rw /room /block_measure /=.
  - rw Ht /= in Hr. apply andb_prop in Hr as [Hr1%bool_decide_eq_true Hr2].
    rw Ht /=. split; [|case_bool_decide; lia].
    split; [done|]. split; [lia|]. split; [lia|]. split; [done|]. done.
  - rw Ht /=. split; [|case_bool_decide; lia].
    split; [done|]. split; [done|]. split; [lia|]. split; [|done].
    rw Ht in Hr. by apply roomy_cons in Hr.
  - destruct (line_start_room _ _ _ _ Hroom Hls) as [Hi1 Hc1].
    pose proof (next_word_len_pos (text c)) as Hpos. rw Ht in Hpos.
    specialize (Hpos ltac:(done)). rw -Ht in Hpos.
    pose proof (next_word_len_le (text c)) as Hle.
    split.
    + split; [done|]. split; [done|]. split; [done|]. split; [by apply roomy_drop|].
      by rw (line_start_flag _ _ _ _ Hf Hls).
    + rw length_drop. repeat case_bool_decide; lia.
  - destruct (line_start_room _ _ _ _ Hroom Hls) as [Hi1 Hc1].
    assert (col c1 < W) as Hlt by (destruct Hat as [->|[_ ->]]; lia).
    rw /slice_from bool_decide_true; [lia|]. split.
    + split; [done|]. split; [done|]. split; [lia|]. split; [by apply roomy_drop|].
      by rw (line_start_flag _ _ _ _ Hf Hls).
    + rw length_drop Ht /=. repeat case_bool_decide; lia.
  - destruct (line_start_room _ _ _ _ Hroom Hls) as [Hi1 Hc1].
    specialize (Hwrap eq_refl). split.
    + split; [done|]. split; [done|]. split; [lia|]. split; [done|].
      by rw (line_start_flag _ _ _ _ Hf Hls).
    + repeat case_bool_decide; lia.
Qed.
End Room.

Section Width.
Context (MAX_COLUMNS : nat).
Implicit Types (c : cursor) (s : str) (t : list (event * str)).

Local Abbreviation W := (MAX_LINE_LENGTH MAX_COLUMNS).
Local Abbreviation LF := ("010"%char).

Lemma written_cons e out t : written ((e, out) :: t) = out ++ written t.
Proof. done. Qed.

Lemma room_split_col sc c pre c1 :
  room MAX_COLUMNS sc c → line_start sc c = (pre, c1) →
  col c1 = sc ∨ indentation c1 ≠ 0 ∧ col c1 = sc + indentation c1 → col c1 < W.
Proof.
  intros Hroom Hls Hat. destruct (line_start_room _ _ _ _ _ Hroom Hls) as [Hi1 Hc1].
  destruct Hat as [->|[_ ->]]; lia.
Qed.

(** No line of what the loop prints ends beyond the width. *)
Lemma block_trace_within sc fuel c t :
  block_trace MAX_COLUMNS fuel sc c = Some t → room MAX_COLUMNS sc c →
  within W (col c) (written t ++ newline).
Proof.
  revert fuel c t. apply (block_trace_ind MAX_COLUMNS sc
    (λ c t, room MAX_COLUMNS sc c → within W (col c) (written t ++ newline))).
  { intros c _ (_ & _ & Hc & _). simpl. split; [done|lia]. }
  intros c e out c' t Hs IH Hroom.
  destruct (step_room _ _ _ _ _ _ Hroom Hs) as [Hroom' _]. specialize (IH Hroom').
  rw written_cons -assoc.
  destruct Hs as [c rest Ht|c rest Hc0 Hlb Ht|c x rest n pre c1 Ht Hx Hxs -> Hls Hfit
                 |c x rest n pre c1 Ht Hx Hxs -> Hls Hfit Hat
                 |c x rest n pre c1 Ht Hx Hxs -> Hls Hfit Hat]; simpl in IH.
  - apply within_newline. split; [|done]. by destruct Hroom as (_ & _ & ? & _).
  - rw within_app.
    { rw not_elem_of_app. split; apply not_elem_of_spaces. }
    by rw Hc0 length_app !length_replicate.
  - destruct (line_start_pre _ _ _ _ Hls) as (k & -> & Hk).
    rw within_app.
    { rw not_elem_of_app. split; [apply not_elem_of_spaces|].
      rw Ht. by apply next_word_no_newline. }
    rw length_app length_replicate length_take Nat.min_l; [apply next_word_len_le|].
    by rw Nat.add_assoc Hk.
  - destruct (line_start_pre _ _ _ _ Hls) as (k & -> & Hk).
    pose proof (room_split_col _ _ _ _ Hroom Hls Hat) as Hlt.
    rw /slice_to bool_decide_true; [lia|]. rw -!assoc within_app.
    { apply not_elem_of_spaces. }
    rw within_app.
    { eapply (not_elem_of_take _ _ (next_word_len (text c))); [lia|].
      rw Ht. by apply next_word_no_newline. }
    apply within_newline. split; [|done].
    rw length_replicate length_take. lia.
  - destruct (line_start_pre _ _ _ _ Hls) as (k & -> & Hk).
    destruct (line_start_room _ _ _ _ _ Hroom Hls) as [_ Hc1].
    rw -assoc within_app; [apply not_elem_of_spaces|].
    apply within_newline. split; [|done]. rw length_replicate. lia.
Qed.

(** From a cursor with room the loop ends within twice the length of the
    text and two more iterations. *)
Lemma block_trace_room_total sc fuel c :
  room MAX_COLUMNS sc c → 2 * length (text c) + 2 ≤ fuel →
  ∃ t, block_trace MAX_COLUMNS fuel sc c = Some t.
Proof.
  intros Hroom Hfuel.
  eapply (block_trace_total MAX_COLUMNS sc (room MAX_COLUMNS sc)); [|done|].
  - intros c0 e out c' Hr Hs. by eapply step_room.
  - rw /block_measure. case_bool_decide; lia.
Qed.

Lemma room_initial string start_col indent :
  start_col ≤ W → start_col `min` indent < W →
  roomy MAX_COLUMNS (start_col `min` indent) string = true →
  room MAX_COLUMNS (if bool_decide (indent < start_col) then indent else start_col)
    {| text := string; col := start_col; linebreak_encountered := false;
       indentation := 0 |}.
Proof.
  intros Hc Hsc Hr.
  replace (if bool_decide (indent < start_col) then indent else start_col)
    with (start_col `min` indent) by (case_bool_decide; lia).
  rw /room /flag_ok /=. split; [done|]. split; [lia|]. done.
Qed.

(** [print_block] returns, and none of its lines is longer than
    [MAX_LINE_LENGTH], the first one counted from [start_col]. *)
Lemma print_block_within fuel string start_col indent :
  start_col ≤ W → start_col `min` indent < W →
  roomy MAX_COLUMNS (start_col `min` indent) string = true →
  2 * length string + 2 ≤ fuel →
  ∃ out, print_block MAX_COLUMNS fuel string start_col indent = Some out ∧
         within W start_col out.
Proof.
  intros Hc Hsc Hr Hfuel. pose proof (room_initial _ _ _ Hc Hsc Hr) as Hroom.
  destruct (block_trace_room_total _ fuel _ Hroom Hfuel) as [t Ht].
  exists (written t ++ newline). rw /print_block Ht /=. split; [done|].
  by apply (block_trace_within _ _ _ _ Ht Hroom).
Qed.
End Width.

Section Words.
Context (MAX_COLUMNS : nat).
Implicit Types (c : cursor) (s : str) (t : list (event * str)).

Local Abbreviation W := (MAX_LINE_LENGTH MAX_COLUMNS).
Local Abbreviation LF := ("010"%char).

Lemma words_space x s : is_space x = true → words (x :: s) = words s.
Proof. intros H. by rw /words /= H. Qed.

Lemma words_spaces k s : words (spaces k ++ s) = words s.
Proof. induction k as [|k IH]; [done|]. simpl. by rw words_space. Qed.

Lemma words_newline s : words (newline ++ s) = words s.
Proof. by apply words_space. Qed.

Lemma words_from_app w a b :
  boundary b → words_from w (a ++ b) = words_from w a ++ words b.
Proof.
  intros Hb. revert w. induction a as [|y a IH]; intros w; simpl.
  - destruct b as [|x b]; simpl.
    + by rw app_nil_r.
    + simpl in Hb. rw /words /= Hb. by case_bool_decide.
  - destruct (is_space y); [case_bool_decide|]; by rw IH.
Qed.

Lemma words_app a b : boundary b → words (a ++ b) = words a ++ words b.
Proof. apply words_from_app. Qed.

Lemma next_word_len_loop_boundary ig i s :
  (i = 0 → ∀ r, s ≠ LF :: r) → boundary (drop (next_word_len_loop ig i s - i) s).
Proof.
  revert ig i. induction s as [|x s IH]; intros ig i Hi; simpl.
  { by rw drop_nil. }
  case_bool_decide as Hsp.
  - destruct ig.
    + rw Nat.sub_diag /=. by subst x.
    + pose proof (next_word_len_loop_bounds false (S i) s) as [Hb _].
      replace (next_word_len_loop false (S i) s - i)
        with (S (next_word_len_loop false (S i) s - S i)) by lia.
      simpl. by apply IH.
  - case_bool_decide as Hnl.
    + subst x. case_bool_decide as Hi0; [by destruct (Hi Hi0 s)|].
      by rw Nat.sub_diag /=.
    + pose proof (next_word_len_loop_bounds true (S i) s) as [Hb _].
      replace (next_word_len_loop true (S i) s - i)
        with (S (next_word_len_loop true (S i) s - S i)) by lia.
      simpl. by apply IH.
Qed.

(** A word ends at the end of the text or before a space or a line feed. *)
Lemma next_word_boundary x r :
  x ≠ LF → boundary (drop (next_word_len (x :: r)) (x :: r)).
Proof.
  intros Hx. pose proof (next_word_len_loop_boundary false 0 (x :: r)) as H.
  rw Nat.sub_0_r in H. apply H. by intros _ r' [= ? _].
Qed.

Lemma boundary_app_l a b : a ≠ [] → boundary a → boundary (a ++ b).
Proof. by destruct a. Qed.

(** Without a word split, the loop prints the words of its text. *)
Lemma block_trace_words sc fuel c t :
  block_trace MAX_COLUMNS fuel sc c = Some t →
  HardSplit ∉ t.*1 →
  words (written t ++ newline) = words (text c) ∧
  (col c ≠ 0 → boundary (text c) → boundary (written t ++ newline)).
Proof.
  revert fuel c t. apply (block_trace_ind MAX_COLUMNS sc
    (λ c t, HardSplit ∉ t.*1 →
       words (written t ++ newline) = words (text c) ∧
       (col c ≠ 0 → boundary (text c) → boundary (written t ++ newline)))).
  { intros c -> _. done. }
  intros c e out c' t Hs IH Hno. rw fmap_cons not_elem_of_cons in Hno.
  destruct Hno as [He Hno]. destruct (IH Hno) as [IHw IHb]. clear IH.
  rw written_cons -assoc.
  destruct Hs as [c rest Ht|c rest Hc0 Hlb Ht|c x rest n pre c1 Ht Hx Hxs -> Hls Hfit
                 |c x rest n pre c1 Ht Hx Hxs -> Hls Hfit Hat
                 |c x rest n pre c1 Ht Hx Hxs -> Hls Hfit Hat]; simpl in IHw, IHb.
  - rw Ht words_newline IHw. done.
  - rw -assoc !words_spaces IHw Ht words_space //.
  - destruct (line_start_pre _ _ _ _ Hls) as (k & -> & Hk).
    pose proof (next_word_len_pos (text c)) as Hpos. rw Ht in Hpos.
    specialize (Hpos ltac:(done)). rw -Ht in Hpos.
    assert (boundary (drop (next_word_len (text c)) (text c))) as Hbd.
    { rw Ht. by apply next_word_boundary. }
    split.
    + rw -assoc words_spaces words_app; [apply IHb; [lia|done]|].
      rw IHw -words_app // take_drop //.
    + intros Hc Hb.
      assert (k = 0) as -> by (revert Hls; rw /line_start bool_decide_false //;
                                intros [= ? ?]; by destruct k).
      simpl. rw Ht in Hpos Hb |- *. apply boundary_app_l.
      { destruct (next_word_len (x :: rest)); [lia|done]. }
      by destruct (next_word_len (x :: rest)); [lia|].
  - done.
  - destruct (line_start_pre _ _ _ _ Hls) as (k & -> & Hk).
    split.
    + rw -assoc words_spaces words_newline //.
    + intros Hc Hb.
      assert (k = 0) as -> by (revert Hls; rw /line_start bool_decide_false //;
                                intros [= ? ?]; by destruct k).
      done.
Qed.
End Words.

Section Fits.
Context (MAX_COLUMNS : nat).
Implicit Types (c : cursor) (s : str) (t : list (event * str)).

Local Abbreviation W := (MAX_LINE_LENGTH MAX_COLUMNS).
Local Abbreviation LF := ("010"%char).

Lemma fits_cons sc ind x r :
  x ≠ LF → fits MAX_COLUMNS sc ind (x :: r) = true →
  sc + ind + next_word_len (x :: r) ≤ W ∧ fits MAX_COLUMNS sc ind r = true.
Proof.
  intros Hx. cbn [fits]. rw bool_decide_false //.
  by intros [?%bool_decide_eq_true ?]%andb_prop.
Qed.

Lemma fits_drop sc ind k s :
  LF ∉ take k s → fits MAX_COLUMNS sc ind s = true →
  fits MAX_COLUMNS sc ind (drop k s) = true.
Proof.
  revert s. induction k as [|k IH]; intros s; [by rw drop_0|].
  destruct s as [|x s]; [done|]. simpl take. intros [Hx Hn]%not_elem_of_cons.
  intros [_ H]%fits_cons; [|done]. by apply IH.
Qed.

Lemma step_fitting sc c e out c' :
  fitting MAX_COLUMNS sc c → step MAX_COLUMNS sc c e out c' →
  e ≠ HardSplit ∧ fitting MAX_COLUMNS sc c' ∧ block_measure c' < block_measure c.
Proof.
  intros [Hf Hfit] Hs.
  pose proof (step_flag _ _ _ _ _ _ Hf Hs) as Hf'.
  assert (e = Wrap → col c ≠ 0) as Hwrap.
  { intros ->. by eapply step_wrap_col. }
  destruct Hs as [c rest Ht|c rest Hc0 Hlb Ht|c x rest n pre c1 Ht Hx Hxs -> Hls Hw
                 |c x rest n pre c1 Ht Hx Hxs -> Hls Hw Hat
                 |c x rest n pre c1 Ht Hx Hxs -> Hls Hw Hat];
    rw /fitting /block_measure /=.
  - rw Ht /= in Hfit. rw Ht /=. split; [done|]. split; [done|]. case_bool_decide; lia.
  - rw Ht Hlb in Hfit. apply fits_cons in Hfit as [_ Hfit]; [|done].
    rw Ht /=. split; [done|]. split; [done|]. case_bool_decide; lia.
  - rw -(line_start_indentation _ _ _ _ Hf Hls) in Hfit.
    pose proof (next_word_len_pos (text c)) as Hpos. rw Ht in Hpos.
    specialize (Hpos ltac:(done)). rw -Ht in Hpos.
    pose proof (next_word_len_le (text c)) as Hle.
    split; [done|]. split.
    + split; [done|]. rw (line_start_flag _ _ _ _ Hf Hls). apply fits_drop; [|done].
      rw Ht. by apply next_word_no_newline.
    + rw length_drop. repeat case_bool_decide; lia.
  - rw -(line_start_indentation _ _ _ _ Hf Hls) Ht in Hfit.
    apply fits_cons in Hfit as [Hfit _]; [|done]. rw -Ht in Hfit.
    destruct Hat as [Hat|[_ Hat]]; lia.
  - rw -(line_start_indentation _ _ _ _ Hf Hls) in Hfit.
    specialize (Hwrap eq_refl). split; [done|]. split.
    + split; [done|]. by rw (line_start_flag _ _ _ _ Hf Hls).
    + repeat case_bool_decide; lia.
Qed.

Lemma block_trace_fitting_total sc fuel c :
  fitting MAX_COLUMNS sc c → 2 * length (text c) + 2 ≤ fuel →
  ∃ t, block_trace MAX_COLUMNS fuel sc c = Some t.
Proof.
  intros Hfit Hfuel.
  eapply (block_trace_total MAX_COLUMNS sc (fitting MAX_COLUMNS sc)); [|done|].
  - intros c0 e out c' Hr Hs. by eapply step_fitting.
  - rw /block_measure. case_bool_decide; lia.
Qed.

Lemma block_trace_fitting sc fuel c t :
  block_trace MAX_COLUMNS fuel sc c = Some t → fitting MAX_COLUMNS sc c → HardSplit ∉ t.*1.
Proof.
  revert fuel c t. apply (block_trace_ind MAX_COLUMNS sc
    (λ c t, fitting MAX_COLUMNS sc c → HardSplit ∉ t.*1)).
  { intros c _ _. apply not_elem_of_nil. }
  intros c e out c' t Hs IH Hfit.
  destruct (step_fitting _ _ _ _ _ Hfit Hs) as (He & Hfit' & _).
  rw fmap_cons not_elem_of_cons. split; [done|by apply IH].
Qed.

(** With words that fit, [print_block] returns and prints the words of
    its text, each once and in their order. *)
Lemma print_block_words fuel string start_col indent :
  fits MAX_COLUMNS (start_col `min` indent) 0 string = true →
  2 * length string + 2 ≤ fuel →
  ∃ out, print_block MAX_COLUMNS fuel string start_col indent = Some out ∧
         words out = words string.
Proof.
  intros Hfit Hfuel.
  assert (fitting MAX_COLUMNS (if bool_decide (indent < start_col) then indent else start_col)
            {| text := string; col := start_col; linebreak_encountered := false;
               indentation := 0 |}) as Hfitting.
  { replace (if bool_decide (indent < start_col) then indent else start_col)
      with (start_col `min` indent) by (case_bool_decide; lia). by split. }
  destruct (block_trace_fitting_total _ fuel _ Hfitting Hfuel) as [t Ht].
  exists (written t ++ newline). rw /print_block Ht /=. split; [done|].
  by apply (block_trace_words _ _ _ _ _ Ht), (block_trace_fitting _ _ _ _ Ht).
Qed.
End Fits.

(** ** An iteration sees the text up to the next line feed *)

Section Locality.
Context (MAX_COLUMNS : nat).
Implicit Types (c : cursor) (s : str) (t : list (event * str)).

Local Abbreviation W := (MAX_LINE_LENGTH MAX_COLUMNS).
Local Abbreviation LF := ("010"%char).

Lemma next_word_len_loop_app ig i A B :
  line_end B → (A = [] → i ≠ 0) →
  next_word_len_loop ig i (A ++ B) = next_word_len_loop ig i A.
Proof.
  intros HB. revert ig i. induction A as [|y A IH]; intros ig i Hi; simpl.
  - destruct B as [|x B]; [done|]. simpl in HB. subst x. simpl.
    case_bool_decide; [by destruct Hi|done].
  - case_bool_decide; [destruct ig; [done|by apply IH]|].
    case_bool_decide; [done|]. by apply IH.
Qed.

(** A word is found in the text up to the next line feed. *)
Lemma next_word_len_app A B :
  line_end B → A ≠ [] → next_word_len (A ++ B) = next_word_len A.
Proof. intros HB HA. by apply next_word_len_loop_app. Qed.

Lemma startswith_app A B : line_end B → startswith " " (A ++ B) = startswith " " A.
Proof.
  intros HB. destruct A as [|y A]; [|done]. destruct B as [|x B]; [done|].
  simpl in *. by subst x.
Qed.

Lemma get_indent_loop_app b A B :
  line_end B → get_indent_loop b (A ++ B) = get_indent_loop b A.
Proof.
  intros HB. revert b. induction A as [|y A IH]; intros b; simpl.
  - destruct B as [|x B]; [done|]. simpl in HB. subst x. simpl.
    by rw andb_false_r.
  - by rw startswith_app // !IH.
Qed.

Lemma line_indent_app A B : line_end B → line_indent (A ++ B) = line_indent A.
Proof. intros HB. by rw /line_indent /get_indent startswith_app // get_indent_loop_app. Qed.

Lemma line_start_app sc c pre c1 B :
  line_end B → line_start sc c = (pre, c1) →
  line_start sc (with_text (text c ++ B) c) = (pre, with_text (text c1 ++ B) c1).
Proof.
  intros HB. rw /line_start /=. case_bool_decide; intros [= <- <-]; [|done].
  by rw /with_text /= startswith_app // /get_indent get_indent_loop_app.
Qed.

(** An iteration is the same when there is more text after a line
    feed, as long as no word is split beyond the width. *)
Lemma step_app sc c e out c' B :
  line_end B → room MAX_COLUMNS sc c → step MAX_COLUMNS sc c e out c' →
  step MAX_COLUMNS sc (with_text (text c ++ B) c) e out (with_text (text c' ++ B) c').
Proof.
  intros HB Hroom Hs.
  destruct Hs as [c rest Ht|c rest Hc0 Hlb Ht|c x rest n pre c1 Ht Hx Hxs -> Hls Hfit
                 |c x rest n pre c1 Ht Hx Hxs -> Hls Hfit Hat
                 |c x rest n pre c1 Ht Hx Hxs -> Hls Hfit Hat]; rw /with_text /=.
  - apply (step_break _ _ (with_text (text c ++ B) c)). by rw /= Ht.
  - apply (step_drop _ _ (with_text (text c ++ B) c)); [done..|]. by rw /= Ht.
  - pose proof (next_word_len_le (text c)) as Hle.
    pose proof (line_start_app _ _ _ _ B HB Hls) as Hls'.
    assert (next_word_len (text c ++ B) = next_word_len (text c)) as Hn.
    { apply next_word_len_app; [done|by rw Ht]. }
    pose proof (step_word MAX_COLUMNS sc (with_text (text c ++ B) c) x (rest ++ B) _ pre _
                  ltac:(by rw /= Ht) Hx Hxs eq_refl Hls') as H.
    rw /= Hn take_app_le // drop_app_le // in H. by apply H.
  - pose proof (next_word_len_le (text c)) as Hle.
    pose proof (line_start_app _ _ _ _ B HB Hls) as Hls'.
    destruct (line_start_room _ _ _ _ _ Hroom Hls) as [_ Hc1].
    assert (next_word_len (text c ++ B) = next_word_len (text c)) as Hn.
    { apply next_word_len_app; [done|by rw Ht]. }
    pose proof (step_split MAX_COLUMNS sc (with_text (text c ++ B) c) x (rest ++ B) _ pre _
                  ltac:(by rw /= Ht) Hx Hxs eq_refl Hls') as H.
    rw /= Hn /slice_to /slice_from in H.
    rw /slice_to /slice_from. rw !bool_decide_true in H |- *; [lia..|].
    rw take_app_le in H; [lia|]. rw drop_app_le in H; [lia|]. by apply H.
  - pose proof (line_start_app _ _ _ _ B HB Hls) as Hls'.
    assert (next_word_len (text c ++ B) = next_word_len (text c)) as Hn.
    { apply next_word_len_app; [done|by rw Ht]. }
    pose proof (step_wrap MAX_COLUMNS sc (with_text (text c ++ B) c) x (rest ++ B) _ pre _
                  ltac:(by rw /= Ht) Hx Hxs eq_refl Hls') as H.
    rw /= Hn in H. by apply H.
Qed.
End Locality.

Section Locality2.
Context (MAX_COLUMNS : nat).
Implicit Types (c : cursor) (s : str) (t : list (event * str)).

Local Abbreviation W := (MAX_LINE_LENGTH MAX_COLUMNS).
Local Abbreviation LF := ("010"%char).

(** The relation has the iteration of the loop and nothing else. *)
Lemma step_iteration sc c e out c' :
  step MAX_COLUMNS sc c e out c' → iteration MAX_COLUMNS sc c = Some (e, out, c').
Proof.
  intros Hs.
  assert (text c ≠ []) as Hne by (destruct Hs; congruence).
  destruct (iteration_is_Some MAX_COLUMNS sc c Hne) as (e2 & out2 & c2 & Hit).
  rw Hit. apply iteration_step in Hit.
  destruct Hs; inversion Hit; subst;
    repeat match goal with
    | H1 : text ?c = _, H2 : text ?c = _ |- _ => rw H1 in H2; inversion H2; clear H2; subst
    | H1 : line_start _ ?c = _, H2 : line_start _ ?c = _ |- _ =>
        rw H1 in H2; inversion H2; clear H2; subst
    end; try done; try lia; try tauto;
    try (exfalso; match goal with
         | H : col ?c = 0 → _ = _ → linebreak_encountered ?c = true,
           H0 : col ?c = 0, H1 : linebreak_encountered ?c = false |- _ =>
             specialize (H H0 eq_refl); congruence
         end).
Qed.
End Locality2.

(** ** Iterations one after another *)

Section Runs.
Context (MAX_COLUMNS : nat).
Implicit Types (c : cursor) (s : str) (t : list (event * str)).

Local Abbreviation W := (MAX_LINE_LENGTH MAX_COLUMNS).
Local Abbreviation LF := ("010"%char).

Lemma block_trace_runs sc fuel c t :
  block_trace MAX_COLUMNS fuel sc c = Some t →
  ∃ c', runs MAX_COLUMNS sc c t c' ∧ text c' = [].
Proof.
  revert fuel c t. apply (block_trace_ind MAX_COLUMNS sc
    (λ c t, ∃ c', runs MAX_COLUMNS sc c t c' ∧ text c' = [])).
  - intros c Ht. exists c. split; [constructor|done].
  - intros c e out c1 t Hs (c' & Hr & Ht). exists c'. split; [|done].
    by econstructor.
Qed.

Lemma runs_trans sc c t c1 t' c' :
  runs MAX_COLUMNS sc c t c1 → runs MAX_COLUMNS sc c1 t' c' →
  runs MAX_COLUMNS sc c (t ++ t') c'.
Proof.
  induction 1 as [|c e out c2 t c1 Hs Hr IH]; [done|]. intros H. simpl.
  econstructor; [done|]. by apply IH.
Qed.

(** The iterations over a text are the first ones over a longer text. *)
Lemma runs_prefix sc c t c' fuel T :
  runs MAX_COLUMNS sc c t c' → block_trace MAX_COLUMNS fuel sc c = Some T →
  ∃ t', T = t ++ t'.
Proof.
  intros Hr. revert fuel T. induction Hr as [|c e out c1 t c' Hs Hr IH]; intros fuel T.
  { by exists T. }
  destruct fuel as [|fuel]; [done|]. simpl. rw (step_iteration _ _ _ _ _ _ Hs).
  destruct (block_trace _ fuel sc c1) as [T1|] eqn:E; [|done]. intros [= <-].
  destruct (IH _ _ E) as [t' ->]. by exists t'.
Qed.

Lemma with_text_text c : with_text (text c) c = c.
Proof. by destruct c. Qed.

Lemma runs_app sc c t c' B :
  line_end B → room MAX_COLUMNS sc c → runs MAX_COLUMNS sc c t c' →
  runs MAX_COLUMNS sc (with_text (text c ++ B) c) t (with_text (text c' ++ B) c').
Proof.
  intros HB Hroom Hr. induction Hr as [|c e out c1 t c' Hs Hr IH]; [constructor|].
  destruct (step_room _ _ _ _ _ _ Hroom Hs) as [Hroom1 _].
  econstructor; [by apply step_app|by apply IH].
Qed.

Lemma roomy_app_r sc A B :
  roomy MAX_COLUMNS sc (A ++ B) = true → roomy MAX_COLUMNS sc B = true.
Proof. intros H. apply (roomy_drop _ _ (length A)) in H. by rw drop_app_length in H. Qed.

Lemma roomy_app_l sc A B :
  line_end B → roomy MAX_COLUMNS sc (A ++ B) = true → roomy MAX_COLUMNS sc A = true.
Proof.
  intros HB. induction A as [|x A IH]; [done|]. simpl.
  intros [H1 H2]%andb_prop. rw IH // andb_true_r.
  case_bool_decide; [|done]. by rw line_indent_app in H1.
Qed.

Lemma room_app_l sc c A B :
  line_end B → room MAX_COLUMNS sc (with_text (A ++ B) c) → room MAX_COLUMNS sc (with_text A c).
Proof.
  intros HB (Hf & Hi & Hc & Hr & Hl). rw /room /=. simpl in *.
  split; [done|]. split; [done|]. split; [done|].
  split; [by eapply roomy_app_l|]. intros Hlb. rw -(line_indent_app A B) //. by apply Hl.
Qed.
End Runs.

(** ** The lines of a text *)

Section Lines.
Context (MAX_COLUMNS : nat).
Implicit Types (c : cursor) (s : str) (t : list (event * str)).

Local Abbreviation W := (MAX_LINE_LENGTH MAX_COLUMNS).
Local Abbreviation LF := ("010"%char).

Lemma room_after_break sc L Q :
  line_end Q → roomy MAX_COLUMNS sc (LF :: L ++ Q) = true → sc < W →
  room MAX_COLUMNS sc (after_break L).
Proof.
  intros HQ Hr Hsc. simpl in Hr. apply andb_prop in Hr as [H1%bool_decide_eq_true H2].
  rw line_indent_app // in H1. rw /room /flag_ok /=.
  split; [done|]. split; [lia|]. split; [lia|]. split; [by eapply roomy_app_l|done].
Qed.

(** The iterations over a text with a line feed in it: those over what
    is before the line feed, the line feed, those over the line [L]
    after it, and the rest. *)
Lemma block_trace_line sc fuel c P L Q :
  text c = P ++ LF :: L ++ Q → line_end Q → room MAX_COLUMNS sc c →
  2 * length (text c) + 2 ≤ fuel →
  room MAX_COLUMNS sc (after_break L) ∧
  ∃ tP tL tQ,
    block_trace MAX_COLUMNS fuel sc (with_text P c) = Some tP ∧
    block_trace MAX_COLUMNS fuel sc (after_break L) = Some tL ∧
    block_trace MAX_COLUMNS fuel sc c = Some (tP ++ (LineBreak, newline) :: tL ++ tQ).
Proof.
  intros Ht HQ Hroom Hfuel.
  assert (length (text c) = length P + S (length L + length Q)) as Hlen.
  { by rw Ht length_app /= length_app. }
  assert (room MAX_COLUMNS sc (with_text P c)) as HroomP.
  { apply (room_app_l _ _ _ _ (LF :: L ++ Q)); [done|]. by rw -Ht with_text_text. }
  assert (room MAX_COLUMNS sc (after_break L)) as HroomL.
  { apply (room_after_break _ _ Q); [done| |].
    - destruct Hroom as (_ & _ & _ & Hr & _). rw Ht in Hr. by apply roomy_app_r in Hr.
    - destruct Hroom as (_ & Hi & _). lia. }
  destruct (block_trace_room_total _ sc fuel _ HroomP) as [tP HtP]; [simpl; lia|].
  destruct (block_trace_room_total _ sc fuel _ HroomL) as [tL HtL]; [simpl; lia|].
  destruct (block_trace_room_total _ sc fuel _ Hroom) as [T HT]; [lia|].
  destruct (block_trace_runs _ _ _ _ _ HtP) as (cP & HrP & HcP).
  destruct (block_trace_runs _ _ _ _ _ HtL) as (cL & HrL & HcL).
  apply (runs_app _ _ _ _ _ (LF :: L ++ Q)) in HrP; [|done..].
  apply (runs_app _ _ _ _ _ Q) in HrL; [|done..].
  rw /with_text /= HcP /= in HrP. rw -Ht in HrP.
  replace {| text := text c; col := col c;
             linebreak_encountered := linebreak_encountered c;
             indentation := indentation c |} with c in HrP by (by destruct c).
  assert (runs MAX_COLUMNS sc c (tP ++ (LineBreak, newline) :: tL) (with_text (text cL ++ Q) cL))
    as Hr.
  { eapply runs_trans; [done|]. econstructor; [|exact HrL].
    by eapply (step_break _ _ _ (L ++ Q)). }
  destruct (runs_prefix _ _ _ _ _ _ _ Hr HT) as [tQ ->].
  split; [done|]. exists tP, tL, tQ. by rw -assoc in HT.
Qed.

Lemma indented_after_app k a s :
  LF ∉ a → indented_after k (a ++ s) ↔ indented_after k s.
Proof.
  induction a as [|x a IH]; [done|]. intros [Hx Ha]%not_elem_of_cons. simpl.
  rw IH //. split; [by intros [_ ?]|]. intros H. split; [|done]. by intros ->.
Qed.

Lemma indented_after_newline k s :
  indented_after k (newline ++ s) ↔ (take k s = spaces k ∧ indented_after k s).
Proof. simpl. split; intros [H ?]; (split; [|done]); [by apply H|done]. Qed.

Lemma not_elem_of_take_all (y : ascii) k s : y ∉ s → y ∉ take k s.
Proof. rw -{1}(take_drop k s) not_elem_of_app. by intros [? _]. Qed.

Lemma not_elem_of_drop_all (y : ascii) k s : y ∉ s → y ∉ drop k s.
Proof. rw -{1}(take_drop k s) not_elem_of_app. by intros [_ ?]. Qed.

Lemma take_spaces k s : take k (spaces k ++ s) = spaces k.
Proof. rw take_app_length' //. by rw length_replicate. Qed.

(** Every line that the loop starts within a line of the text begins at
    the indentation of that line. *)
Lemma block_trace_indented sc k fuel c t :
  block_trace MAX_COLUMNS fuel sc c = Some t → carries k c → room MAX_COLUMNS sc c →
  indented_after (sc + k) (written t) ∧
  (col c = 0 → linebreak_encountered c = false → text c ≠ [] →
   take (sc + k) (written t) = spaces (sc + k)).
Proof.
  revert fuel c t. apply (block_trace_ind MAX_COLUMNS sc
    (λ c t, carries k c → room MAX_COLUMNS sc c →
       indented_after (sc + k) (written t) ∧
       (col c = 0 → linebreak_encountered c = false → text c ≠ [] →
        take (sc + k) (written t) = spaces (sc + k)))).
  { intros c Ht _ _. split; [done|]. by intros _ _ []. }
  intros c e out c' t Hs IH [Hlf Hk] Hroom.
  destruct (step_room _ _ _ _ _ _ Hroom Hs) as [Hroom' _].
  pose proof Hroom as (Hf & _). rw written_cons.
  assert (∀ pre c1, line_start sc c = (pre, c1) →
            indentation c1 = k ∧ linebreak_encountered c1 = false ∧ (LF ∉ pre) ∧
            (col c = 0 → linebreak_encountered c = false → pre = spaces (sc + k))) as Hstart.
  { intros pre c1 Hls. rw (line_start_indentation _ _ _ _ Hf Hls).
    rw (line_start_flag _ _ _ _ Hf Hls). split; [done|]. split; [done|]. split.
    - destruct (line_start_pre _ _ _ _ Hls) as (j & -> & _). apply not_elem_of_spaces.
    - intros Hc Hlb. revert Hls. rw /line_start bool_decide_true //.
      intros [= <- _]. rw Hlb in Hk. by rw Hk /spaces replicate_add. }
  destruct Hs as [c rest Ht|c rest Hc0 Hlb Ht|c x rest n pre c1 Ht Hx Hxs -> Hls Hfit
                 |c x rest n pre c1 Ht Hx Hxs -> Hls Hfit Hat
                 |c x rest n pre c1 Ht Hx Hxs -> Hls Hfit Hat].
  - exfalso. apply Hlf. rw Ht. by left.
  - rw Hlb in Hk. rw Hk -replicate_add.
    destruct IH as [IH1 IH2]; [|done|].
    { split; simpl; [|done]. rw Ht in Hlf. by apply not_elem_of_cons in Hlf as [_ ?]. }
    split.
    + apply indented_after_app; [apply not_elem_of_spaces|done].
    + intros _ _ _. rw take_app_length' //. by rw length_replicate.
  - destruct (Hstart _ _ Hls) as (Hi1 & Hlb1 & Hpre & Hpre0).
    destruct IH as [IH1 IH2]; [|done|].
    { split; simpl; [by apply not_elem_of_drop_all|]. by rw Hlb1. }
    split.
    + apply indented_after_app; [|done]. rw not_elem_of_app. split; [done|].
      by apply not_elem_of_take_all.
    + intros Hc Hlb _. rw (Hpre0 Hc Hlb) -assoc. apply take_spaces.
  - destruct (Hstart _ _ Hls) as (Hi1 & Hlb1 & Hpre & Hpre0).
    destruct (line_start_room _ _ _ _ _ Hroom Hls) as [_ Hc1].
    pose proof (next_word_len_le (text c)) as Hle.
    assert (slice_from (Z.of_nat W - Z.of_nat (col c1)) (text c) ≠ []) as Hne.
    { rw /slice_from bool_decide_true; [lia|]. intros H%(f_equal length).
      rw length_drop /= in H. lia. }
    assert (LF ∉ slice_to (Z.of_nat W - Z.of_nat (col c1)) (text c)) as Hsl.
    { rw /slice_to bool_decide_true; [lia|]. by apply not_elem_of_take_all. }
    destruct IH as [IH1 IH2]; [|done|].
    { split; simpl; [|by rw Hlb1].
      rw /slice_from bool_decide_true; [lia|]. by apply not_elem_of_drop_all. }
    split.
    + rw -assoc. apply indented_after_app; [done|]. rw -assoc.
      apply indented_after_app; [done|]. apply indented_after_newline.
      split; [|done]. by apply IH2.
    + intros Hc Hlb _. rw (Hpre0 Hc Hlb) -assoc. apply take_spaces.
  - destruct (Hstart _ _ Hls) as (Hi1 & Hlb1 & Hpre & Hpre0).
    destruct IH as [IH1 IH2]; [|done|].
    { split; simpl; [done|by rw Hlb1]. }
    split.
    + rw -assoc. apply indented_after_app; [done|]. apply indented_after_newline.
      split; [|done]. apply IH2; [done..|]. by rw /= Ht.
    + intros Hc Hlb _. rw (Hpre0 Hc Hlb) -assoc. apply take_spaces.
Qed.
End Lines.

(** ** The blocks of the help *)

Section Help.
Context {St : Type} (MAX_COLUMNS : nat).
Implicit Types (cmd : @Command St) (c : cursor) (s : str) (t : list (event * str)).

Local Abbreviation W := (MAX_LINE_LENGTH MAX_COLUMNS).
Local Abbreviation M := (MIN_DESCRIPTION_WIDTH MAX_COLUMNS).
Local Abbreviation LF := ("010"%char).

Lemma MIN_DESCRIPTION_WIDTH_pos : 2 ≤ W → 0 < M.
Proof.
  intros H. rw /MIN_DESCRIPTION_WIDTH.
  apply (Nat.div_le_lower_bound _ 1618 1); lia.
Qed.

Lemma written_app t t' : written (t ++ t') = written t ++ written t'.
Proof. by rw /written fmap_app concat_app. Qed.

(** A text that ends a line, and a text after it. *)
Lemma within_app_line width col a b :
  last a = Some LF → within width col a → within width 0 b → within width col (a ++ b).
Proof.
  revert col. induction a as [|x a IH]; intros col; [done|].
  destruct a as [|y a].
  - simpl. intros [= ->]. rw bool_decide_true //. by intros [? _] ?.
  - intros Hl. simpl in Hl. change ((x :: y :: a) ++ b) with (x :: (y :: a) ++ b).
    cbn [within]. case_bool_decide.
    + intros [? Hw] Hb. split; [done|]. by apply IH.
    + intros Hw Hb. by apply IH.
Qed.

Lemma print_block_last fuel string start_col indent out :
  print_block MAX_COLUMNS fuel string start_col indent = Some out → last out = Some LF.
Proof.
  rw /print_block. destruct (block_trace _ _ _ _) as [t|]; [|done].
  intros [= <-]. by rw last_snoc.
Qed.

Lemma print_option_within fuel longest o :
  longest < W → entry_ok MAX_COLUMNS longest o = true → 2 * length o.2 + 2 ≤ fuel →
  ∃ out, print_option MAX_COLUMNS fuel longest o = Some out ∧
         within W 0 out ∧ last out = Some LF.
Proof.
  intros Hl [[Hlf%bool_decide_eq_true Hlen%bool_decide_eq_true]%andb_prop Hr]%andb_prop Hfuel.
  rw /print_option.
  set (usage_string := o.1 ++ spaces (longest - length o.1)).
  assert (length usage_string = length o.1 `max` longest) as Hus.
  { rw /usage_string length_app length_replicate. lia. }
  destruct (print_block_within MAX_COLUMNS fuel o.2 (length usage_string) longest)
    as (block & Hb & Hw); [lia|lia| |done|].
  { replace (length usage_string `min` longest) with longest by lia. done. }
  rw Hb /=. eexists. split; [done|]. split.
  - apply within_app; [|done].
    rw /usage_string not_elem_of_app. split; [done|apply not_elem_of_spaces].
  - rw last_app (print_block_last _ _ _ _ _ Hb) //.
Qed.

Lemma print_options_within fuel longest us :
  longest < W → Forall (λ o, entry_ok MAX_COLUMNS longest o = true) us →
  Forall (λ o, 2 * length o.2 + 2 ≤ fuel) us →
  ∃ out, print_options MAX_COLUMNS fuel longest us = Some out ∧ within W 0 out.
Proof.
  intros Hl. induction us as [|o us IH]; intros Hok Hfuel; simpl.
  { exists []. split; [done|]. simpl. lia. }
  apply Forall_cons in Hok as [Ho Hok]. apply Forall_cons in Hfuel as [Hfo Hfuel].
  destruct (print_option_within fuel longest o Hl Ho Hfo) as (out & -> & Hw & Hlast).
  destruct (IH Hok Hfuel) as (out' & -> & Hw'). simpl.
  eexists. split; [done|]. by apply within_app_line.
Qed.
End Help.

Section Help2.
Context {St : Type} (MAX_COLUMNS : nat).
Implicit Types (cmd : @Command St) (c : cursor) (s : str) (t : list (event * str)).

Local Abbreviation W := (MAX_LINE_LENGTH MAX_COLUMNS).
Local Abbreviation M := (MIN_DESCRIPTION_WIDTH MAX_COLUMNS).
Local Abbreviation LF := ("010"%char).

Lemma print_manual_within fuel cmd :
  (if truthy (manual cmd) then roomy MAX_COLUMNS 0 (newline ++ default [] (manual cmd))
   else true) = true →
  2 * S (length (default [] (manual cmd))) + 2 ≤ fuel →
  ∃ block, print_manual MAX_COLUMNS fuel cmd = Some block ∧ within W 0 block ∧
           (block = [] ∨ last block = Some LF).
Proof.
  intros Hr Hfuel. rw /print_manual. destruct (truthy (manual cmd)).
  - destruct (print_block_within MAX_COLUMNS fuel (newline ++ default [] (manual cmd)) 0 0)
      as (block & Hb & Hw); [lia| |done|done|].
    { simpl in Hr. apply andb_prop in Hr as [H%bool_decide_eq_true _]. lia. }
    exists block. split; [done|]. split; [done|]. right. by eapply print_block_last.
  - exists []. split; [done|]. split; [simpl; lia|by left].
Qed.

Lemma description_column_lt us longest :
  2 ≤ W → description_column MAX_COLUMNS us = Some longest → longest < W.
Proof.
  intros HW Hd. assert (us ≠ []) as Hne by (by intros ->).
  rw (description_column_value MAX_COLUMNS us Hne) in Hd. injection Hd as <-.
  pose proof (MIN_DESCRIPTION_WIDTH_pos MAX_COLUMNS HW). lia.
Qed.

(** The entry of an option whose description has a line feed in it. *)
Lemma print_option_line fuel longest u d P L Q :
  longest < W → entry_ok MAX_COLUMNS longest (u, d) = true → 2 * length d + 2 ≤ fuel →
  d = P ++ LF :: L ++ Q → LF ∉ L → line_end Q →
  ∃ tP tL outQ,
    block_trace MAX_COLUMNS fuel longest
      {| text := P; col := length u `max` longest; linebreak_encountered := false;
         indentation := 0 |} = Some tP ∧
    block_trace MAX_COLUMNS fuel longest (after_break L) = Some tL ∧
    print_option MAX_COLUMNS fuel longest (u, d) =
      Some (u ++ spaces (longest - length u) ++
            written tP ++ newline ++ written tL ++ outQ) ∧
    indented_after (longest + line_indent L) (written tL).
Proof.
  intros Hl [[Hlf%bool_decide_eq_true Hlen%bool_decide_eq_true]%andb_prop Hr]%andb_prop
    Hfuel Hd HL HQ. cbn [fst snd] in *.
  rw /print_option /print_block. cbn [fst snd].
  set (usage_string := u ++ spaces (longest - length u)).
  assert (length usage_string = length u `max` longest) as Hus.
  { rw /usage_string length_app length_replicate. lia. }
  pose proof (room_initial MAX_COLUMNS d (length usage_string) longest) as Hroom.
  replace (if bool_decide (longest < length usage_string) then longest
           else length usage_string) with longest in * by (case_bool_decide; lia).
  replace (length usage_string `min` longest) with longest in Hroom by lia.
  specialize (Hroom ltac:(lia) Hl Hr).
  destruct (block_trace_line MAX_COLUMNS longest fuel _ P L Q
              (Hd : text {| text := d; col := length usage_string;
                            linebreak_encountered := false; indentation := 0 |} = _)
              HQ Hroom Hfuel)
    as (HroomL & tP & tL & tQ & HtP & HtL & HT).
  rw /with_text /= Hus in HtP. rw HT /=.
  exists tP, tL, (written tQ ++ newline). split; [done|]. split; [done|]. split.
  - by rw written_app written_cons written_app -!assoc.
  - by apply (block_trace_indented MAX_COLUMNS longest (line_indent L) fuel _ _ HtL).
Qed.
End Help2.
Section Claims.
Context {St : Type}.
Implicit Types (σ τ : @session St) (cmd : @Command St) (o : @Option St).

(** C4: when the scan of [parse] comes to an element that is exactly
    ["--"], every element after it is appended to the operands in order,
    whatever it looks like, no handler is called, and [parse] returns
    [False]; in particular [prog -- -x file] yields the operands
    [-x] and [file]. *)
Theorem end_of_options_marker cmd (h : heap) (w : St) a :
  (∀ l n σ l',
     h !! a = Some l →
     steps n cmd (initial h w (fresh (dom h)) l) = Some σ →
     wf σ l' → current σ = Some (lit "--") →
     parse cmd h w a = Some
       {| returned := Some false; stderr := [];
          final :=
            {| operands := operands σ ++ drop (S (argv_index σ)) l';
               argv := argv σ; argc := argc σ; argv_index := argc σ;
               store := store σ; world := world σ; calls := calls σ |} |}) ∧
  (∀ prog,
     h !! a = Some [prog; lit "--"; lit "-x"; lit "file"] →
     ∃ p, parse cmd h w a = Some p ∧ returned p = Some false ∧
          operands (final p) = [lit "-x"; lit "file"] ∧
          calls (final p) = [] ∧ world (final p) = w).
Proof.
  assert (∀ l n σ l',
     h !! a = Some l →
     steps n cmd (initial h w (fresh (dom h)) l) = Some σ →
     wf σ l' → current σ = Some (lit "--") →
     parse cmd h w a = Some
       {| returned := Some false; stderr := [];
          final :=
            {| operands := operands σ ++ drop (S (argv_index σ)) l';
               argv := argv σ; argc := argc σ; argv_index := argc σ;
               store := store σ; world := world σ; calls := calls σ |} |}) as Hgen.
  { intros l n σ l' Hl Hn Hwf Hc. rw (parse_from _ _ _ _ _ _ _ Hl Hn) /=.
    by rw (_parse_end _ _ _ Hwf Hc). }
  split; [done|]. intros prog Hl. eexists. split.
  { eapply (Hgen _ 0); [done|done|apply wf_initial|].
    by rw /current /getitem /= lookup_insert_eq. }
  done.
Qed.

(** C5: when the scan of [parse] comes to a long option whose name, or
    to a short option whose character, is not registered, [parse] returns
    [True] and writes [Unknown option: ...] to [sys.stderr], and the
    session is the one the scan had reached: the operands of the elements
    before, and no handler called for this one. *)
Theorem unknown_option_fails cmd (h : heap) (w : St) a l n σ l' :
  h !! a = Some l →
  steps n cmd (initial h w (fresh (dom h)) l) = Some σ →
  wf σ l' →
  (∀ body,
     body ≠ [] → current σ = Some (lit "--" ++ body) →
     lookup_long (split_long body).1 (options cmd) = None →
     ∃ p, parse cmd h w a = Some p ∧ returned p = Some true ∧
       stderr p = lit "Unknown option: --" ++ (split_long body).1 ++ newline ∧
       stderr p ≠ [] ∧ final p = σ) ∧
  (∀ c r,
     c ≠ "-"%char → current σ = Some (lit "-" ++ c :: r) →
     lookup_short c (options cmd) = None →
     ∃ p, parse cmd h w a = Some p ∧ returned p = Some true ∧
       stderr p = lit "Unknown option: -" ++ [c] ++ newline ∧
       stderr p ≠ [] ∧ final p = σ).
Proof.
  intros Hl Hn Hwf. split.
  - intros body Hne Hc Hlook.
    pose proof (_parse_long cmd _ _ _ Hwf Hc Hne) as Hp. rw /long_option in Hp.
    change (drop 2 (lit "--" ++ body)) with body in Hp.
    destruct (split_long body) as [long oarg]. simpl in Hlook. rw Hlook in Hp.
    eexists. split.
    { rw (parse_from _ _ _ _ _ _ _ Hl Hn) /= Hp. reflexivity. }
    done.
  - intros c r Hne Hc Hlook. eexists. split.
    { rw (parse_from _ _ _ _ _ _ _ Hl Hn) /=.
      rw (_parse_short _ _ _ _ _ Hwf Hc Hne) /short_option Hlook. reflexivity. }
    done.
Qed.

(** C1: for an option with an optional argument, the element [--opt]
    calls the handler with [None], the element [--opt=] calls it with the
    empty string, and so does every attached value with that value; the
    short form [-o] calls the handler with [None] and [-oV] with [V].  In
    each case the scan moves on by one element: the element that follows
    is never taken as the argument. *)
Theorem optional_argument_never_separate cmd σ l o f :
  wf σ l → optional o = true → callback o = Some f →
  (∀ long,
     long ≠ [] → "="%char ∉ long → lookup_long long (options cmd) = Some o →
     (current σ = Some (lit "--" ++ long) →
        _parse cmd σ = invoked o f (Call1 None) σ advance) ∧
     (current σ = Some (lit "--" ++ long ++ lit "=") →
        _parse cmd σ = invoked o f (Call1 (Some [])) σ advance) ∧
     (∀ v, current σ = Some (lit "--" ++ long ++ lit "=" ++ v) →
        _parse cmd σ = invoked o f (Call1 (Some v)) σ advance)) ∧
  (∀ c,
     c ≠ "-"%char → lookup_short c (options cmd) = Some o →
     (current σ = Some (lit "-" ++ [c]) →
        _parse cmd σ = invoked o f (Call1 None) σ advance) ∧
     (∀ v, v ≠ [] → current σ = Some (lit "-" ++ c :: v) →
        _parse cmd σ = invoked o f (Call1 (Some v)) σ advance)).
Proof.
  intros Hwf [Ht Hb]%optional_truthy Hf. split.
  - intros long Hne Heq Hlook.
    assert (∀ v, current σ = Some (lit "--" ++ long ++ lit "=" ++ v) →
        _parse cmd σ = invoked o f (Call1 (Some v)) σ advance) as Hv.
    { intros v Hc. rw (_parse_long _ _ _ _ Hwf Hc); [by destruct long|].
      rw /long_option. change (drop 2 (lit "--" ++ ?b)) with b.
      rw split_long_attached // Hlook Ht /=.
      by rw (run_callback_invoked _ f) // Ht. }
    split; [|split; [|done]].
    + intros Hc. rw (_parse_long _ _ _ _ Hwf Hc) // /long_option.
      change (drop 2 (lit "--" ++ ?b)) with b.
      rw split_long_plain // Hlook Ht Hb /=.
      by rw (run_callback_invoked _ f) // Ht.
    + apply (Hv []).
  - intros c Hne Hlook. split.
    + intros Hc. rw (_parse_short _ _ _ _ _ Hwf Hc) // /short_option Hlook Ht Hb /=.
      by rw (run_callback_invoked _ f) // Ht.
    + intros [|x v] Hv Hc; [done|].
      rw (_parse_short _ _ _ _ _ Hwf Hc) // /short_option Hlook Ht /=.
      by rw (run_callback_invoked _ f) // Ht.
Qed.

(** C2: where the scan comes to the cluster [-abc] followed by [X], with
    [a] and [b] short options without argument and [c] one with a
    mandatory argument, it goes on like the scan of [-a -b -c X] in
    its place: same calls of handlers in the same order and with the same
    arguments, same operands, same value returned and same message.  This
    holds from any two sessions that agree, and so for [parse] on two
    argument lists that differ in this place only, after operands. *)
Theorem cluster_like_separate_options cmd a b c X oa ob oc :
  lookup_short a (options cmd) = Some oa → truthy (arg oa) = false →
  lookup_short b (options cmd) = Some ob → truthy (arg ob) = false →
  lookup_short c (options cmd) = Some oc → mandatory oc = true →
  a ≠ "-"%char → b ≠ "-"%char → c ≠ "-"%char →
  (∀ σ τ l1 l2 post,
     agree σ τ → wf σ l1 → wf τ l2 →
     drop (argv_index σ) l1 = (lit "-" ++ [a; b; c]) :: X :: post →
     drop (argv_index τ) l2 =
       (lit "-" ++ [a]) :: (lit "-" ++ [b]) :: (lit "-" ++ [c]) :: X :: post →
     option_Forall2 (related agree) (run cmd σ) (run cmd τ)) ∧
  (∀ (h : heap) (w : St) a1 a2 prog pre post,
     Forall plain pre →
     h !! a1 = Some (prog :: pre ++ (lit "-" ++ [a; b; c]) :: X :: post) →
     h !! a2 = Some (prog :: pre ++
                 (lit "-" ++ [a]) :: (lit "-" ++ [b]) :: (lit "-" ++ [c]) :: X :: post) →
     ∃ p1 p2 r,
       parse cmd h w a1 = Some p1 ∧ parse cmd h w a2 = Some p2 ∧
       returned p1 = Some r ∧ returned p2 = Some r ∧ stderr p1 = stderr p2 ∧
       operands (final p1) = operands (final p2) ∧
       calls (final p1) = calls (final p2) ∧
       world (final p1) = world (final p2)).
Proof.
  intros Ha Hna Hb Hnb Hc Hmc Hda Hdb Hdc.
  assert (∀ σ τ l1 l2 post,
     agree σ τ → wf σ l1 → wf τ l2 →
     drop (argv_index σ) l1 = (lit "-" ++ [a; b; c]) :: X :: post →
     drop (argv_index τ) l2 =
       (lit "-" ++ [a]) :: (lit "-" ++ [b]) :: (lit "-" ++ [c]) :: X :: post →
     option_Forall2 (related agree) (run cmd σ) (run cmd τ)) as Hgen.
  { intros σ τ l1 l2 post Hag H1 H2 Hd1 Hd2.
    eapply (cluster_run cmd [b; c] a); [done..|]. simpl. eauto 10. }
  split; [done|]. intros h w a1 a2 prog pre post Hpre Hl1 Hl2.
  destruct (parse_total cmd h w a1 _ Hl1) as (p1 & r & Hp1 & Hr1).
  destruct (parse_total cmd h w a2 _ Hl2) as (p2 & r' & Hp2 & Hr2).
  pose proof (steps_plain cmd pre _ _ ((lit "-" ++ [a; b; c]) :: X :: post)
                (wf_initial h w (prog :: pre ++ _)) eq_refl Hpre) as Hs1.
  pose proof (steps_plain cmd pre _ _
                ((lit "-" ++ [a]) :: (lit "-" ++ [b]) :: (lit "-" ++ [c]) :: X :: post)
                (wf_initial h w (prog :: pre ++ _)) eq_refl Hpre) as Hs2.
  rw (parse_run _ _ _ _ _ _ _ Hl1 Hs1) in Hp1 |- *.
  rw (parse_run _ _ _ _ _ _ _ Hl2 Hs2) in Hp2 |- *.
  match type of Hs1 with steps _ _ ?s1 = Some ?t1 =>
    match type of Hs2 with steps _ _ ?s2 = Some ?t2 =>
      assert (option_Forall2 (related agree) (run cmd t1) (run cmd t2)) as Hrel
    end
  end.
  { eapply Hgen; [done|apply (wf_initial h w)|apply (wf_initial h w)|..];
      by rw /= drop_app_length. }
  destruct Hrel as [r1 r2 Hrel|]; [|done]. simpl in Hp1, Hp2. simplify_eq.
  apply report_related in Hrel as (Hret & Herr & Ho & Hw & Hcs).
  exists (report r1), (report r2), r. split; [done|]. split; [done|].
  split; [done|]. split; [congruence|done].
Qed.

(** C10: [parse] leaves the caller's list as it is: the scan works on a
    copy at a fresh location, and the rewriting of a cluster writes to the
    copy only.  Every list of the caller's store is unchanged after
    [parse], whether it returns [True] or [False]. *)
Theorem parse_keeps_caller_argv cmd (h : heap) (w : St) a l :
  h !! a = Some l →
  ∃ p, parse cmd h w a = Some p ∧
    store (final p) !! a = Some l ∧
    ∀ a' l', h !! a' = Some l' → store (final p) !! a' = Some l'.
Proof.
  intros Hl.
  assert (∃ p, parse cmd h w a = Some p ∧
    ∀ a' l', h !! a' = Some l' → store (final p) !! a' = Some l') as (p & Hp & Hall).
  2:{ exists p. eauto. }
  destruct (parse_total cmd h w a _ Hl) as (p & b & Hp & _). exists p. split; [done|].
  rw /parse Hl in Hp. cbv zeta in Hp.
  destruct (scan _ _ _) as [r|] eqn:Hr; [|done]. simpl in Hp. simplify_eq.
  apply scan_frame in Hr as (_ & _ & Hother & _). simpl in Hother.
  intros a' l' Hl'.
  assert (a' ≠ fresh (dom h)) as Hne.
  { intros ->. apply (is_fresh (dom h)). apply elem_of_dom. eauto. }
  replace (final (report r)) with (state_of r) by by destruct r as [|[]].
  by rw Hother // lookup_insert_ne.
Qed.

(** C3, as amended: for an option with a mandatory argument the handler
    is called with the same value [V] whether [V] is attached ([--opt=V],
    or [-oV] for a [V] that is not empty) or is the element that follows
    ([--opt V], [-o V]); the separate forms move the scan on by two
    elements.  An empty [V] cannot be attached to the short form. *)
Theorem mandatory_argument_attached_or_separate cmd σ l o f V :
  wf σ l → mandatory o = true → callback o = Some f →
  (∀ long,
     long ≠ [] → "="%char ∉ long → lookup_long long (options cmd) = Some o →
     (current σ = Some (lit "--" ++ long ++ lit "=" ++ V) →
        _parse cmd σ = invoked o f (Call1 (Some V)) σ advance) ∧
     (current σ = Some (lit "--" ++ long) → l !! S (argv_index σ) = Some V →
        _parse cmd σ = invoked o f (Call1 (Some V)) (advance σ) advance)) ∧
  (∀ c,
     c ≠ "-"%char → lookup_short c (options cmd) = Some o →
     (V ≠ [] → current σ = Some (lit "-" ++ c :: V) →
        _parse cmd σ = invoked o f (Call1 (Some V)) σ advance) ∧
     (current σ = Some (lit "-" ++ [c]) → l !! S (argv_index σ) = Some V →
        _parse cmd σ = invoked o f (Call1 (Some V)) (advance σ) advance)).
Proof.
  intros Hwf [Ht Hb]%mandatory_truthy Hf. split.
  - intros long Hne Heq Hlook. split.
    + intros Hc. rw (_parse_long _ _ _ _ Hwf Hc); [by destruct long|].
      rw /long_option. change (drop 2 (lit "--" ++ ?b)) with b.
      rw split_long_attached // Hlook Ht /=.
      by rw (run_callback_invoked _ f) // Ht.
    + intros Hc Hnext. rw (_parse_long _ _ _ _ Hwf Hc) // /long_option.
      change (drop 2 (lit "--" ++ ?b)) with b.
      rw split_long_plain // Hlook Ht Hb /=.
      rw (next_argument_next _ _ _ _ Hwf Hnext) /=.
      by rw (run_callback_invoked _ f) // Ht.
  - intros c Hne Hlook. split.
    + intros HV Hc. destruct V as [|x V]; [done|].
      rw (_parse_short _ _ _ _ _ Hwf Hc) // /short_option Hlook Ht /=.
      by rw (run_callback_invoked _ f) // Ht.
    + intros Hc Hnext.
      rw (_parse_short _ _ _ _ _ Hwf Hc) // /short_option Hlook Ht Hb /=.
      rw (next_argument_next _ _ _ _ Hwf Hnext) /=.
      rw andb_false_r. by rw (run_callback_invoked _ f) // Ht.
Qed.

End Claims.

(** C3, counterexample: for the empty value, [-n] with the value
    attached is the element [-n] itself: [parse] finds no argument and
    calls no handler, while [-n] followed by the empty element calls the
    handler with the empty string. *)
Lemma mandatory_argument_empty_attached :
  let V := "" in
  example_parse ["main.py"; "-n" +:+ V] = Some (Some true, [], []) ∧
  example_parse ["main.py"; "-n"; V] = Some (Some false, [], [("n", Call1 (Some (lit V)))]) ∧
  example_parse ["main.py"; "--file=" +:+ V] =
    Some (Some false, [], [("file", Call1 (Some (lit V)))]).
Proof. by vm_compute. Qed.

(** * The claims on the help formatter *)

Section FormatterClaims.
Context {St : Type} (MAX_COLUMNS : nat).
Implicit Types (cmd : @Command St) (c : cursor) (s : str).

Local Abbreviation W := (MAX_LINE_LENGTH MAX_COLUMNS).
Local Abbreviation M := (MIN_DESCRIPTION_WIDTH MAX_COLUMNS).
Local Abbreviation LF := ("010"%char).

(** C6, as amended: with an option that is not hidden, the column of the
    descriptions, which [print_help] hands to [print_block] as the
    indentation of every description, is the smaller of the length of the
    longest usage and [MAX_LINE_LENGTH - MIN_DESCRIPTION_WIDTH]; so it
    leaves at least [MIN_DESCRIPTION_WIDTH] columns to the description,
    and a longer usage is not padded. *)
Theorem description_column_is_min cmd fuel :
  create_option_usages cmd ≠ [] →
  let longest := max_list ((λ o, length o.1) <$> create_option_usages cmd) in
  let column := longest `min` (W - M) in
  description_column MAX_COLUMNS (create_option_usages cmd) = Some column ∧
  M ≤ W - column ∧
  (∀ usage, print_option MAX_COLUMNS fuel column usage =
     block ← print_block MAX_COLUMNS fuel usage.2 (length usage.1 `max` column) column;
     Some (usage.1 ++ spaces (column - length usage.1) ++ block)) ∧
  print_help MAX_COLUMNS fuel cmd =
    block ← print_manual MAX_COLUMNS fuel cmd;
    entries ← print_options MAX_COLUMNS fuel column (create_option_usages cmd);
    Some (usage_line cmd ++ block ++ options_header ++ entries, Returns).
Proof.
  intros Hne longest column.
  pose proof (description_column_value MAX_COLUMNS _ Hne) as Hcol.
  split; [done|]. split; [pose proof (MIN_DESCRIPTION_WIDTH_le MAX_COLUMNS); lia|].
  split.
  - intros usage. rw /print_option /= length_app length_replicate.
    replace (length usage.1 + (column - length usage.1)) with (length usage.1 `max` column)
      by lia.
    destruct (print_block _ _ _ _ _); simpl; [|done]. by rw -assoc.
  - rw /print_help Hcol.
    assert (options cmd ≠ []) as Ho.
    { intros Ho. apply Hne. by rw /create_option_usages Ho. }
    rw bool_decide_true //.
    destruct (print_manual _ _ _) as [block|]; [|done]. cbn [mbind option_bind].
    destruct (print_options _ _ _ _); [|done]. cbn [mbind option_bind].
    by rw -!assoc.
Qed.

(** C7, where the code fails: when all the options of a command are
    hidden, [print_help] writes the [Options:] header and then [max] is
    called on an empty list and raises [ValueError]. *)
Theorem all_options_hidden_raises cmd fuel block :
  options cmd ≠ [] →
  Forall (λ o, hidden o = true) (options cmd) →
  print_manual MAX_COLUMNS fuel cmd = Some block →
  print_help MAX_COLUMNS fuel cmd =
    Some (usage_line cmd ++ block ++ options_header, ValueError).
Proof.
  intros Hne Hhid Hblock. rw /print_help Hblock. cbn [mbind option_bind].
  rw bool_decide_true //.
  rw /create_option_usages (filter_hidden _ Hhid).
  simpl. by rw -!assoc.
Qed.
(** C8, as amended: for a command that is well sized, [print_help]
    returns, and no line of what it writes after the [Usage:] line is
    longer than [MAX_LINE_LENGTH]; and for a line [L] of a description
    that follows a line feed, the entry of the option is made of what
    is printed for the text before the line feed, a line feed, what is
    printed for [L], and the rest, where each line that is started
    within [L] begins with as many spaces as the column of the
    descriptions and the indentation that [get_indent] finds for [L],
    which is taken only when [L] starts with a space. *)
Theorem help_within_width_and_indented cmd fuel :
  well_sized MAX_COLUMNS cmd = true → help_fuel cmd ≤ fuel →
  ∃ out,
    print_help MAX_COLUMNS fuel cmd = Some (usage_line cmd ++ out, Returns) ∧
    Forall (λ l, length l ≤ W) (lines out) ∧
    ∀ longest u d P L Q,
      description_column MAX_COLUMNS (create_option_usages cmd) = Some longest →
      (u, d) ∈ create_option_usages cmd →
      d = P ++ LF :: L ++ Q → LF ∉ L → line_end Q →
      ∃ tP tL outQ,
        block_trace MAX_COLUMNS fuel longest
          {| text := P; col := length u `max` longest; linebreak_encountered := false;
             indentation := 0 |} = Some tP ∧
        block_trace MAX_COLUMNS fuel longest (after_break L) = Some tL ∧
        print_option MAX_COLUMNS fuel longest (u, d) =
          Some (u ++ spaces (longest - length u) ++
                written tP ++ newline ++ written tL ++ outQ) ∧
        indented_after (longest + line_indent L) (written tL).
Proof.
  intros [Hman Hopt]%andb_prop Hfuel. rw /help_fuel /= in Hfuel.
  destruct (print_manual_within MAX_COLUMNS fuel cmd Hman) as (block & Hb & Hw & Hlast); [lia|].
  rw /print_help Hb. cbn [mbind option_bind].
  destruct (options cmd) as [|o os] eqn:Ho.
  { exists block. rw bool_decide_false; [by intros []|]. split; [done|]. split.
    - by apply (within_lines_from W []); [apply not_elem_of_nil|].
    - intros longest u d P L Q _ Hin. exfalso. revert Hin.
      rw /create_option_usages Ho /=. apply not_elem_of_nil. }
  rw bool_decide_true //.
  apply andb_prop in Hopt as [HW%bool_decide_eq_true Hopt].
  destruct (description_column _ _) as [longest|] eqn:Hcol; [|done].
  assert (longest < W) as Hl by (eapply description_column_lt; [lia|done]).
  apply Is_true_eq_left, forallb_True in Hopt.
  assert (Forall (λ o, 2 * length o.2 + 2 ≤ fuel) (create_option_usages cmd)) as Hfuels.
  { apply Forall_forall. intros x Hx.
    assert (length x.2 ≤ max_list ((λ o : str * str, length o.2) <$> create_option_usages cmd)).
    { apply max_list_elem_of_le, list_elem_of_fmap. by exists x. }
    lia. }
  destruct (print_options_within MAX_COLUMNS fuel longest (create_option_usages cmd) Hl)
    as (entries & He & Hwe); [|done|].
  { eapply Forall_impl; [exact Hopt|]. intros x Hx. by apply Is_true_eq_true. }
  rw He. cbn [mbind option_bind]. exists (block ++ options_header ++ entries).
  split; [by rw -!assoc|]. split.
  - apply (within_lines_from W []); [apply not_elem_of_nil|]. simpl.
    assert (within W 0 (options_header ++ entries)) as Hh.
    { rw /options_header -!assoc. apply within_newline. split; [lia|].
      rw within_app; [by vm_compute; intros H; repeat (apply elem_of_cons in H as [H|H]; [done|]);
                       by apply elem_of_nil in H|].
      apply within_newline. split; [simpl; lia|done]. }
    destruct Hlast as [->|Hlast]; [done|]. by apply within_app_line.
  - intros longest' u d P L Q [= <-] Hin Hd HL HQ.
    apply (print_option_line MAX_COLUMNS fuel longest u d P L Q); try done.
    + rw Forall_forall in Hopt. apply Is_true_eq_true. by apply (Hopt (u, d)).
    + rw Forall_forall in Hfuels. by apply (Hfuels (u, d)).
Qed.

(** C9, as amended: when every word of the manual, with the spaces
    before it, fits into a line behind the indentation of its line,
    [print_help] prints for the manual a text that has the words of the
    manual, each once and in their order. *)
Theorem manual_words_preserved cmd fuel m :
  manual cmd = Some m → m ≠ [] →
  fits MAX_COLUMNS 0 0 (newline ++ m) = true →
  2 * length m + 4 ≤ fuel →
  ∃ out, print_manual MAX_COLUMNS fuel cmd = Some out ∧ words out = words m.
Proof.
  intros Hm Hne Hfit Hfuel. rw /print_manual Hm /=.
  destruct m as [|x m]; [done|]. simpl.
  destruct (print_block_words MAX_COLUMNS fuel (newline ++ x :: m) 0 0 Hfit)
    as (out & Hout & Hwords); [simpl in *; lia|].
  exists out. split; [done|]. by rw Hwords words_newline.
Qed.
End FormatterClaims.
(** ** The claims on the command of [example.py] *)

Lemma end_of_options_marker_witness :
  ∃ p, parse no_options {[ 0 := [lit "prog"; lit "--"; lit "-x"; lit "file"] ]} () 0 = Some p ∧
       returned p = Some false ∧ operands (final p) = [lit "-x"; lit "file"] ∧
       calls (final p) = [] ∧ world (final p) = ().
Proof.
  apply (proj2 (end_of_options_marker no_options _ () 0) (lit "prog")).
  reflexivity.
Defined.

Lemma unknown_option_fails_witness :
  let σ args := advance (append_operand (lit "a") (initial {[ 0 := lit <$> args ]} [] 1 (lit <$> args))) in
  (∃ p, parse example_cmd {[ 0 := lit <$> ["main.py"; "a"; "--bogus"; "c"] ]} [] 0 = Some p ∧
        returned p = Some true ∧
        stderr p = lit "Unknown option: --bogus" ++ newline ∧ stderr p ≠ [] ∧
        final p = σ ["main.py"; "a"; "--bogus"; "c"]) ∧
  (∃ p, parse example_cmd {[ 0 := lit <$> ["main.py"; "a"; "-z"; "c"] ]} [] 0 = Some p ∧
        returned p = Some true ∧
        stderr p = lit "Unknown option: -z" ++ newline ∧ stderr p ≠ [] ∧
        final p = σ ["main.py"; "a"; "-z"; "c"]).
Proof.
  intros σ. split.
  - refine (proj1 (unknown_option_fails example_cmd
        {[ 0 := lit <$> ["main.py"; "a"; "--bogus"; "c"] ]} [] 0
        (lit <$> ["main.py"; "a"; "--bogus"; "c"]) 1 (σ ["main.py"; "a"; "--bogus"; "c"])
        (lit <$> ["main.py"; "a"; "--bogus"; "c"]) _ _ _) (lit "bogus") _ _ _);
      try (split; vm_compute; reflexivity); try (vm_compute; reflexivity); done.
  - refine (proj2 (unknown_option_fails example_cmd
        {[ 0 := lit <$> ["main.py"; "a"; "-z"; "c"] ]} [] 0
        (lit <$> ["main.py"; "a"; "-z"; "c"]) 1 (σ ["main.py"; "a"; "-z"; "c"])
        (lit <$> ["main.py"; "a"; "-z"; "c"]) _ _ _) "z"%char [] _ _ _);
      try (split; vm_compute; reflexivity); try (vm_compute; reflexivity); done.
Defined.

Lemma optional_argument_never_separate_witness :
  let σ args := example_session args in
  optional opt_log = true ∧
  _parse example_cmd (σ ["main.py"; "--log"; "x"]) =
    invoked opt_log (recorder "log") (Call1 None) (σ ["main.py"; "--log"; "x"]) advance ∧
  _parse example_cmd (σ ["main.py"; "--log="; "x"]) =
    invoked opt_log (recorder "log") (Call1 (Some [])) (σ ["main.py"; "--log="; "x"]) advance ∧
  _parse example_cmd (σ ["main.py"; "-l"; "x"]) =
    invoked opt_log (recorder "log") (Call1 None) (σ ["main.py"; "-l"; "x"]) advance.
Proof.
  intros σ. split; [reflexivity|]. split; [|split].
  - refine (proj1 (proj1 (optional_argument_never_separate example_cmd
        (σ ["main.py"; "--log"; "x"]) (lit <$> ["main.py"; "--log"; "x"])
        opt_log (recorder "log") _ _ _) (lit "log") _ _ _) _);
      try (split; vm_compute; reflexivity); try (vm_compute; reflexivity);
      try done; apply find_None; reflexivity.
  - refine (proj1 (proj2 (proj1 (optional_argument_never_separate example_cmd
        (σ ["main.py"; "--log="; "x"]) (lit <$> ["main.py"; "--log="; "x"])
        opt_log (recorder "log") _ _ _) (lit "log") _ _ _)) _);
      try (split; vm_compute; reflexivity); try (vm_compute; reflexivity);
      try done; apply find_None; reflexivity.
  - refine (proj1 (proj2 (optional_argument_never_separate example_cmd
        (σ ["main.py"; "-l"; "x"]) (lit <$> ["main.py"; "-l"; "x"])
        opt_log (recorder "log") _ _ _) "l"%char _ _) _);
      try (split; vm_compute; reflexivity); try (vm_compute; reflexivity); done.
Defined.

Lemma mandatory_argument_attached_or_separate_witness :
  let σ args := example_session args in
  mandatory opt_file = true ∧
  _parse example_cmd (σ ["main.py"; "--file=out"; "x"]) =
    invoked opt_file (recorder "file") (Call1 (Some (lit "out")))
      (σ ["main.py"; "--file=out"; "x"]) advance ∧
  _parse example_cmd (σ ["main.py"; "--file"; "out"]) =
    invoked opt_file (recorder "file") (Call1 (Some (lit "out")))
      (advance (σ ["main.py"; "--file"; "out"])) advance ∧
  _parse example_cmd (σ ["main.py"; "-fout"; "x"]) =
    invoked opt_file (recorder "file") (Call1 (Some (lit "out")))
      (σ ["main.py"; "-fout"; "x"]) advance ∧
  _parse example_cmd (σ ["main.py"; "-f"; "out"]) =
    invoked opt_file (recorder "file") (Call1 (Some (lit "out")))
      (advance (σ ["main.py"; "-f"; "out"])) advance.
Proof.
  intros σ. split; [reflexivity|]. split; [|split; [|split]].
  - refine (proj1 (proj1 (mandatory_argument_attached_or_separate example_cmd
        (σ ["main.py"; "--file=out"; "x"]) (lit <$> ["main.py"; "--file=out"; "x"])
        opt_file (recorder "file") (lit "out") _ _ _) (lit "file") _ _ _) _);
      try (split; vm_compute; reflexivity); try (vm_compute; reflexivity);
      try done; apply find_None; reflexivity.
  - refine (proj2 (proj1 (mandatory_argument_attached_or_separate example_cmd
        (σ ["main.py"; "--file"; "out"]) (lit <$> ["main.py"; "--file"; "out"])
        opt_file (recorder "file") (lit "out") _ _ _) (lit "file") _ _ _) _ _);
      try (split; vm_compute; reflexivity); try (vm_compute; reflexivity);
      try done; apply find_None; reflexivity.
  - refine (proj1 (proj2 (mandatory_argument_attached_or_separate example_cmd
        (σ ["main.py"; "-fout"; "x"]) (lit <$> ["main.py"; "-fout"; "x"])
        opt_file (recorder "file") (lit "out") _ _ _) "f"%char _ _) _ _);
      try (split; vm_compute; reflexivity); try (vm_compute; reflexivity); done.
  - refine (proj2 (proj2 (mandatory_argument_attached_or_separate example_cmd
        (σ ["main.py"; "-f"; "out"]) (lit <$> ["main.py"; "-f"; "out"])
        opt_file (recorder "file") (lit "out") _ _ _) "f"%char _ _) _ _);
      try (split; vm_compute; reflexivity); try (vm_compute; reflexivity); done.
Defined.

Lemma cluster_like_separate_options_witness :
  ∃ p1 p2 r,
    parse example_cmd
      {[ 0 := lit <$> ["main.py"; "in"; "-vhf"; "out"; "-v"];
         1 := lit <$> ["main.py"; "in"; "-v"; "-h"; "-f"; "out"; "-v"] ]} [] 0 = Some p1 ∧
    parse example_cmd
      {[ 0 := lit <$> ["main.py"; "in"; "-vhf"; "out"; "-v"];
         1 := lit <$> ["main.py"; "in"; "-v"; "-h"; "-f"; "out"; "-v"] ]} [] 1 = Some p2 ∧
    returned p1 = Some r ∧ returned p2 = Some r ∧ stderr p1 = stderr p2 ∧
    operands (final p1) = operands (final p2) ∧
    calls (final p1) = calls (final p2) ∧
    world (final p1) = world (final p2).
Proof.
  refine (proj2 (cluster_like_separate_options example_cmd "v" "h" "f" (lit "out")
            opt_verbose opt_help opt_file _ _ _ _ _ _ _ _ _)
            {[ 0 := lit <$> ["main.py"; "in"; "-vhf"; "out"; "-v"];
               1 := lit <$> ["main.py"; "in"; "-v"; "-h"; "-f"; "out"; "-v"] ]}
            [] 0 1 (lit "main.py") [lit "in"] [lit "-v"] _ _ _);
    try (vm_compute; reflexivity); try done.
  apply Forall_cons. split; [|apply Forall_nil].
  right. right. exists "i"%char, (lit "n"). split; [reflexivity|discriminate].
  Unshelve. all: exact I.
Defined.

Lemma parse_keeps_caller_argv_witness :
  ∃ p, parse example_cmd {[ 0 := lit <$> ["main.py"; "-vh"; "x"] ]} [] 0 = Some p ∧
    store (final p) !! 0 = Some (lit <$> ["main.py"; "-vh"; "x"]) ∧
    ∀ a' l', ({[ 0 := lit <$> ["main.py"; "-vh"; "x"] ]} : heap) !! a' = Some l' →
             store (final p) !! a' = Some l'.
Proof.
  apply (parse_keeps_caller_argv example_cmd _ [] 0). vm_compute. reflexivity.
Defined.

(** The copy is where the cluster was rewritten. *)
Example parse_rewrites_its_copy :
  (λ p, (store (final p) !! 0, store (final p) !! 1)) <$>
    parse example_cmd {[ 0 := lit <$> ["main.py"; "-vh"; "x"] ]} [] 0 =
  Some (Some (lit <$> ["main.py"; "-vh"; "x"]), Some (lit <$> ["main.py"; "-h"; "x"])).
Proof. vm_compute. reflexivity. Qed.

(** C6, counterexample: on a terminal of 80 columns the descriptions of
    [example.py] start in column 24, the length of the longest usage, and
    not in column 31. *)
Lemma description_column_not_max :
  description_column 80 (create_option_usages example_cmd) = Some 24 ∧
  max_list ((λ o, length o.1) <$> create_option_usages example_cmd)
    `max` (MAX_LINE_LENGTH 80 - MIN_DESCRIPTION_WIDTH 80) = 31 ∧
  print_options 80 100 24 (create_option_usages example_cmd) = Some (
    lit "  -f, --file FILENAME   Write output to file FILENAME." ++ newline ++
    lit "  -h, --help            Print help screen and quit." ++ newline ++
    lit "  -l, --log[=LOG_FILE]  Enable loggging (default log file: log.txt)." ++ newline ++
    lit "  -n NUMBER             Set n to a NUMBER between 10 and 20." ++ newline ++
    lit "  -v, --verbose         Enable verbose program output." ++ newline).
Proof. vm_compute. done. Qed.

Lemma all_options_hidden_raises_witness :
  print_help 80 0 hidden_cmd =
    Some (lit "Usage: prog [OPTION...]" ++ newline ++ newline ++ lit "Options:" ++ newline,
          ValueError).
Proof.
  apply (all_options_hidden_raises 80 hidden_cmd 0 []); [done| |done].
  repeat constructor.
Defined.

Lemma description_column_is_min_witness :
  description_column 40 (create_option_usages example_cmd) = Some 16 ∧
  MIN_DESCRIPTION_WIDTH 40 ≤ MAX_LINE_LENGTH 40 - 16.
Proof.
  destruct (description_column_is_min 40 example_cmd 0) as (H1 & H2 & _); [done|].
  split; [exact H1|exact H2].
Defined.

(** C8, counterexample: on a terminal of 30 columns the first line of
    the help of [example.py] has 37 characters, as the [Usage:] line is
    printed without wrapping; and on a terminal of 40 columns the line
    that continues a list item which starts its line begins in column
    16, under the [-] of the item and not under its text in column 18. *)
Lemma usage_line_too_long_bullet_not_indented :
  print_help 30 100 example_cmd = Some (
    lit "Usage: main.py [OPTION...] OPERAND..." ++ newline ++
    newline ++
    lit "Options:" ++ newline ++
    lit "  -f, --file FILENAME  Write" ++ newline ++
    lit "            output to file" ++ newline ++
    lit "            FILENAME." ++ newline ++
    lit "  -h, --help  Print help" ++ newline ++
    lit "            screen and quit." ++ newline ++
    lit "  -l, --log[=LOG_FILE]  Enable" ++ newline ++
    lit "            loggging (default" ++ newline ++
    lit "            log file:" ++ newline ++
    lit "            log.txt)." ++ newline ++
    lit "  -n NUMBER  Set n to a NUMBER" ++ newline ++
    lit "            between 10 and 20." ++ newline ++
    lit "  -v, --verbose  Enable" ++ newline ++
    lit "            verbose program" ++ newline ++
    lit "            output." ++ newline, Returns) ∧
  MAX_LINE_LENGTH 30 = 30 ∧
  length (lit "Usage: main.py [OPTION...] OPERAND...") = 37 ∧
  print_help 40 100 bullets_cmd = Some (
    lit "Usage: prog [OPTION...] FILE..." ++ newline ++
    newline ++
    lit "Options:" ++ newline ++
    lit "  -m, --mode MODE  Set the MODE:" ++ newline ++
    lit "                - fast, which skips the" ++ newline ++
    lit "                checks of the input" ++ newline ++
    lit "                - safe" ++ newline, Returns).
Proof. vm_compute. done. Qed.

Lemma help_within_width_and_indented_witness :
  ∃ out tL,
    print_help 40 200 modes_cmd = Some (usage_line modes_cmd ++ out, Returns) ∧
    Forall (λ l, length l ≤ MAX_LINE_LENGTH 40) (lines out) ∧
    block_trace 40 200 16
      (after_break (lit "  - fast, which skips the checks of the input")) = Some tL ∧
    indented_after 20 (written tL).
Proof.
  destruct (help_within_width_and_indented 40 modes_cmd 200) as (out & Hh & Hw & Hind).
  - vm_compute. reflexivity.
  - vm_compute. lia.
  - destruct (Hind 16 (lit "  -m, --mode MODE  ") (description opt_mode)
                (lit "Set the MODE:")
                (lit "  - fast, which skips the checks of the input")
                (newline ++ lit "  - safe"))
      as (tP & tL & outQ & _ & HtL & _ & Hi).
    + vm_compute. reflexivity.
    + apply list_elem_of_singleton. vm_compute. reflexivity.
    + vm_compute. reflexivity.
    + apply (bool_decide_unpack _). vm_compute. exact I.
    + reflexivity.
    + exists out, tL. split; [exact Hh|]. split; [exact Hw|]. split; [exact HtL|exact Hi].
Defined.

(** C9, counterexample: on a terminal of 20 columns the address in the
    manual of [modes_cmd] is longer than a line and is split, so that
    the words of what is printed are not those of the manual. *)
Lemma manual_word_split :
  print_manual 20 200 modes_cmd = Some (
    newline ++
    lit "Converts each FILE." ++ newline ++
    lit "See" ++ newline ++
    lit "https://example.org/" ++ newline ++
    lit "prog/manual for the" ++ newline ++
    lit "details." ++ newline) ∧
  words (newline ++
    lit "Converts each FILE." ++ newline ++
    lit "See" ++ newline ++
    lit "https://example.org/" ++ newline ++
    lit "prog/manual for the" ++ newline ++
    lit "details." ++ newline) =
    lit <$> ["Converts"; "each"; "FILE."; "See"; "https://example.org/"; "prog/manual";
             "for"; "the"; "details."]%string ∧
  words (default [] (manual modes_cmd)) =
    lit <$> ["Converts"; "each"; "FILE."; "See"; "https://example.org/prog/manual";
             "for"; "the"; "details."]%string.
Proof. vm_compute. done. Qed.

Lemma manual_words_preserved_witness :
  ∃ out, print_manual 40 200 modes_cmd = Some out ∧
         words out = words (default [] (manual modes_cmd)).
Proof.
  apply (manual_words_preserved 40 modes_cmd 200).
  - reflexivity.
  - discriminate.
  - vm_compute. reflexivity.
  - vm_compute. lia.
Defined.
(** * Properties of the parsing engine *)

Section ParserProps.
Context {St : Type}.
Implicit Types (σ τ : @session St) (cmd : @Command St) (o : @Option St).




End ParserProps.

Section ParserProperties.
Context {St : Type}.
Implicit Types (σ τ : @session St) (cmd : @Command St) (o : @Option St).


(** X2: when no element of [argv] after the first one starts with a
    dash and has more characters, [parse] returns [False], calls no
    handler, and [operands] is [argv[1:]]; also for an empty [argv]. *)
Theorem operands_only cmd (h : heap) (w : St) a l :
  h !! a = Some l → Forall plain (drop 1 l) →
  parse cmd h w a = Some
    {| returned := Some false; stderr := [];
       final := {| operands := drop 1 l; argv := fresh (dom h); argc := length l;
                   argv_index := length l `max` 1; store := <[fresh (dom h) := l]> h;
                   world := w; calls := [] |} |}.
Proof.
  intros Hl Hpl. destruct l as [|prog rest].
  { rw /parse Hl /=. done. }
  simpl in Hpl.
  pose proof (steps_plain cmd rest _ _ [] (wf_initial h w (prog :: rest))
                ltac:(by rw /= app_nil_r) Hpl) as Hs.
  rw (parse_from _ _ _ _ _ _ _ Hl Hs) /= /_parse /=.
  rw bool_decide_true; [lia|]. simpl. rw drop_0 Nat.max_0_r. done.
Qed.

(** X3: [parse] reads of the caller's list the elements after the first
    one only: on two lists with the same elements from the second one
    on, whatever the first elements and the stores are, it returns the
    same value, writes the same message, and leaves the same operands,
    the same calls of handlers and the same state of the integrator. *)
Theorem parse_ignores_program_name cmd (h1 h2 : heap) (w : St) a1 a2 l1 l2 :
  h1 !! a1 = Some l1 → h2 !! a2 = Some l2 → drop 1 l1 = drop 1 l2 →
  ∃ p1 p2, parse cmd h1 w a1 = Some p1 ∧ parse cmd h2 w a2 = Some p2 ∧
    returned p1 = returned p2 ∧ stderr p1 = stderr p2 ∧
    operands (final p1) = operands (final p2) ∧
    calls (final p1) = calls (final p2) ∧
    world (final p1) = world (final p2).
Proof.
  intros H1 H2 Hd.
  destruct (parse_total cmd h1 w a1 _ H1) as (p1 & b1 & Hp1 & _).
  destruct (parse_total cmd h2 w a2 _ H2) as (p2 & b2 & Hp2 & _).
  exists p1, p2. split; [done|]. split; [done|].
  rw /parse H1 in Hp1. rw /parse H2 in Hp2. cbv zeta in Hp1, Hp2.
  assert (sim (initial h1 w (fresh (dom h1)) l1) (initial h2 w (fresh (dom h2)) l2)) as Hsim.
  { split; [done|]. exists l1, l2. split; [apply wf_initial|]. split; [apply wf_initial|done]. }
  pose proof (related_run cmd _ _ Hsim) as Hrel. rw /run in Hrel.
  destruct Hrel as [r1 r2 Hrel|]; [|done]. simpl in Hp1, Hp2. simplify_eq.
  apply report_related in Hrel as (Hret & Herr & Ho & Hw & Hcs). done.
Qed.

(** X4: where the scan comes to [--NAME=VALUE] and the option [NAME]
    takes no argument, [parse] writes that the option does not allow an
    argument and returns [True]; the handler of the option is not
    called, and nothing is changed by this step. *)
Theorem long_option_rejects_argument cmd (h : heap) (w : St) a l n σ long v o :
  h !! a = Some l →
  steps n cmd (initial h w (fresh (dom h)) l) = Some σ →
  current σ = Some (lit "--" ++ long ++ lit "=" ++ v) →
  "="%char ∉ long →
  lookup_long long (options cmd) = Some o → truthy (arg o) = false →
  parse cmd h w a = Some
    {| returned := Some true;
       stderr := lit "Option --" ++ long ++ lit " does not allow an argument." ++ newline;
       final := σ |}.
Proof.
  intros Hl Hs Hc Hlong Hlook Harg.
  destruct (steps_wf _ _ _ _ _ (wf_initial h w l) Hs) as ([l' Hwf] & _ & _).
  rw (parse_run _ _ _ _ _ _ _ Hl Hs).
  assert (_parse cmd σ =
          Raise (ParsingError (lit "Option --" ++ long ++ lit " does not allow an argument.")) σ)
    as Hp.
  { rw (_parse_long _ _ _ _ Hwf Hc); [by destruct long|].
    rw /long_option. change (drop 2 (lit "--" ++ long ++ lit "=" ++ v)) with (long ++ lit "=" ++ v).
    by rw (split_long_attached long v) // Hlook Harg. }
  rw (run_raise _ _ _ _ Hp) /=. by rw -!assoc.
Qed.

(** X5: where the scan comes to the last element of [argv] and this is
    an option with a mandatory argument, given by its long or its short
    name with nothing attached, [parse] writes that the option requires
    an argument and returns [True], without calling the handler. *)
Theorem mandatory_argument_missing cmd (h : heap) (w : St) a l n σ o :
  h !! a = Some l →
  steps n cmd (initial h w (fresh (dom h)) l) = Some σ →
  S (argv_index σ) = argc σ → mandatory o = true →
  (∀ long,
     long ≠ [] → "="%char ∉ long → current σ = Some (lit "--" ++ long) →
     lookup_long long (options cmd) = Some o →
     parse cmd h w a = Some
       {| returned := Some true;
          stderr := lit "Option --" ++ long ++ lit " requires an argument." ++ newline;
          final := advance σ |}) ∧
  (∀ c,
     c ≠ "-"%char → current σ = Some (lit "-" ++ [c]) →
     lookup_short c (options cmd) = Some o →
     parse cmd h w a = Some
       {| returned := Some true;
          stderr := lit "Option -" ++ [c] ++ lit " requires an argument." ++ newline;
          final := advance σ |}).
Proof.
  intros Hl Hs Hlast [Harg Hbr]%mandatory_truthy.
  destruct (steps_wf _ _ _ _ _ (wf_initial h w l) Hs) as ([l' Hwf] & _ & _).
  rw (parse_run _ _ _ _ _ _ _ Hl Hs).
  assert (bool_decide (Z.of_nat (argv_index (advance σ)) > Z.of_nat (argc (advance σ)) - 1)%Z
          = true) as Hend.
  { apply bool_decide_eq_true. simpl. lia. }
  split.
  - intros long Hne Hlong Hc Hlook.
    assert (_parse cmd σ =
            Raise (ParsingError (lit "Option --" ++ long ++ lit " requires an argument."))
              (advance σ)) as Hp.
    { rw (_parse_long _ _ _ _ Hwf Hc) //.
      rw /long_option. change (drop 2 (lit "--" ++ long)) with long.
      rw (split_long_plain long) // Hlook Harg Hbr /=.
      by rw /next_argument Hend /=. }
    rw (run_raise _ _ _ _ Hp) /=. by rw -?assoc.
  - intros c Hne Hc Hlook.
    assert (_parse cmd σ =
            Raise (ParsingError (lit "Option -" ++ [c] ++ lit " requires an argument."))
              (advance σ)) as Hp.
    { rw (_parse_short _ _ _ _ _ Hwf Hc) //.
      rw /short_option Hlook Harg Hbr /=.
      by rw /next_argument Hend /=. }
    by rw (run_raise _ _ _ _ Hp) /=.
Qed.

(** X6: when a handler that a scan step calls raises [ParsingError],
    [parse] writes the message of the exception and a line feed to
    [sys.stderr] and returns [True]; what the handler did to the state
    of the integrator before raising stays, and nothing after this
    element of [argv] is scanned. *)
Theorem handler_error_ends_parse cmd (h : heap) (w : St) a l n σ σ1 o f c after w' msg :
  h !! a = Some l →
  steps n cmd (initial h w (fresh (dom h)) l) = Some σ →
  _parse cmd σ = invoked o f c σ1 after →
  f c (world σ1) = (w', Some msg) →
  parse cmd h w a = Some
    {| returned := Some true; stderr := msg ++ newline; final := called o c w' σ1 |}.
Proof.
  intros Hl Hs Hp Hf. rw (parse_run _ _ _ _ _ _ _ Hl Hs).
  rw /invoked Hf /= in Hp. by rw (run_raise _ _ _ _ Hp).
Qed.

(** X7: a dash within a cluster ends the cluster: after the short
    option [c], which takes no argument, the rest [-REST] of the element
    [-c-REST] is scanned as the element [--REST], a long option or the
    end of the options, so that the scan goes on like the one of [-c]
    followed by [--REST]. *)
Theorem dash_in_cluster cmd c o rest σ τ l1 l2 post :
  lookup_short c (options cmd) = Some o → truthy (arg o) = false → c ≠ "-"%char →
  agree σ τ → wf σ l1 → wf τ l2 →
  drop (argv_index σ) l1 = (lit "-" ++ [c] ++ lit "-" ++ rest) :: post →
  drop (argv_index τ) l2 = (lit "-" ++ [c]) :: (lit "--" ++ rest) :: post →
  option_Forall2 (related agree) (run cmd σ) (run cmd τ).
Proof.
  intros Hlook Harg Hne Ha H1 H2 Hd1 Hd2. simpl in Hd1, Hd2.
  assert (current σ = Some ("-"%char :: c :: "-"%char :: rest)) as Hc1.
  { by rw (wf_current _ _ H1) -(Nat.add_0_r (argv_index σ)) -lookup_drop Hd1. }
  assert (current τ = Some ["-"%char; c]) as Hc2.
  { by rw (wf_current _ _ H2) -(Nat.add_0_r (argv_index τ)) -lookup_drop Hd2. }
  pose proof (_parse_short cmd _ _ _ _ H1 Hc1 Hne) as Hp1.
  pose proof (_parse_short cmd _ _ _ _ H2 Hc2 Hne) as Hp2.
  rw /short_option Hlook Harg /= in Hp1. rw /short_option Hlook Harg /= in Hp2.
  pose proof (run_callback_agree o None _ _ Ha) as Hcb.
  destruct (run_callback o None σ) as [[] σ'|e σ'],
    (run_callback o None τ) as [[] τ'|e' τ']; simpl in Hcb; try done.
  - destruct Hcb as (_ & Ha' & Hs1 & Hs2). simpl in Hp1, Hp2.
    rw (run_continue _ _ _ _ H1 Hp1) (run_continue _ _ _ _ H2 Hp2).
    pose proof (same_cursor_wf _ _ _ Hs1 H1) as H1'.
    pose proof (same_cursor_wf _ _ _ Hs2 H2) as H2'.
    destruct Hs1 as (_ & _ & _ & Hi1). destruct Hs2 as (_ & _ & _ & Hi2).
    apply related_run. split; [done|].
    eexists _, l2. split; [by apply wf_rewrite|]. split; [exact H2'|].
    rw /= Hi1 Hi2 drop_insert_ge // Nat.sub_diag Hd1 /=.
    by rw -(Nat.add_1_r (argv_index τ)) -drop_drop Hd2.
  - destruct Hcb as (-> & Ha' & _). simpl in Hp1, Hp2.
    rw (run_raise _ _ _ _ Hp1) (run_raise _ _ _ _ Hp2). by constructor.
Qed.
End ParserProperties.

Section Tracks.
Context {St : Type}.
Implicit Types (σ τ : @session St) (cmd : @Command St) (o : @Option St).

Lemma drop_take_mono (l : list str) i j :
  i ≤ j → drop 1 (take i l) `sublist_of` drop 1 (take j l).
Proof.
  intros Hij. destruct i as [|i]; [rw take_0; apply sublist_nil_l|].
  destruct j as [|j]; [lia|]. destruct l as [|x l]; [done|]. simpl. rw !drop_0.
  replace (take i l) with (take i (take j l)) by (rw take_take; f_equal; lia).
  apply sublist_take.
Qed.

Lemma drop_S_eq (l l0 : list str) i :
  drop (S i) l = drop (S i) l0 →
  drop (S (S i)) l = drop (S (S i)) l0 ∧ l !! S i = l0 !! S i.
Proof.
  intros H. split.
  - by rw -(Nat.add_1_r (S i)) -!drop_drop H.
  - by rw -(Nat.add_0_r (S i)) -!lookup_drop H.
Qed.

Lemma tracks_advance l0 σ : tracks l0 σ → tracks l0 (advance σ).
Proof.
  intros (Hi & Ho & l & Hwf & Hlen & Hd & _). split; [simpl; lia|]. split.
  - etrans; [exact Ho|]. apply drop_take_mono. simpl. lia.
  - exists l. split; [by apply wf_advance|]. split; [done|].
    destruct (drop_S_eq _ _ _ Hd). split; [done|by left].
Qed.

Lemma tracks_called l0 o c w σ : tracks l0 σ → tracks l0 (called o c w σ).
Proof. done. Qed.

Lemma tracks_rewrite l0 r σ :
  r ≠ [] → tracks l0 σ → tracks l0 (rewrite_current ("-"%char :: r) σ).
Proof.
  intros Hr (Hi & Ho & l & Hwf & Hlen & Hd & Hc). split; [done|]. split; [done|].
  exists (<[argv_index σ := "-"%char :: r]> l). split; [by apply wf_rewrite|].
  split; [by rw length_insert|]. simpl. split.
  - by rw drop_insert_lt; [lia|].
  - destruct (decide (argv_index σ < length l)) as [Hlt|Hge].
    + right. exists r. split; [done|]. by rw list_lookup_insert_eq.
    + left. rw lookup_ge_None_2; [rw length_insert; lia|].
      rw lookup_ge_None_2; [lia|done].
Qed.

Lemma plain_not_cluster x r : plain x → r ≠ [] → x ≠ "-"%char :: r.
Proof. intros [->|[->|(c & r' & -> & Hc)]] Hr; [done|intros [= <-]; done|by intros [= -> _]]. Qed.

Lemma tracks_operand l0 x σ :
  tracks l0 σ → current σ = Some x → plain x →
  tracks l0 (advance (append_operand x σ)).
Proof.
  intros (Hi & Ho & l & Hwf & Hlen & Hd & Hc) Hx Hpl.
  rw (wf_current _ _ Hwf) in Hx.
  assert (l0 !! argv_index σ = Some x) as H0.
  { destruct Hc as [<-|(r & Hr & Hc)]; [done|]. rw Hx in Hc. injection Hc as ->.
    by destruct (plain_not_cluster _ r Hpl Hr). }
  split; [simpl; lia|]. split.
  - simpl. rw (take_S_r _ _ _ H0) drop_app_le.
    { rw length_take. apply lookup_lt_Some in H0. lia. }
    by apply sublist_app.
  - exists l. split; [by apply (wf_advance (append_operand x σ))|]. split; [done|].
    destruct (drop_S_eq _ _ _ Hd). split; [done|by left].
Qed.

Lemma tracks_end l0 σ l :
  tracks l0 σ → wf σ l → current σ = Some (lit "--") →
  tracks l0
    {| operands := operands σ ++ drop (S (argv_index σ)) l; argv := argv σ;
       argc := argc σ; argv_index := argc σ; store := store σ;
       world := world σ; calls := calls σ |}.
Proof.
  intros (Hi & Ho & l' & Hwf' & Hlen & Hd & Hc) Hwf Hx.
  assert (l' = l) as -> by (destruct Hwf, Hwf'; congruence).
  rw (wf_current _ _ Hwf) in Hx. apply lookup_lt_Some in Hx.
  destruct Hwf as [Hs Hargc]. split; [simpl; lia|]. split.
  - simpl. rw take_ge; [lia|]. rw Hd.
    rw -{2}(take_drop (argv_index σ) l0) drop_app_le; [rw length_take; lia|].
    apply sublist_app; [done|].
    rw -(Nat.add_1_r (argv_index σ)) -drop_drop. apply sublist_drop.
  - exists l. split; [done|]. split; [done|]. simpl. split.
    + rw !drop_ge //; lia.
    + left. rw lookup_ge_None_2; [lia|]. rw lookup_ge_None_2; [lia|done].
Qed.

Lemma tracks_bind {A B} l0 (r : outcome A) (k : A → session → outcome B) :
  tracks l0 (state_of r) → (∀ a σ', tracks l0 σ' → tracks l0 (state_of (k a σ'))) →
  tracks l0 (state_of (bind r k)).
Proof. destruct r; simpl; auto. Qed.

Lemma tracks_ok {A} l0 σ (a : A) : tracks l0 σ → tracks l0 (state_of (Ok a σ)).
Proof. done. Qed.
Lemma tracks_raise {A} l0 σ e : tracks l0 σ → tracks l0 (state_of (@Raise _ A e σ)).
Proof. done. Qed.

Ltac tracks :=
  repeat first
    [ progress cbv zeta
    | assumption
    | match goal with
      | |- tracks _ (state_of (if ?b then _ else _)) => destruct b
      | |- tracks _ (state_of (match ?x with _ => _ end)) => destruct x
      | |- tracks _ (state_of (Ok _ _)) => apply tracks_ok
      | |- tracks _ (state_of (Raise _ _)) => apply tracks_raise
      | |- tracks _ (state_of (bind _ _)) => apply tracks_bind; [|intros ???]
      | |- tracks _ (advance _) => apply tracks_advance
      | |- tracks _ (called _ _ _ _) => apply tracks_called
      end ].

Lemma tracks_run_callback l0 o oarg σ :
  tracks l0 σ → tracks l0 (state_of (run_callback o oarg σ)).
Proof. intros H. rw /run_callback. tracks. Qed.

Lemma tracks_next_argument l0 what σ :
  tracks l0 σ → tracks l0 (state_of (next_argument what σ)).
Proof. intros H. rw /next_argument /=. tracks. Qed.

Lemma tracks_long_option l0 cmd a σ :
  tracks l0 σ → tracks l0 (state_of (long_option cmd a σ)).
Proof.
  intros H. rw /long_option. destruct (split_long _); destruct (lookup_long _ _);
    tracks; (apply tracks_run_callback || apply tracks_next_argument); tracks.
Qed.

Lemma tracks_short_option l0 cmd a c σ :
  tracks l0 σ → tracks l0 (state_of (short_option cmd a c σ)).
Proof.
  intros H. rw /short_option. destruct (lookup_short _ _); [|done].
  apply tracks_bind.
  { tracks; apply tracks_next_argument; tracks. }
  intros oarg σ1 H1. apply tracks_bind; [by apply tracks_run_callback|].
  intros _ σ2 H2. destruct (negb _ && bool_decide _) eqn:E; simpl; [|by apply tracks_advance].
  apply andb_prop in E as [_ E%bool_decide_eq_true]. apply tracks_rewrite; [|done].
  intros E'%(f_equal length). rw length_drop /= in E'. lia.
Qed.

(** A scan step keeps track of the list. *)
Lemma tracks_parse l0 cmd σ : tracks l0 σ → tracks l0 (state_of (_parse cmd σ)).
Proof.
  intros H. pose proof H as (_ & _ & l & Hwf & _).
  rw /_parse. case_bool_decide as Hi; [done|].
  destruct (current σ) as [a|] eqn:Hc; [|done].
  case_bool_decide as Hlen.
  { apply (tracks_operand l0 a σ); [done..|]. left. by destruct a. }
  case_bool_decide as Hm.
  { subst a. rw (drain_all _ _ l); [by apply wf_advance| |].
    - simpl. rw (wf_current _ _ Hwf) in Hc. apply lookup_lt_Some in Hc.
      destruct Hwf. lia.
    - exact (tracks_end l0 σ l H Hwf Hc). }
  destruct a as [|c0 r]; [done|]. case_bool_decide as Hd.
  2:{ apply (tracks_operand l0 _ σ); [done..|]. right. right. eauto. }
  destruct r as [|c1 r].
  { apply (tracks_operand l0 _ σ); [done..|]. right. left. by subst. }
  case_bool_decide; [by apply tracks_long_option|by apply tracks_short_option].
Qed.

Lemma tracks_scan l0 cmd fuel σ r :
  tracks l0 σ → scan fuel cmd σ = Some r → tracks l0 (state_of r).
Proof.
  revert σ. induction fuel as [|fuel IH]; intros σ H Hs; simpl in Hs; [done|].
  pose proof (tracks_parse l0 cmd σ H) as Hp.
  destruct (_parse cmd σ) as [[] τ|e τ]; simplify_eq; [by eapply IH|done..].
Qed.

Lemma tracks_initial (h : heap) (w : St) l : tracks l (initial h w (fresh (dom h)) l).
Proof.
  split; [done|]. split; [apply sublist_nil_l|]. exists l.
  split; [apply wf_initial|]. split; [done|]. split; [done|by left].
Qed.

(** X8: the operands that [parse] leaves are elements of the caller's
    list after the first one, in their order: no operand is made up, and
    what is left of a cluster is never taken for an operand. *)
Theorem operands_are_arguments cmd (h : heap) (w : St) a l :
  h !! a = Some l →
  ∃ p, parse cmd h w a = Some p ∧ operands (final p) `sublist_of` drop 1 l.
Proof.
  intros Hl. destruct (parse_total cmd h w a _ Hl) as (p & b & Hp & _).
  exists p. split; [done|]. rw /parse Hl in Hp. cbv zeta in Hp.
  destruct (scan _ _ _) as [r|] eqn:Hr; [|done]. simpl in Hp. injection Hp as <-.
  pose proof (tracks_scan l cmd _ _ r (tracks_initial h w l) Hr) as (_ & Ho & _).
  assert (operands (final (report r)) = operands (state_of r)) as ->.
  { by destruct r as [[] ?|[|] ?]. }
  etrans; [exact Ho|]. rw -(take_ge l (argv_index (state_of r) `max` length l)); [lia|].
  rw take_take. replace (_ `min` _) with (argv_index (state_of r)) by lia.
  apply drop_take_mono. lia.
Qed.
End Tracks.

Section Proper.
Context {St : Type}.
Implicit Types (σ τ : @session St) (cmd : @Command St) (o : @Option St).

Lemma lookup_long_elem long (opts : list (@Option St)) o :
  lookup_long long opts = Some o → o ∈ opts ∧ long_name o = Some long.
Proof.
  induction opts as [|o' opts IH]; simpl; [done|]. case_bool_decide as E.
  - intros [= ->]. split; [by left|done].
  - intros [? ?]%IH. split; [by right|done].
Qed.

Lemma lookup_short_elem c (opts : list (@Option St)) o :
  lookup_short c opts = Some o → o ∈ opts ∧ short_name o = Some [c].
Proof.
  induction opts as [|o' opts IH]; simpl; [done|]. case_bool_decide as E.
  - intros [= ->]. split; [by left|done].
  - intros [? ?]%IH. split; [by right|done].
Qed.

Lemma proper_run_callback cmd o oarg σ :
  o ∈ options cmd → (truthy (arg o) = true → oarg = None → bracketed o = true) →
  Forall (proper_call cmd) (calls σ) →
  Forall (proper_call cmd) (calls (state_of (run_callback o oarg σ))).
Proof.
  intros Ho Harg Hq. rw /run_callback. destruct (callback o) as [f|] eqn:Hf; [|done].
  assert (proper_call cmd (o, if truthy (arg o) then Call1 oarg else Call0)) as Hp.
  { split; [done|]. split; [by rw /= Hf|]. simpl. destruct (truthy (arg o)); [|done].
    split; [done|]. by apply Harg. }
  cbv zeta. destruct (_.2); simpl; apply Forall_app; split; try done; by apply Forall_singleton.
Qed.

Lemma proper_next_argument cmd what σ :
  Forall (proper_call cmd) (calls σ) →
  match next_argument what σ with
  | Ok _ σ' | Raise _ σ' => Forall (proper_call cmd) (calls σ')
  end.
Proof.
  intros H. rw /next_argument. cbv zeta. case_bool_decide; [done|]. by destruct (current _).
Qed.

Lemma proper_long_option cmd a σ :
  Forall (proper_call cmd) (calls σ) →
  Forall (proper_call cmd) (calls (state_of (long_option cmd a σ))).
Proof.
  intros H. rw /long_option. destruct (split_long _) as [long oarg].
  destruct (lookup_long _ _) as [o|] eqn:Hlook; [|done].
  apply lookup_long_elem in Hlook as [Ho _].
  assert (∀ oarg' σ', Forall (proper_call cmd) (calls σ') →
            (truthy (arg o) = true → oarg' = None → bracketed o = true) →
            Forall (proper_call cmd)
              (calls (state_of (bind (run_callback o oarg' σ') (λ _ σ, Ok true (advance σ))))))
    as Hk.
  { intros oarg' σ' Hq Harg. pose proof (proper_run_callback cmd o oarg' σ' Ho Harg Hq) as Hr.
    by destruct (run_callback o oarg' σ'). }
  destruct oarg as [v|].
  - destruct (truthy (arg o)) eqn:Ht; simpl; [|done]. by apply Hk.
  - destruct (truthy (arg o)) eqn:Ht; simpl.
    + destruct (bracketed o) eqn:Hb; simpl; [by apply Hk|].
      pose proof (proper_next_argument cmd (lit "--" ++ long) σ H) as Hn.
      destruct (next_argument _ σ) as [x σ1|e σ1]; simpl; [|done]. by apply Hk.
    + by apply Hk.
Qed.

Lemma proper_short_option cmd a c σ :
  Forall (proper_call cmd) (calls σ) →
  Forall (proper_call cmd) (calls (state_of (short_option cmd a c σ))).
Proof.
  intros H. rw /short_option. destruct (lookup_short _ _) as [o|] eqn:Hlook; [|done].
  apply lookup_short_elem in Hlook as [Ho _].
  assert (∀ oarg' σ', Forall (proper_call cmd) (calls σ') →
            (truthy (arg o) = true → oarg' = None → bracketed o = true) →
            Forall (proper_call cmd)
              (calls (state_of (bind (run_callback o oarg' σ') (λ _ σ,
                 if negb (truthy oarg') && bool_decide (2 < length a)
                 then Ok true (rewrite_current ("-"%char :: drop 2 a) σ)
                 else Ok true (advance σ))))))
    as Hk.
  { intros oarg' σ' Hq Harg. pose proof (proper_run_callback cmd o oarg' σ' Ho Harg Hq) as Hr.
    destruct (run_callback o oarg' σ'); simpl; [|done]. by destruct (_ && _). }
  destruct (truthy (arg o)) eqn:Ht; simpl; [|by apply Hk].
  case_bool_decide; simpl; [by apply Hk|].
  destruct (bracketed o) eqn:Hb; simpl; [by apply Hk|].
  pose proof (proper_next_argument cmd (lit "-" ++ [c]) σ H) as Hn.
  destruct (next_argument _ σ) as [x σ1|e σ1]; simpl; [|done]. by apply Hk.
Qed.

Lemma drain_calls n σ : calls (state_of (drain n σ)) = calls σ.
Proof.
  revert σ. induction n as [|n IH]; intros σ; simpl; [done|].
  destruct (current σ); [|done]. by rw IH.
Qed.

Lemma proper_parse cmd σ :
  Forall (proper_call cmd) (calls σ) →
  Forall (proper_call cmd) (calls (state_of (_parse cmd σ))).
Proof.
  intros H. rw /_parse. case_bool_decide; [done|].
  destruct (current σ) as [a|]; [|done].
  case_bool_decide; [done|]. case_bool_decide; [by rw drain_calls|].
  destruct a as [|c0 r]; [done|]. case_bool_decide; [|done].
  destruct r as [|c1 r]; [done|].
  case_bool_decide; [by apply proper_long_option|by apply proper_short_option].
Qed.

Lemma proper_scan cmd fuel σ r :
  Forall (proper_call cmd) (calls σ) → scan fuel cmd σ = Some r →
  Forall (proper_call cmd) (calls (state_of r)).
Proof.
  revert σ. induction fuel as [|fuel IH]; intros σ H Hs; simpl in Hs; [done|].
  pose proof (proper_parse cmd σ H) as Hp.
  destruct (_parse cmd σ) as [[] τ|e τ]; simplify_eq; [by eapply IH|done..].
Qed.

(** X9: [parse] calls handlers of options of the command only, and as
    the option says: without argument when [option.arg] is not true,
    else with one argument, which is [None] only when the argument is
    optional; so the handler of an option with a mandatory argument is
    never called with [None]. *)
Theorem handlers_called_as_declared cmd (h : heap) (w : St) a l :
  h !! a = Some l →
  ∃ p, parse cmd h w a = Some p ∧
    ∀ o c, (o, c) ∈ calls (final p) →
      o ∈ options cmd ∧ is_Some (callback o) ∧
      match c with
      | Call0 => truthy (arg o) = false
      | Call1 oarg => truthy (arg o) = true ∧ (mandatory o = true → is_Some oarg)
      end.
Proof.
  intros Hl. destruct (parse_total cmd h w a _ Hl) as (p & b & Hp & _).
  exists p. split; [done|]. rw /parse Hl in Hp. cbv zeta in Hp.
  destruct (scan _ _ _) as [r|] eqn:Hr; [|done]. simpl in Hp. injection Hp as <-.
  pose proof (proper_scan cmd _ (initial h w (fresh (dom h)) l) r (Forall_nil_2 _) Hr) as Hq.
  assert (calls (final (report r)) = calls (state_of r)) as ->.
  { by destruct r as [[] ?|[|] ?]. }
  intros o c Hin. rw Forall_forall in Hq. destruct (Hq _ Hin) as (Ho & Hcb & Hc).
  split; [done|]. split; [done|]. simpl in Hc. destruct c as [|oarg]; [done|].
  destruct Hc as [Ht Hb]. split; [done|]. intros [_ Hm]%mandatory_truthy.
  destruct oarg; [done|]. rw Hb // in Hm.
Qed.
End Proper.
(** * Properties of the help formatter *)

Section Stuck.
Context (MAX_COLUMNS : nat).
Implicit Types (c : cursor) (s : str) (t : list (event * str)).

Local Abbreviation W := (MAX_LINE_LENGTH MAX_COLUMNS).
Local Abbreviation LF := ("010"%char).

Lemma get_indent_loop_spaces b k s :
  get_indent_loop b (spaces k ++ s) = k + get_indent_loop b s.
Proof.
  induction k as [|k IH]; [done|]. cbn [spaces replicate app get_indent_loop].
  rw (bool_decide_false (_ ∨ _)); [by intros [|]|].
  rw andb_false_r (bool_decide_false (_ ≠ _)); [by intros []|].
  change (replicate k " "%char) with (spaces k). by rw IH.
Qed.





End Stuck.

Section Unwrapped.
Context {St : Type} (MAX_COLUMNS : nat).
Implicit Types (c : cursor) (s : str) (t : list (event * str)).

Local Abbreviation W := (MAX_LINE_LENGTH MAX_COLUMNS).
Local Abbreviation LF := ("010"%char).

Lemma indent_lines_app k a s : LF ∉ a → indent_lines k (a ++ s) = a ++ indent_lines k s.
Proof.
  induction a as [|x a IH]; [done|]. intros [Hx Ha]%not_elem_of_cons.
  cbn [app indent_lines]. by rw bool_decide_false // IH.
Qed.

Lemma indent_lines_take k n s :
  LF ∉ take n s → indent_lines k s = take n s ++ indent_lines k (drop n s).
Proof. intros H. by rw -{1}(take_drop n s) indent_lines_app. Qed.

Lemma indent_lines_0 s : indent_lines 0 s = s.
Proof.
  induction s as [|x s IH]; [done|]. cbn [indent_lines]. rw IH.
  case_bool_decide; [|done]. subst. by destruct s as [|y s]; [|case_bool_decide].
Qed.

Lemma indent_lines_no_newline k s : LF ∉ s → indent_lines k s = s.
Proof. intros H. by rw -(app_nil_r s) indent_lines_app // app_nil_r. Qed.

Lemma indent_lines_newline k r :
  indent_lines k (LF :: r) = LF :: line_head k (after_break r) ++ indent_lines k r.
Proof.
  rw /line_head /after_break /=. destruct r as [|y r]; [done|]. by case_bool_decide.
Qed.

Lemma line_head_newline sc c r : text c = LF :: r → line_head sc c = [].
Proof. intros Ht. rw /line_head Ht /=. by destruct (bool_decide (col c = 0)). Qed.

(** The iterations over a text whose lines need no wrapping. *)
Lemma block_trace_unwrapped sc fuel c :
  flag_ok c →
  (col c = 0 → linebreak_encountered c = false →
     sc = 0 ∧ indentation c = 0 ∧ startswith " " (text c) = false) →
  within W (col c) (line_head sc c ++ indent_lines sc (text c)) →
  length (text c) < fuel →
  ∃ t, block_trace MAX_COLUMNS fuel sc c = Some t ∧
       written t = line_head sc c ++ indent_lines sc (text c).
Proof.
  revert c. induction fuel as [|fuel IH]; intros c Hf Hc0 Hfit Hfuel; [lia|].
  cbn [block_trace]. destruct (text c) as [|x rest] eqn:Ht.
  { assert (iteration MAX_COLUMNS sc c = None) as -> by (by apply iteration_None).
    exists []. split; [done|]. rw /line_head Ht. by case_bool_decide. }
  simpl in Hfuel. destruct (decide (x = LF)) as [->|Hx].
  { rw (step_iteration _ _ _ _ _ _ (step_break MAX_COLUMNS sc c rest Ht)). cbv zeta.
    rw (line_head_newline sc c rest Ht) indent_lines_newline in Hfit |- *.
    apply (within_newline W (col c)) in Hfit as [_ Hfit].
    destruct (IH (after_break rest)) as (t & Ht' & Hw); [done|done|done|simpl; lia|].
    rw /after_break in Ht'. rw Ht'. eexists. split; [done|]. by rw written_cons Hw. }
  pose proof (next_word_len_pos (x :: rest) ltac:(done)) as Hpos.
  pose proof (next_word_len_le (x :: rest)) as Hle.
  pose proof (next_word_no_newline x rest Hx) as Hnl.
  destruct (line_start sc c) as [pre c1] eqn:Hls.
  assert (pre = line_head sc c ∧ col c + length pre = col c1 ∧
          linebreak_encountered c1 = false) as (-> & Hc1 & Hlb1).
  { split; [|split; [|by eapply line_start_flag]].
    - revert Hls. rw /line_start /line_head Ht /=.
      case_bool_decide as Hc; intros [= <- <-]; [|done].
      rw bool_decide_false //.
      destruct (linebreak_encountered c) eqn:Hlb.
      + destruct (Hf Hlb) as [-> _]. by rw app_nil_r.
      + destruct (Hc0 Hc eq_refl) as (_ & -> & _). by rw app_nil_r.
    - destruct (line_start_pre _ _ _ _ Hls) as (k & -> & Hk). by rw length_replicate. }
  assert (LF ∉ line_head sc c) as Hhead.
  { rw /line_head. destruct (_ && _); [apply not_elem_of_spaces|apply not_elem_of_nil]. }
  rw (indent_lines_take sc (next_word_len (x :: rest))) // in Hfit |- *.
  rw within_app // within_app // in Hfit.
  pose proof (within_le _ _ _ Hfit) as Hlen. rw length_take Hc1 in Hfit, Hlen.
  replace (next_word_len (x :: rest) `min` length (x :: rest))
    with (next_word_len (x :: rest)) in Hfit, Hlen by lia.
  assert (step MAX_COLUMNS sc c Word
            (line_head sc c ++ take (next_word_len (text c)) (text c))
            {| text := drop (next_word_len (text c)) (text c);
               col := col c1 + next_word_len (text c);
               linebreak_encountered := linebreak_encountered c1;
               indentation := indentation c1 |}) as Hstep.
  { eapply (step_word _ _ c x rest); [done|done| |done|done|by rw Ht].
    intros Hc ->. destruct (linebreak_encountered c) eqn:Hlb; [done|].
    destruct (Hc0 Hc eq_refl) as (_ & _ & Hs). by rw /startswith bool_decide_true in Hs. }
  rw (step_iteration _ _ _ _ _ _ Hstep). cbv zeta. rw Ht.
  destruct (IH {| text := drop (next_word_len (x :: rest)) (x :: rest);
                  col := col c1 + next_word_len (x :: rest);
                  linebreak_encountered := linebreak_encountered c1;
                  indentation := indentation c1 |}) as (t & -> & Hw).
  - rw /flag_ok /= Hlb1. done.
  - simpl. lia.
  - rw /line_head /=. rw bool_decide_false; [lia|]. done.
  - rw /= length_drop /=. simpl in Hle. lia.
  - eexists. split; [done|]. rw written_cons Hw /line_head /=.
    rw (bool_decide_false (col c1 + _ = 0)); [lia|]. by rw /= -assoc.
Qed.

(** X11: a text whose lines need no wrapping is printed as it is, with
    the column of the wrapped lines, the smaller of [start_col] and
    [indent], put as spaces before every line that follows a line feed
    and is not empty, and a line feed after the last line. *)
Theorem print_block_unwrapped fuel string start_col indent :
  within W start_col (indent_lines (start_col `min` indent) string) →
  (start_col = 0 → startswith " " string = false) →
  length string < fuel →
  print_block MAX_COLUMNS fuel string start_col indent =
    Some (indent_lines (start_col `min` indent) string ++ newline).
Proof.
  intros Hfit H0 Hfuel. rw /print_block.
  replace (if bool_decide (indent < start_col) then indent else start_col)
    with (start_col `min` indent) by (case_bool_decide; lia).
  set (c := {| text := string; col := start_col; linebreak_encountered := false;
               indentation := 0 |}).
  assert (line_head (start_col `min` indent) c = []) as Hh.
  { rw /line_head /c /=. case_bool_decide as Hc; [|done]. subst start_col.
    by destruct (_ && _). }
  destruct (block_trace_unwrapped (start_col `min` indent) fuel c) as (t & -> & Hw);
    [done| |by rw Hh| |].
  - rw /c /=. intros -> _. split; [lia|]. split; [done|by apply H0].
  - done.
  - by rw /= Hw Hh.
Qed.

(** X16: a manual whose lines are all within the width is printed as it
    is, between an empty line and a line feed. *)
Theorem manual_printed_verbatim (cmd : @Command St) fuel m :
  manual cmd = Some m → m ≠ [] → within W 0 m → length m + 1 < fuel →
  print_manual MAX_COLUMNS fuel cmd = Some (newline ++ m ++ newline).
Proof.
  intros Hm Hne Hfit Hfuel. rw /print_manual Hm.
  destruct m as [|x m]; [done|]. cbn [truthy].
  change (default [] (Some (x :: m))) with (x :: m).
  set (c := {| text := newline ++ x :: m; col := 0; linebreak_encountered := false;
               indentation := 0 |}).
  assert (line_head 0 c = []) as Hh by done.
  pose proof (indent_lines_0 (newline ++ x :: m)) as Hil.
  destruct (block_trace_unwrapped 0 fuel c) as (t & Ht & Hw).
  - done.
  - done.
  - rw Hh Hil. apply within_newline. split; [simpl; lia|done].
  - simpl in *. lia.
  - rw /print_block. rw (bool_decide_false (0 < 0)); [lia|].
    by rw -/c Ht /= Hw Hh Hil /= -?assoc.
Qed.
End Unwrapped.

Section Indent.
Implicit Types (s : str).

Lemma get_indent_loop_bullet_spaces j s :
  startswith " " s = false → get_indent_loop true (spaces j ++ s) = j.
Proof.
  intros Hs. rw get_indent_loop_spaces. destruct s as [|x s]; simpl; [lia|].
  simpl in Hs. apply bool_decide_eq_false in Hs.
  rw bool_decide_true //; lia.
Qed.

(** X12: [get_indent] finds the column of the text of a list item: for
    a line of [k] spaces, a [-] or [*], one or more spaces and then the
    text, it is the number of characters before the text.  A [-] or
    [*] that no space follows is counted like a space, and the
    character after it ends the count when it is none of the three. *)
Theorem get_indent_of_list_item k b :
  b = "-"%char ∨ b = "*"%char →
  (∀ j s, startswith " " s = false →
     get_indent (spaces k ++ b :: spaces (S j) ++ s) = k + 1 + S j) ∧
  (∀ x s, x ≠ " "%char → x ≠ "-"%char → x ≠ "*"%char →
     get_indent (spaces k ++ b :: x :: s) = k + 1).
Proof.
  intros Hb. split.
  - intros j s Hs. rw /get_indent get_indent_loop_spaces.
    cbn [get_indent_loop negb andb]. rw bool_decide_true //.
    change (spaces (S j) ++ s) with (" "%char :: spaces j ++ s).
    rw {1}/startswith bool_decide_true //.
    change (" "%char :: spaces j ++ s) with (spaces (S j) ++ s).
    rw get_indent_loop_bullet_spaces //. lia.
  - intros x s Hx Hd Hs. rw /get_indent get_indent_loop_spaces.
    cbn [get_indent_loop negb andb]. rw bool_decide_true //.
    rw /startswith (bool_decide_false (x = " "%char)) //.
    rw (bool_decide_false (x = "-"%char ∨ x = "*"%char)); [by intros [|]|].
    rw bool_decide_true //; lia.
Qed.
End Indent.

Section Sorting.
Context {A : Type} (key : A → str).
Implicit Types (l : list A) (a b c : str).

Lemma str_ltb_irrefl a : str_ltb a a = false.
Proof.
  induction a as [|x a IH]; [done|]. simpl.
  rw !bool_decide_false; [lia..|]. done.
Qed.

Lemma str_ltb_trans a b c : str_ltb a b = true → str_ltb b c = true → str_ltb a c = true.
Proof.
  revert b c. induction a as [|x a IH]; intros [|y b] [|z c]; simpl; try done.
  repeat case_bool_decide; try done; try lia. apply IH.
Qed.

Lemma str_ltb_asym a b : str_ltb a b = true → str_ltb b a = false.
Proof.
  intros H. destruct (str_ltb b a) eqn:E; [|done].
  by rw -(str_ltb_irrefl a) (str_ltb_trans _ _ _ H E).
Qed.

Lemma insert_by_key_perm x l : insert_by_key key x l ≡ₚ x :: l.
Proof.
  induction l as [|y l IH]; [done|]. simpl. destruct (str_ltb _ _); [done|].
  rw IH. apply Permutation_swap.
Qed.

Lemma ordered_insert x l : ordered key l → ordered key (insert_by_key key x l).
Proof.
  induction l as [|y l IH]; [done|]. intros [Hy Hl]. simpl.
  destruct (str_ltb (key x) (key y)) eqn:E.
  - split; [|done]. apply Forall_cons. split; [by apply str_ltb_asym|].
    eapply Forall_impl; [exact Hy|]. intros z Hz. simpl in Hz.
    destruct (str_ltb (key z) (key x)) eqn:E'; [|done].
    by rw (str_ltb_trans _ _ _ E' E) in Hz.
  - split; [|by apply IH]. rw insert_by_key_perm. by apply Forall_cons.
Qed.

Lemma filter_none (P : A → Prop) `{!∀ x, Decision (P x)} l :
  Forall (λ y, ¬ P y) l → filter P l = [].
Proof.
  induction 1 as [|y l Hy Hl IH]; [done|]. by rw filter_cons_False.
Qed.

(** An element goes behind the elements of the same key. *)
Lemma filter_insert k x l :
  ordered key l →
  filter (λ y, key y = k) (insert_by_key key x l) =
  filter (λ y, key y = k) l ++ filter (λ y, key y = k) [x].
Proof.
  induction l as [|y l IH]; intros Hl; [done|].
  destruct Hl as [Hy Hl]. simpl. destruct (str_ltb (key x) (key y)) eqn:E.
  - rw (filter_cons _ x) (filter_cons _ x []) filter_nil.
    destruct (decide (key x = k)) as [Hk|Hk]; [|by rw app_nil_r].
    rw (filter_none (λ y0, key y0 = k) (y :: l)); [|done].
    apply Forall_cons. split.
    + intros Hyk. by rw Hyk -Hk str_ltb_irrefl in E.
    + eapply Forall_impl; [exact Hy|]. intros z Hz Hzk. simpl in Hz.
      by rw Hzk -Hk E in Hz.
  - rw !(filter_cons _ y) IH //. by destruct (decide (key y = k)).
Qed.

(** [list.sort(key=...)]: the elements of the list, in the order of their
    keys, those of the same key in the order they had. *)
Lemma sort_from acc l :
  ordered key acc →
  let r := foldl (λ sorted x, insert_by_key key x sorted) acc l in
  r ≡ₚ acc ++ l ∧ ordered key r ∧
  ∀ k, filter (λ y, key y = k) r = filter (λ y, key y = k) acc ++ filter (λ y, key y = k) l.
Proof.
  revert acc. induction l as [|x l IH]; intros acc Hacc; simpl.
  { rw app_nil_r. split; [done|]. split; [done|]. intros k. by rw filter_nil app_nil_r. }
  destruct (IH (insert_by_key key x acc) (ordered_insert x acc Hacc)) as (Hp & Ho & Hf).
  split; [|split; [done|]].
  - rw Hp insert_by_key_perm. apply Permutation_middle.
  - intros k. by rw Hf filter_insert // -assoc -filter_app.
Qed.

Lemma sort_by_key_sorts l :
  sort_by_key key l ≡ₚ l ∧ ordered key (sort_by_key key l) ∧
  ∀ k, filter (λ y, key y = k) (sort_by_key key l) = filter (λ y, key y = k) l.
Proof. by destruct (sort_from [] l I) as (? & ? & ?). Qed.
End Sorting.

Section Usages.
Context {St : Type}.

(** X13: the entries of the [Options:] section are those of the options
    that are not hidden, each once; they are in the order of the usages
    without regard to case, and entries with the same usage up to case
    are in the order of the options of the command.  The usages are
    taken to be of ASCII characters, for which [casefold] is
    [str.casefold]. *)
Theorem option_usages_sorted (cmd : @Command St) :
  Forall (λ usage : str * str, Forall (λ c, nat_of_ascii c < 128) usage.1)
    (create_option_usages cmd) →
  let entries :=
    (λ option, (create_option_usage option, description option)) <$>
      filter (λ option, hidden option = false) (options cmd) in
  create_option_usages cmd ≡ₚ entries ∧
  ordered (λ usage : str * str, casefold usage.1) (create_option_usages cmd) ∧
  ∀ k, filter (λ usage : str * str, casefold usage.1 = k) (create_option_usages cmd) =
       filter (λ usage : str * str, casefold usage.1 = k) entries.
Proof. intros _ entries. apply sort_by_key_sorts. Qed.
End Usages.

Section Entries.
Context {St : Type} (MAX_COLUMNS : nat).
Implicit Types (o : @Option St) (s : str).

Local Abbreviation W := (MAX_LINE_LENGTH MAX_COLUMNS).

Lemma create_option_usage_end o : ∃ s, create_option_usage o = s ++ lit "  ".
Proof. rw /create_option_usage. cbv zeta. by eexists. Qed.

(** X14: the entry of an option whose description has words that fit
    behind the column of the descriptions is printed with the words of
    its usage and then those of its description, each once and in their
    order: wrapping the description splits and drops no word. *)
Theorem entry_words_preserved fuel longest o :
  fits MAX_COLUMNS longest 0 (description o) = true →
  2 * length (description o) + 2 ≤ fuel →
  ∃ out, print_option MAX_COLUMNS fuel longest (create_option_usage o, description o)
           = Some out ∧
         words out = words (create_option_usage o) ++ words (description o).
Proof.
  intros Hfit Hfuel. rw /print_option. cbn [fst snd].
  set (usage_string := create_option_usage o ++ spaces (longest - length (create_option_usage o))).
  assert (length usage_string `min` longest = longest) as Hmin.
  { rw /usage_string length_app length_replicate. lia. }
  destruct (print_block_words MAX_COLUMNS fuel (description o) (length usage_string) longest)
    as (block & -> & Hw); [by rw Hmin|done|].
  simpl. eexists. split; [done|].
  destruct (create_option_usage_end o) as [s Hs]. rw /usage_string Hs -!assoc.
  change (lit "  " ++ spaces (longest - length (s ++ lit "  ")) ++ block)
    with (" "%char :: " "%char :: spaces (longest - length (s ++ lit "  ")) ++ block).
  rw words_app // !words_space // words_spaces Hw.
  change (lit "  ") with (" "%char :: [" "%char]).
  by rw words_app // !words_space // app_nil_r.
Qed.
End Entries.

Section Aligned.
Context {St : Type} (MAX_COLUMNS : nat).
Implicit Types (o : @Option St) (s : str).

Local Abbreviation W := (MAX_LINE_LENGTH MAX_COLUMNS).
Local Abbreviation LF := ("010"%char).

Lemma roomy_no_newline sc s : LF ∉ s → roomy MAX_COLUMNS sc s = true.
Proof.
  induction s as [|x s IH]; [done|]. intros [Hx Hs]%not_elem_of_cons. simpl.
  by rw bool_decide_false // IH.
Qed.

(** X15: a text without line feed is printed in lines that are all
    within the width, and every line after the first one starts in the
    column of the wrapped lines, the smaller of [start_col] and
    [indent]: for the description of an option this is the column of
    the descriptions. *)
Theorem wrapped_lines_aligned fuel string start_col indent :
  LF ∉ string → start_col ≤ W → start_col `min` indent < W →
  2 * length string + 2 ≤ fuel →
  ∃ body, print_block MAX_COLUMNS fuel string start_col indent = Some (body ++ newline) ∧
          indented_after (start_col `min` indent) body ∧
          within W start_col (body ++ newline).
Proof.
  intros Hlf Hc Hsc Hfuel.
  pose proof (room_initial MAX_COLUMNS string start_col indent Hc Hsc
                (roomy_no_newline _ _ Hlf)) as Hroom.
  destruct (block_trace_room_total _ _ fuel _ Hroom Hfuel) as [t Ht].
  exists (written t). rw /print_block Ht /=. split; [done|]. split.
  - replace (if bool_decide (indent < start_col) then indent else start_col)
      with (start_col `min` indent) in * by (case_bool_decide; lia).
    destruct (block_trace_indented MAX_COLUMNS (start_col `min` indent) 0 fuel _ _ Ht)
      as [Hi _]; [done|done|]. by rw Nat.add_0_r in Hi.
  - by apply (block_trace_within _ _ _ _ _ Ht Hroom).
Qed.

End Aligned.

Section Characters.
Context (MAX_COLUMNS : nat).
Implicit Types (c : cursor) (s : str) (t : list (event * str)).

Local Abbreviation W := (MAX_LINE_LENGTH MAX_COLUMNS).
Local Abbreviation LF := ("010"%char).

Lemma nonblank_app a b : nonblank (a ++ b) = nonblank a ++ nonblank b.
Proof. apply filter_app. Qed.

Lemma nonblank_spaces k : nonblank (spaces k) = [].
Proof.
  induction k as [|k IH]; [done|]. rw /nonblank /= filter_cons_False; [by intros [? _]|].
  exact IH.
Qed.

Lemma nonblank_newline : nonblank newline = [].
Proof. rw /nonblank /newline filter_cons_False; [by intros [_ ?]|]. done. Qed.

Lemma slice_to_from z s : slice_to z s ++ slice_from z s = s.
Proof. rw /slice_to /slice_from. case_bool_decide; apply take_drop. Qed.

(** An iteration prints what it takes from the text, and else spaces and
    line feeds only. *)
Lemma step_nonblank sc c e out c' :
  step MAX_COLUMNS sc c e out c' → nonblank out ++ nonblank (text c') = nonblank (text c).
Proof.
  intros Hs.
  destruct Hs as [c rest Ht|c rest Hc0 Hlb Ht|c x rest n pre c1 Ht Hx Hxs -> Hls Hfit
                 |c x rest n pre c1 Ht Hx Hxs -> Hls Hfit Hat
                 |c x rest n pre c1 Ht Hx Hxs -> Hls Hfit Hat]; cbn [text].
  - rw Ht nonblank_newline. change (LF :: rest) with (newline ++ rest).
    by rw nonblank_app nonblank_newline.
  - rw Ht !nonblank_app !nonblank_spaces. change (" "%char :: rest) with (spaces 1 ++ rest).
    by rw nonblank_app nonblank_spaces.
  - destruct (line_start_pre _ _ _ _ Hls) as (k & -> & _).
    by rw nonblank_app nonblank_spaces /= -nonblank_app take_drop.
  - destruct (line_start_pre _ _ _ _ Hls) as (k & -> & _).
    rw !nonblank_app nonblank_spaces nonblank_newline /= app_nil_r.
    by rw -nonblank_app slice_to_from.
  - destruct (line_start_pre _ _ _ _ Hls) as (k & -> & _).
    by rw !nonblank_app nonblank_spaces nonblank_newline.
Qed.

(** X17: whenever [print_block] returns, the characters it has printed
    that are neither spaces nor line feeds are those of its text, in
    their order: wrapping, and also the splitting of a word that is
    longer than a line, adds and removes spaces and line feeds only. *)
Theorem print_block_keeps_characters fuel string start_col indent out :
  print_block MAX_COLUMNS fuel string start_col indent = Some out →
  nonblank out = nonblank string.
Proof.
  rw /print_block.
  destruct (block_trace _ _ _ _) as [t|] eqn:Ht; [|done]. intros [= <-].
  rw nonblank_app nonblank_newline app_nil_r.
  revert Ht. generalize (if bool_decide (indent < start_col) then indent else start_col).
  intros sc Ht.
  change string with (text {| text := string; col := start_col;
                              linebreak_encountered := false; indentation := 0 |}).
  revert Ht. generalize {| text := string; col := start_col;
                           linebreak_encountered := false; indentation := 0 |}.
  intros c Ht. revert fuel c t Ht.
  apply (block_trace_ind MAX_COLUMNS sc (λ c t, nonblank (written t) = nonblank (text c))).
  - intros c ->. done.
  - intros c e o c' t Hs IH. rw written_cons nonblank_app IH. by eapply step_nonblank.
Qed.
End Characters.

Section NextWord.
Implicit Types (s w : str).
Local Abbreviation LF := ("010"%char).

Lemma next_word_len_loop_word i s :
  i ≠ 0 →
  ∃ n, next_word_len_loop true i s = i + n ∧ n ≤ length s ∧
       (" "%char ∉ take n s) ∧ (LF ∉ take n s) ∧ word_end (drop n s).
Proof.
  revert i. induction s as [|x s IH]; intros i Hi; simpl.
  { exists 0. rw Nat.add_0_r. repeat split; try done; try apply not_elem_of_nil. }
  case_bool_decide as Hsp.
  { exists 0. rw Nat.add_0_r /=. repeat split; try done; try lia; try apply not_elem_of_nil; by left. }
  case_bool_decide as Hlf.
  { rw bool_decide_false //. exists 0. rw Nat.add_0_r /=.
    repeat split; try done; try lia; try apply not_elem_of_nil; by right. }
  destruct (IH (S i) ltac:(done)) as (n & -> & Hn & H1 & H2 & H3).
  exists (S n). simpl. repeat split; try done; try lia; by apply not_elem_of_cons.
Qed.

Lemma next_word_len_loop_spaces_word i s :
  (i = 0 → ∀ r, s ≠ LF :: r) →
  ∃ j w, next_word_len_loop false i s = i + (j + length w) ∧
         take (j + length w) s = spaces j ++ w ∧
         (" "%char ∉ w) ∧ (LF ∉ w) ∧ word_end (drop (j + length w) s).
Proof.
  revert i. induction s as [|x s IH]; intros i Hi; simpl.
  { exists 0, []. rw Nat.add_0_r. repeat split; try done; try apply not_elem_of_nil. }
  case_bool_decide as Hsp.
  { destruct (IH (S i) ltac:(done)) as (j & w & -> & Ht & H1 & H2 & H3).
    exists (S j), w. subst x. simpl. rw Ht. repeat split; try done; lia. }
  case_bool_decide as Hlf.
  { subst x. case_bool_decide as Hi0; [by destruct (Hi Hi0 s)|].
    exists 0, []. rw /= Nat.add_0_r. repeat split; try done; try apply not_elem_of_nil; by right. }
  destruct (next_word_len_loop_word (S i) s ltac:(done)) as (n & -> & Hn & H1 & H2 & H3).
  exists 0, (x :: take n s). rw /= length_take Nat.min_l //.
  repeat split; try done; try lia; by apply not_elem_of_cons.
Qed.

(** X18: [next_word_len] is the length of the next word together with
    the spaces before it: of an empty text it is 0 and of a text that
    starts with a line feed it is 1; else the characters it counts are
    spaces followed by characters that are neither spaces nor line feeds,
    and what is left is empty or starts with a space or a line feed. *)
Theorem next_word_len_is_word s :
  match s with
  | [] => next_word_len s = 0
  | x :: r =>
      if bool_decide (x = LF) then next_word_len s = 1
      else ∃ j w, next_word_len s = j + length w ∧ s = spaces j ++ w ++ drop (j + length w) s ∧
                  (" "%char ∉ w) ∧ (LF ∉ w) ∧ word_end (drop (j + length w) s)
  end.
Proof.
  destruct s as [|x r]; [done|]. case_bool_decide as Hx.
  { subst x. rw /next_word_len /=. done. }
  destruct (next_word_len_loop_spaces_word 0 (x :: r)) as (j & w & Hn & Ht & H1 & H2 & H3).
  { intros _ r' [= ? _]. done. }
  exists j, w. split; [done|]. split; [|done].
  by rw assoc -Ht take_drop.
Qed.
End NextWord.

Section Usage.
Context {St : Type}.
Implicit Types (o : @Option St).

(** X19: in the usage of an option with a long name, the long name
    starts in column 6, whether there is a short name of one character
    before it or none: the long names of the entries are in one column. *)
Theorem long_names_aligned o long :
  long_name o = Some long → long ≠ [] →
  (truthy (short_name o) = false ∨ ∃ c, short_name o = Some [c]) →
  ∃ before rest, create_option_usage o = before ++ lit "--" ++ long ++ rest ∧
                 length before = 6.
Proof.
  intros Hlong Hne Hshort. rw /create_option_usage Hlong. cbv zeta.
  assert (truthy (Some long) = true) as -> by (by destruct long).
  destruct Hshort as [->|[c Hc]].
  - exists (lit "      "). cbn [negb default]. rw /id.
    destruct (truthy (arg o)); [destruct (bracketed o)|];
      eexists; (split; [|done]); rw -!assoc; reflexivity.
  - rw Hc. exists (lit "  -" ++ [c] ++ lit ", "). cbn [truthy negb default]. rw /id.
    destruct (truthy (arg o)); [destruct (bracketed o)|];
      eexists; (split; [|done]); rw -!assoc; reflexivity.
Qed.
End Usage.
(** ** The properties on the command of [example.py] *)


Lemma operands_only_witness :
  parse example_cmd {[ 0 := lit <$> ["main.py"; "a"; "-"; ""; "b"] ]} [] 0 = Some
    {| returned := Some false; stderr := [];
       final := {| operands := lit <$> ["a"; "-"; ""; "b"]; argv := 1; argc := 5;
                   argv_index := 5;
                   store := <[1 := lit <$> ["main.py"; "a"; "-"; ""; "b"]]>
                              {[ 0 := lit <$> ["main.py"; "a"; "-"; ""; "b"] ]};
                   world := []; calls := [] |} |}.
Proof.
  assert (Forall (@plain) (drop 1 (lit <$> ["main.py"; "a"; "-"; ""; "b"]))) as Hplain.
  { repeat apply Forall_cons_2; try apply Forall_nil_2.
    - right. right. by eexists _, _.
    - right. by left.
    - by left.
    - right. right. by eexists _, _. }
  pose proof (operands_only example_cmd {[ 0 := lit <$> ["main.py"; "a"; "-"; ""; "b"] ]} [] 0
                (lit <$> ["main.py"; "a"; "-"; ""; "b"]) eq_refl Hplain) as H.
  vm_compute in H. vm_compute. exact H.
Defined.

Lemma parse_ignores_program_name_witness :
  ∃ p1 p2,
    parse example_cmd {[ 0 := lit <$> ["main.py"; "-v"; "x"] ]} [] 0 = Some p1 ∧
    parse example_cmd {[ 7 := lit <$> ["/usr/bin/main"; "-v"; "x"] ]} [] 7 = Some p2 ∧
    returned p1 = returned p2 ∧ stderr p1 = stderr p2 ∧
    operands (final p1) = operands (final p2) ∧
    calls (final p1) = calls (final p2) ∧
    world (final p1) = world (final p2).
Proof.
  apply (parse_ignores_program_name example_cmd _ _ [] 0 7
           (lit <$> ["main.py"; "-v"; "x"]) (lit <$> ["/usr/bin/main"; "-v"; "x"]));
    reflexivity.
Defined.

Lemma long_option_rejects_argument_witness :
  parse example_cmd {[ 0 := lit <$> ["main.py"; "--verbose=yes"; "x"] ]} [] 0 = Some
    {| returned := Some true;
       stderr := lit "Option --" ++ lit "verbose" ++ lit " does not allow an argument."
                 ++ newline;
       final := initial {[ 0 := lit <$> ["main.py"; "--verbose=yes"; "x"] ]} [] 1
                  (lit <$> ["main.py"; "--verbose=yes"; "x"]) |}.
Proof.
  apply (long_option_rejects_argument example_cmd _ [] 0
           (lit <$> ["main.py"; "--verbose=yes"; "x"]) 0 _ (lit "verbose") (lit "yes")
           opt_verbose).
  - reflexivity.
  - vm_compute. reflexivity.
  - vm_compute. reflexivity.
  - apply find_None. reflexivity.
  - vm_compute. reflexivity.
  - reflexivity.
Defined.

Lemma mandatory_argument_missing_witness :
  parse example_cmd {[ 0 := lit <$> ["main.py"; "--file"] ]} [] 0 = Some
    {| returned := Some true;
       stderr := lit "Option --" ++ lit "file" ++ lit " requires an argument." ++ newline;
       final := advance (initial {[ 0 := lit <$> ["main.py"; "--file"] ]} [] 1
                           (lit <$> ["main.py"; "--file"])) |} ∧
  parse example_cmd {[ 0 := lit <$> ["main.py"; "-n"] ]} [] 0 = Some
    {| returned := Some true;
       stderr := lit "Option -" ++ ["n"%char] ++ lit " requires an argument." ++ newline;
       final := advance (initial {[ 0 := lit <$> ["main.py"; "-n"] ]} [] 1
                           (lit <$> ["main.py"; "-n"])) |}.
Proof.
  split.
  - refine (proj1 (mandatory_argument_missing example_cmd
              {[ 0 := lit <$> ["main.py"; "--file"] ]} [] 0
              (lit <$> ["main.py"; "--file"]) 0 _ opt_file _ _ _ _) (lit "file") _ _ _ _);
      try (vm_compute; reflexivity); try discriminate.
    apply find_None. reflexivity.
  - refine (proj2 (mandatory_argument_missing example_cmd
              {[ 0 := lit <$> ["main.py"; "-n"] ]} [] 0
              (lit <$> ["main.py"; "-n"]) 0 _ opt_n _ _ _ _) "n"%char _ _ _);
      try (vm_compute; reflexivity); discriminate.
Defined.

Lemma handler_error_ends_parse_witness :
  parse strict_cmd {[ 0 := lit <$> ["prog"; "-x"; "later"] ]} () 0 = Some
    {| returned := Some true; stderr := lit "Another instance is running." ++ newline;
       final := called opt_exclusive Call0 ()
                  (initial {[ 0 := lit <$> ["prog"; "-x"; "later"] ]} () 1
                     (lit <$> ["prog"; "-x"; "later"])) |}.
Proof.
  apply (handler_error_ends_parse strict_cmd {[ 0 := lit <$> ["prog"; "-x"; "later"] ]} () 0
           (lit <$> ["prog"; "-x"; "later"]) 0
           (initial {[ 0 := lit <$> ["prog"; "-x"; "later"] ]} () 1
              (lit <$> ["prog"; "-x"; "later"]))
           (initial {[ 0 := lit <$> ["prog"; "-x"; "later"] ]} () 1
              (lit <$> ["prog"; "-x"; "later"])) opt_exclusive
           (refuse "Another instance is running.") Call0 advance);
    vm_compute; reflexivity.
Defined.

Lemma dash_in_cluster_witness :
  option_Forall2 (related agree)
    (run example_cmd (example_session ["main.py"; "-v-help"; "x"]))
    (run example_cmd (example_session ["main.py"; "-v"; "--help"; "x"])).
Proof.
  apply (dash_in_cluster example_cmd "v"%char opt_verbose (lit "help") _ _
           (lit <$> ["main.py"; "-v-help"; "x"]) (lit <$> ["main.py"; "-v"; "--help"; "x"])
           [lit "x"]).
  - vm_compute. reflexivity.
  - reflexivity.
  - discriminate.
  - done.
  - split; vm_compute; reflexivity.
  - split; vm_compute; reflexivity.
  - reflexivity.
  - reflexivity.
Defined.

Lemma operands_are_arguments_witness :
  ∃ p, parse example_cmd {[ 0 := lit <$> ["main.py"; "a"; "-vl"; "--"; "-b"] ]} [] 0 = Some p ∧
       operands (final p) `sublist_of` drop 1 (lit <$> ["main.py"; "a"; "-vl"; "--"; "-b"]).
Proof.
  apply (operands_are_arguments example_cmd
           {[ 0 := lit <$> ["main.py"; "a"; "-vl"; "--"; "-b"] ]} [] 0).
  reflexivity.
Defined.

Lemma handlers_called_as_declared_witness :
  ∃ p, parse example_cmd {[ 0 := lit <$> ["main.py"; "-vl"; "--file"; "out"] ]} [] 0 = Some p ∧
    ∀ o c, (o, c) ∈ calls (final p) →
      o ∈ options example_cmd ∧ is_Some (callback o) ∧
      match c with
      | Call0 => truthy (arg o) = false
      | Call1 oarg => truthy (arg o) = true ∧ (mandatory o = true → is_Some oarg)
      end.
Proof.
  apply (handlers_called_as_declared example_cmd
           {[ 0 := lit <$> ["main.py"; "-vl"; "--file"; "out"] ]} [] 0
           (lit <$> ["main.py"; "-vl"; "--file"; "out"])).
  reflexivity.
Defined.
(** ** The properties of the formatter on examples *)


Lemma print_block_unwrapped_witness :
  print_block 80 100 (description opt_mode) 19 19 =
    Some (indent_lines (19 `min` 19) (description opt_mode) ++ newline).
Proof.
  apply (print_block_unwrapped 80 100 (description opt_mode) 19 19).
  - vm_compute. lia.
  - discriminate.
  - vm_compute. lia.
Defined.

Lemma manual_printed_verbatim_witness :
  print_manual 80 100 modes_cmd =
    Some (newline ++
          lit "Converts each FILE. See https://example.org/prog/manual for the details." ++
          newline).
Proof.
  apply (manual_printed_verbatim 80 modes_cmd 100).
  - reflexivity.
  - discriminate.
  - vm_compute. lia.
  - vm_compute. lia.
Defined.

Lemma get_indent_of_list_item_witness :
  get_indent (spaces 3 ++ "-"%char :: spaces 1 ++ lit "As you can see") = 3 + 1 + 1 ∧
  get_indent (spaces 2 ++ "-"%char :: "v"%char :: lit ", --verbose") = 2 + 1.
Proof.
  destruct (get_indent_of_list_item 3 "-"%char (or_introl eq_refl)) as [H1 _].
  destruct (get_indent_of_list_item 2 "-"%char (or_introl eq_refl)) as [_ H2].
  split.
  - apply (H1 0 (lit "As you can see")). reflexivity.
  - apply (H2 "v"%char (lit ", --verbose")); discriminate.
Defined.

Lemma option_usages_sorted_witness :
  create_option_usages example_cmd ≡ₚ
    (λ option, (create_option_usage option, description option)) <$>
      filter (λ option, hidden option = false) (options example_cmd) ∧
  ordered (λ usage : str * str, casefold usage.1) (create_option_usages example_cmd).
Proof.
  destruct (option_usages_sorted example_cmd) as (H1 & H2 & _).
  - apply (bool_decide_unpack _). vm_compute. exact I.
  - split; [exact H1|exact H2].
Defined.

Lemma entry_words_preserved_witness :
  ∃ out, print_option 30 100 12 (create_option_usage opt_log, description opt_log) = Some out ∧
         words out = words (create_option_usage opt_log) ++ words (description opt_log).
Proof.
  apply (entry_words_preserved 30 100 12 opt_log).
  - vm_compute. reflexivity.
  - vm_compute. lia.
Defined.

Lemma wrapped_lines_aligned_witness :
  ∃ body, print_block 30 100 (lit "Enable loggging (default log file: log.txt).") 24 12
            = Some (body ++ newline) ∧
          indented_after (24 `min` 12) body ∧
          within (MAX_LINE_LENGTH 30) 24 (body ++ newline).
Proof.
  apply (wrapped_lines_aligned 30 100 (lit "Enable loggging (default log file: log.txt).") 24 12).
  - apply (bool_decide_unpack _). vm_compute. exact I.
  - vm_compute. lia.
  - vm_compute. lia.
  - vm_compute. lia.
Defined.

Lemma print_block_keeps_characters_witness :
  ∃ out, print_manual 20 200 modes_cmd = Some out ∧
         nonblank out = nonblank (newline ++ default [] (manual modes_cmd)).
Proof.
  exists (newline ++
    lit "Converts each FILE." ++ newline ++
    lit "See" ++ newline ++
    lit "https://example.org/" ++ newline ++
    lit "prog/manual for the" ++ newline ++
    lit "details." ++ newline).
  split; [vm_compute; reflexivity|].
  apply (print_block_keeps_characters 20 200 (newline ++ default [] (manual modes_cmd)) 0 0).
  vm_compute. reflexivity.
Defined.

Lemma next_word_len_is_word_examples :
  next_word_len (lit "  two words") = 5 ∧
  next_word_len (newline ++ lit "x") = 1 ∧
  next_word_len (lit "   ") = 3 ∧
  next_word_len (lit "end" ++ newline) = 3.
Proof. by vm_compute. Qed.

Lemma long_names_aligned_witness :
  ∃ before rest, create_option_usage opt_file = before ++ lit "--" ++ lit "file" ++ rest ∧
                 length before = 6.
Proof.
  apply (long_names_aligned opt_file (lit "file")).
  - reflexivity.
  - discriminate.
  - right. by exists "f"%char.
Defined.
